(** * aurum-db: a reactive layer over an ordered key-value store

    Shallow embedding of [src/aurum-db.ts] (classes [AurumDB],
    [AurumDBIndex], [AurumDBLinkedCollection],
    [AurumDBOrderedCollection]) and of [src/iterator.ts], and
    verification of the properties its specification states about
    namespaces, indices, observers and ordered collections. *)

From Stdlib Require Import ZArith Lia Ascii.
From stdpp Require Import gmap strings pretty list fin_maps sorting.

Open Scope Z_scope.

(** ** Values, errors and promise outcomes *)

(** The JavaScript values that travel through the store and the observers.
    [VUndef] is [undefined]: the value of a [DataSource] that was never
    updated and the value [onKeyChange] receives for a deletion. *)
Inductive Val : Type :=
  | VUndef
  | VNull
  | VNum (n : Z)
  | VStr (s : string).

Global Instance Val_eq_dec : EqDecision Val.
Proof. solve_decision. Defined.

(** [NotFound] is the engine's "Key not found in database" error; every
    other error of the source is [new Error(msg)]. *)
Inductive Error : Type :=
  | NotFound
  | Thrown (msg : string).

Global Instance Error_eq_dec : EqDecision Error.
Proof. solve_decision. Defined.

(** The state in which the promise returned by an asynchronous method ends
    up: fulfilled, rejected, or never settled. *)
Inductive Outcome (R : Type) : Type :=
  | Resolved (r : R)
  | Rejected (e : Error)
  | Pending.
Arguments Resolved {R} r.
Arguments Rejected {R} e.
Arguments Pending {R}.

(** [key.includes('!')] *)
Fixpoint includes_bang (s : string) : bool :=
  match s with
  | EmptyString => false
  | String c s' => if decide (c = "!"%char) then true else includes_bang s'
  end.

(** ** The storage engine *)

Module Engine.

(** Modelled from the spec: the storage engine ([level], [levelup] and
    [subleveldown] are external packages; spec, sections 1 and 6). One
    physical store is a flat map from keys to values, and a handle on a
    partition is the prefix its keys carry in the physical store. Value
    encodings are taken to round-trip, so the store holds the value
    itself. *)
Definition Handle : Type := string.

(** Modelled from the spec: the handle of the whole store, as
    [initializeDatabase] obtains it from [level]. *)
Definition root : Handle := "".

(** Modelled from the spec: [sub(db, name)] of [subleveldown]; the keys of
    the partition are ["!" + partitionName + "!" + localKey] (spec, section
    6, persisted layout). *)
Definition sub (h : Handle) (name : string) : Handle :=
  h +:+ "!" +:+ name +:+ "!".

(** Modelled from the spec: [db.get(key)]; [None] is the NotFound
    condition. *)
Definition get (h : Handle) (k : string) (st : gmap string Val) : option Val :=
  st !! (h +:+ k).

(** Modelled from the spec: what [db.put(key, value)] does to the store. *)
Definition put (h : Handle) (k : string) (v : Val) (st : gmap string Val)
  : gmap string Val :=
  <[h +:+ k := v]> st.

(** Modelled from the spec: what [db.del(key)] does to the store. *)
Definition del (h : Handle) (k : string) (st : gmap string Val)
  : gmap string Val :=
  delete (h +:+ k) st.

(** Modelled from the spec: what [db.clear()] does to the store: the key
    range of the handle is emptied, the rest of the store is not
    touched. *)
Definition clear (h : Handle) (st : gmap string Val) : gmap string Val :=
  filter (λ kv, String.prefix h kv.1 = false) st.

End Engine.

(** ** Namespace manager: class [AurumDB] *)

(** [function makeSubDbId(subDbName, id)] *)
Definition makeSubDbId (subDbName id : string) : string :=
  "!" +:+ subDbName +:+ "!" +:+ id.

Definition META_KEY : string := "!!meta!!".

(** [AurumDBIntegrityConfig] *)
Record Config : Type := { autoDeleteOnSetUndefined : bool }.

Inductive Kind : Type := KIndex | KOrdered | KLinked.

Global Instance Kind_eq_dec : EqDecision Kind.
Proof. solve_decision. Defined.

(** The suffix each kind appends to the collection name. *)
Definition suffix (k : Kind) : string :=
  match k with
  | KIndex => "index"
  | KOrdered => "ordered"
  | KLinked => "linked"
  end.

Module AurumDB.

(** [has(key)]: the engine's NotFound is absorbed into [false]. *)
Definition has (db : Engine.Handle) (key : string) (st : gmap string Val) : bool :=
  match Engine.get db key st with
  | Some _ => true
  | None => false
  end.

(** [hasIndex(name)] *)
Definition hasIndex (db : Engine.Handle) (name : string) st : bool :=
  has db (makeSubDbId (name +:+ "index") META_KEY) st.

(** [hasOrderedCollection(name)] *)
Definition hasOrderedCollection (db : Engine.Handle) (name : string) st : bool :=
  has db (makeSubDbId (name +:+ "ordered") META_KEY) st.

(** [hasLinkedCollection(name)] *)
Definition hasLinkedCollection (db : Engine.Handle) (name : string) st : bool :=
  has db (makeSubDbId (name +:+ "linked") META_KEY) st.

(** The existence check of kind [k]. *)
Definition hasKind (k : Kind) : Engine.Handle → string → gmap string Val → bool :=
  match k with
  | KIndex => hasIndex
  | KOrdered => hasOrderedCollection
  | KLinked => hasLinkedCollection
  end.

(** [createIndex(name)]; [now] is [new Date().toJSON()]. The result is
    the handle of the new index and the store after the write. *)
Definition createIndex (db : Engine.Handle) (name now : string)
    (st : gmap string Val) : Error + (Engine.Handle * gmap string Val) :=
  if hasIndex db name st
  then inl (Thrown ("Index " +:+ name +:+ " already exists"))
  else
    let name := name +:+ "index" in
    inr (Engine.sub db name,
         Engine.put db (makeSubDbId name META_KEY) (VStr now) st).

(** [createOrderedCollection(name)] *)
Definition createOrderedCollection (db : Engine.Handle) (name : string)
    (st : gmap string Val) : Error + (Engine.Handle * gmap string Val) :=
  if hasOrderedCollection db name st
  then inl (Thrown ("Ordered Collection " +:+ name +:+ " already exists"))
  else
    let name := name +:+ "ordered" in
    inr (Engine.sub db name,
         Engine.put db (makeSubDbId name META_KEY) (VNum 0) st).

(** [createLinkedCollection(name)] *)
Definition createLinkedCollection (db : Engine.Handle) (name : string)
    (st : gmap string Val) : Error + (Engine.Handle * gmap string Val) :=
  if hasLinkedCollection db name st
  then inl (Thrown ("Linked Collection " +:+ name +:+ " already exists"))
  else
    let name := name +:+ "linked" in
    inr (Engine.sub db name,
         Engine.put db (makeSubDbId name META_KEY) (VNum 0) st).

(** Creation of a collection of kind [k]. *)
Definition create (k : Kind) (db : Engine.Handle) (name now : string)
    (st : gmap string Val) : Error + (Engine.Handle * gmap string Val) :=
  match k with
  | KIndex => createIndex db name now st
  | KOrdered => createOrderedCollection db name st
  | KLinked => createLinkedCollection db name st
  end.

(** [getIndex(name)] *)
Definition getIndex (db : Engine.Handle) (name : string)
    (st : gmap string Val) : Error + Engine.Handle :=
  if hasIndex db name st
  then inr (Engine.sub db (name +:+ "index"))
  else inl (Thrown ("Index " +:+ name +:+ " does not exist")).

(** [deleteIndex(name)] *)
Definition deleteIndex (db : Engine.Handle) (name : string)
    (st : gmap string Val) : Error + gmap string Val :=
  match getIndex db name st with
  | inr h => inr (Engine.clear h st)
  | inl e => inl e
  end.

(** [clear()] of the namespace manager itself. *)
Definition clear (db : Engine.Handle) (st : gmap string Val) : gmap string Val :=
  Engine.clear db st.

(** [getOrderedCollection(name)] *)
Definition getOrderedCollection (db : Engine.Handle) (name : string)
    (st : gmap string Val) : Error + Engine.Handle :=
  if hasOrderedCollection db name st
  then inr (Engine.sub db (name +:+ "ordered"))
  else inl (Thrown ("Ordered collection " +:+ name +:+ " does not exist")).

(** [getLinkedCollection(name)] *)
Definition getLinkedCollection (db : Engine.Handle) (name : string)
    (st : gmap string Val) : Error + Engine.Handle :=
  if hasLinkedCollection db name st
  then inr (Engine.sub db (name +:+ "linked"))
  else inl (Thrown ("Linked collection " +:+ name +:+ " does not exist")).

(** Opening a collection of kind [k]. *)
Definition open (k : Kind) (db : Engine.Handle) (name : string)
    (st : gmap string Val) : Error + Engine.Handle :=
  match k with
  | KIndex => getIndex db name st
  | KOrdered => getOrderedCollection db name st
  | KLinked => getLinkedCollection db name st
  end.

(** [createOrGetIndex(name)] *)
Definition createOrGetIndex (db : Engine.Handle) (name now : string)
    (st : gmap string Val) : Error + (Engine.Handle * gmap string Val) :=
  if hasIndex db name st
  then inr (Engine.sub db (name +:+ "index"), st)
  else createIndex db name now st.

(** [createOrGetOrderedCollection(name)] *)
Definition createOrGetOrderedCollection (db : Engine.Handle) (name : string)
    (st : gmap string Val) : Error + (Engine.Handle * gmap string Val) :=
  if hasOrderedCollection db name st
  then inr (Engine.sub db (name +:+ "ordered"), st)
  else createOrderedCollection db name st.

(** [createOrGetLinkedCollection(name)] *)
Definition createOrGetLinkedCollection (db : Engine.Handle) (name : string)
    (st : gmap string Val) : Error + (Engine.Handle * gmap string Val) :=
  if hasLinkedCollection db name st
  then inr (Engine.sub db (name +:+ "linked"), st)
  else createLinkedCollection db name st.

(** Opening a collection of kind [k], created when it is not there. *)
Definition createOrGet (k : Kind) (db : Engine.Handle) (name now : string)
    (st : gmap string Val) : Error + (Engine.Handle * gmap string Val) :=
  match k with
  | KIndex => createOrGetIndex db name now st
  | KOrdered => createOrGetOrderedCollection db name st
  | KLinked => createOrGetLinkedCollection db name st
  end.

(** [deleteOrderedCollection(name)] *)
Definition deleteOrderedCollection (db : Engine.Handle) (name : string)
    (st : gmap string Val) : Error + gmap string Val :=
  match getOrderedCollection db name st with
  | inr h => inr (Engine.clear h st)
  | inl e => inl e
  end.

(** [deletedLinkedCollection(name)] *)
Definition deletedLinkedCollection (db : Engine.Handle) (name : string)
    (st : gmap string Val) : Error + gmap string Val :=
  match getLinkedCollection db name st with
  | inr h => inr (Engine.clear h st)
  | inl e => inl e
  end.

(** Deletion of a collection of kind [k]. *)
Definition delete (k : Kind) (db : Engine.Handle) (name : string)
    (st : gmap string Val) : Error + gmap string Val :=
  match k with
  | KIndex => deleteIndex db name st
  | KOrdered => deleteOrderedCollection db name st
  | KLinked => deletedLinkedCollection db name st
  end.

(** The metadata record each kind is created with. *)
Definition initial_meta (k : Kind) (now : string) : Val :=
  match k with
  | KIndex => VStr now
  | KOrdered | KLinked => VNum 0
  end.

(** The message of the error each kind reports for a name in use. *)
Definition already_exists (k : Kind) (name : string) : string :=
  match k with
  | KIndex => "Index " +:+ name +:+ " already exists"
  | KOrdered => "Ordered Collection " +:+ name +:+ " already exists"
  | KLinked => "Linked Collection " +:+ name +:+ " already exists"
  end.

(** The message of the error each kind reports for a name not in use. *)
Definition does_not_exist (k : Kind) (name : string) : string :=
  match k with
  | KIndex => "Index " +:+ name +:+ " does not exist"
  | KOrdered => "Ordered collection " +:+ name +:+ " does not exist"
  | KLinked => "Linked collection " +:+ name +:+ " does not exist"
  end.

End AurumDB.

(** ** Linked collection: class [AurumDBLinkedCollection] *)

Module Linked.

(** [clear()] *)
Definition clear (db : Engine.Handle) (st : gmap string Val) : gmap string Val :=
  Engine.clear db st.

End Linked.

(** ** Index: class [AurumDBIndex] *)

(** [l.indexOf(x)]; [None] is the source's [-1]. *)
Fixpoint indexOf (x : nat) (l : list nat) : option nat :=
  match l with
  | [] => None
  | y :: l' => if decide (y = x) then Some 0%nat else S <$> indexOf x l'
  end.

(** [l.splice(i, 1)] *)
Definition splice1 (i : nat) (l : list nat) : list nat := delete i l.

(** The local key of a physical key under a handle, when it has one. *)
Fixpoint strip_prefix (h k : string) : option string :=
  match h, k with
  | EmptyString, _ => Some k
  | String a h', String b k' => if decide (a = b) then strip_prefix h' k' else None
  | String _ _, EmptyString => None
  end.

Module Index.

(** One operation of a batch, as the ['batch'] listener receives it. *)
Inductive BatchOp : Type :=
  | BPut (k : string) (v : Val)
  | BDel (k : string)
  | BClear.

(** The change events of the engine the constructor subscribes to. *)
Inductive Event : Type :=
  | EPut (k : string) (v : Val)
  | EDel (k : string)
  | EBatch (ops : list BatchOp)
  | EClear.

(** The physical store together with the fields of one [AurumDBIndex]
    object. Observers are JavaScript objects: they live in a heap under
    their identity and the registries hold identities, so that a
    cancelled observer keeps its last value. Of the reactive primitives
    of [aurumjs] the model keeps what the spec states (section 6): a
    [MapDataSource] is the finite map that [set] and [delete] build, a
    [DataSource] is the value [update] stored last, [undefined] before
    the first one. *)
Record State : Type := mkState {
  store : gmap string Val;
  mapSources : gmap nat (gmap string Val);
  dataSources : gmap nat Val;
  totalObservers : list nat;
  keyObservers : gmap string (list nat);
  nextId : nat
}.

(** The same object on another store. *)
Definition with_store (f : gmap string Val → gmap string Val) (s : State) : State :=
  mkState (f (store s)) (mapSources s) (dataSources s)
          (totalObservers s) (keyObservers s) (nextId s).

(** [mds.delete(k)] or [mds.set(k, v)], as [onKeyChange] chooses. *)
Definition mds_change (k : string) (v : Val) (m : gmap string Val)
  : gmap string Val :=
  if decide (v = VUndef) then delete k m else <[k:=v]> m.

(** [for (const x of ids) x.update(...)] on a heap of objects. *)
Definition update_all {A} (f : A → A) (ids : list nat) (heap : gmap nat A)
  : gmap nat A :=
  foldl (λ h id, alter f id h) heap ids.

(** [private onKeyChange(k, v)] *)
Definition onKeyChange (k : string) (v : Val) (s : State) : State :=
  let ms := update_all (mds_change k v) (totalObservers s) (mapSources s) in
  let ds :=
    match keyObservers s !! k with
    | Some dss => update_all (λ _, v) dss (dataSources s)
    | None => dataSources s
    end in
  mkState (store s) ms ds (totalObservers s) (keyObservers s) (nextId s).

(** [private onClear()] *)
Definition onClear (s : State) : State :=
  let ms := update_all (λ _, ∅) (totalObservers s) (mapSources s) in
  let ds :=
    foldl (λ h dss, update_all (λ _, VUndef) dss h) (dataSources s)
          (snd <$> map_to_list (keyObservers s)) in
  mkState (store s) ms ds (totalObservers s) (keyObservers s) (nextId s).

(** One turn of the loop over the operations of a batch. *)
Definition onBatchOp (s : State) (op : BatchOp) : State :=
  match op with
  | BPut k v => onKeyChange k v s
  | BDel k => onKeyChange k VUndef s
  | BClear => onClear s
  end.

(** The four listeners installed by the constructor. *)
Definition handle (e : Event) (s : State) : State :=
  match e with
  | EPut k v => onKeyChange k v s
  | EDel k => onKeyChange k VUndef s
  | EBatch ops => foldl onBatchOp s ops
  | EClear => onClear s
  end.

Section Instance.

(** [this.db] and [this.config] *)
Variable db : Engine.Handle.
Variable config : Config.

(** The state right after the constructor ran on a store. *)
Definition init (st : gmap string Val) : State :=
  mkState st ∅ ∅ [] ∅ 0.

(** A write through [this.db]: the engine applies it and then emits
    the event to the listeners of this object. *)
Definition db_put (k : string) (v : Val) (s : State) : State :=
  handle (EPut k v) (with_store (Engine.put db k v) s).

(** [this.db.del(k)] *)
Definition db_del (k : string) (s : State) : State :=
  handle (EDel k) (with_store (Engine.del db k) s).

(** [this.db.clear()] *)
Definition db_clear (s : State) : State :=
  handle EClear (with_store (Engine.clear db) s).

(** [get(key, encoding)] *)
Definition get (key : string) (s : State) : Outcome Val :=
  match Engine.get db key (store s) with
  | Some v => Resolved v
  | None => Rejected NotFound
  end.

(** [has(key)], inherited from [AurumDB]. *)
Definition has (key : string) (s : State) : bool :=
  AurumDB.has db key (store s).

(** [value === undefined || value === null] *)
Definition is_nullish (v : Val) : bool :=
  match v with
  | VUndef | VNull => true
  | _ => false
  end.

(** [set(key, value, encoding)] *)
Definition set (key : string) (value : Val) (s : State) : State :=
  if autoDeleteOnSetUndefined config && is_nullish value
  then db_del key s
  else db_put key value s.

(** [delete(key)] *)
Definition delete (key : string) (s : State) : State := db_del key s.

(** [clear()]: read the metadata record, clear the partition, write
    the record back. *)
Definition clear (s : State) : Outcome unit * State :=
  match get META_KEY s with
  | Resolved val => (Resolved tt, set META_KEY val (db_clear s))
  | Rejected e => (Rejected e, s)
  | Pending => (Pending, s)
  end.

(** [observeKey(key, cancellationToken, encoding)]: the new
    [DataSource] and the state in which it is registered. *)
Definition observeKey (key : string) (s : State) : nat * State :=
  let ds := nextId s in
  let v0 :=
    if has key s
    then match Engine.get db key (store s) with
         | Some v => v
         | None => VUndef
         end
    else VUndef in
  let dss := default [] (keyObservers s !! key) in
  (ds, mkState (store s) (mapSources s) (<[ds:=v0]> (dataSources s))
               (totalObservers s) (<[key:=dss ++ [ds]]> (keyObservers s))
               (S (nextId s))).

(** The cancelable [observeKey] hands to the token. [None] is the
    TypeError of calling [indexOf] on [undefined]. *)
Definition cancelKey (key : string) (ds : nat) (s : State) : option State :=
  match keyObservers s !! key with
  | None => None
  | Some dss =>
      match indexOf ds dss with
      | Some index =>
          Some (mkState (store s) (mapSources s) (dataSources s)
                  (totalObservers s)
                  (<[key:=splice1 index dss]> (keyObservers s))
                  (nextId s))
      | None => Some s
      end
  end.

(** The keys the cursor of [this.iterator({values: false})] yields:
    the local keys of the partition at the time the cursor is
    created, in key order. *)
Definition snapshot (st : gmap string Val) : list string :=
  omap (strip_prefix db) (merge_sort String.le (fst <$> map_to_list st)).

(** The synchronous part of [observeEntireIndex]: the cursor is
    opened, the [MapDataSource] created and pushed on
    [totalObservers]. The result is the observer, the keys the cursor
    will yield and the new state. *)
Definition observeEntireIndex_begin (s : State) : nat * list string * State :=
  let result := nextId s in
  (result, snapshot (store s),
   mkState (store s) (<[result:=∅]> (mapSources s)) (dataSources s)
           (totalObservers s ++ [result]) (keyObservers s)
           (S (nextId s))).

(** The cancelable [observeEntireIndex] hands to the token. *)
Definition cancelTotal (result : nat) (s : State) : State :=
  match indexOf result (totalObservers s) with
  | Some index =>
      mkState (store s) (mapSources s) (dataSources s)
              (splice1 index (totalObservers s)) (keyObservers s)
              (nextId s)
  | None => s
  end.

(** The scan of [observeEntireIndex]: the keys the cursor has not yet
    delivered, and the state of the returned promise. *)
Record Scan : Type := mkScan {
  pendingKeys : list string;
  promise : Outcome nat;
  scanning : bool
}.

(** One call of the callback [cb(err, key)], up to and including the
    [await that.get(key)] it may contain. A key that the live store no
    longer holds makes [that.get] reject inside [cb]: nothing catches
    it, neither [resolve] nor [reject] is called and [iter.next] is
    not called again. *)
Definition scan_step (result : nat) (sc : Scan) (s : State) : Scan * State :=
  if scanning sc then
    match pendingKeys sc with
    | [] => (mkScan [] (Resolved result) false, s)
    | key :: rest =>
        if includes_bang key
        then (mkScan rest Pending true, s)
        else
          match get key s with
          | Resolved v =>
              (mkScan rest Pending true,
               mkState (store s)
                 (alter (λ m, <[key:=v]> m) result (mapSources s))
                 (dataSources s) (totalObservers s) (keyObservers s)
                 (nextId s))
          | _ => (mkScan rest Pending false, s)
          end
    end
  else (sc, s).

(** A mutation of the index through its public interface, taken at
    the moment the engine applies it and emits its event. *)
Inductive Mutation : Type :=
  | MSet (key : string) (value : Val)
  | MDelete (key : string)
  | MClear.

(** The call the mutation stands for. *)
Definition apply_mutation (s : State) (m : Mutation) : State :=
  match m with
  | MSet key value => set key value s
  | MDelete key => delete key s
  | MClear => (clear s).2
  end.

(** Calls made one after the other. *)
Definition apply_mutations (ms : list Mutation) (s : State) : State :=
  foldl apply_mutation s ms.

(** What the event loop runs next while the scan of
    [observeEntireIndex] is under way: the next callback of the scan,
    or the completion of a mutation the caller issued meanwhile. A turn
    is the engine's read or write together with the synchronous code its
    completion triggers; the turns of a scan and of the mutations may
    come in any order. *)
Inductive Action : Type :=
  | AScan
  | AMutation (m : Mutation).

(** One turn of the event loop. *)
Definition step (result : nat) (x : Scan * State) (a : Action)
  : Scan * State :=
  match a with
  | AScan => scan_step result x.1 x.2
  | AMutation m => (x.1, apply_mutation x.2 m)
  end.

(** [observeEntireIndex(cancellationToken, valueEncoding)] under a
    schedule: the observer, the scan with the state of the returned
    promise, and the state of the index. *)
Definition observeEntireIndex (schedule : list Action) (s : State)
  : nat * Scan * State :=
  let '(result, keys, s1) := observeEntireIndex_begin s in
  let '(sc, s2) := foldl (step result) (mkScan keys Pending true, s1) schedule in
  (result, sc, s2).

(** The content of a [MapDataSource]. *)
Definition view (result : nat) (s : State) : gmap string Val :=
  default ∅ (mapSources s !! result).

End Instance.

(** Identities are handed out in increasing order and a registry holds
    an object at most once: what the constructor establishes and every
    method keeps. *)
Definition wf (s : State) : Prop :=
  NoDup (totalObservers s)
  ∧ (∀ id, id ∈ totalObservers s → (id < nextId s)%nat)
  ∧ ∀ key dss, keyObservers s !! key = Some dss →
      NoDup dss ∧ ∀ id, id ∈ dss → (id < nextId s)%nat.

(** The registries of the object and its allocation counter. *)
Definition registries (s : State) : list nat * gmap string (list nat) * nat :=
  (totalObservers s, keyObservers s, nextId s).

(** The [DataSource] is in the list of some key. *)
Definition registered (s : State) (ds : nat) : Prop :=
  ∃ key dss, keyObservers s !! key = Some dss ∧ ds ∈ dss.

(** The mutation is not a [set] to [undefined]. *)
Definition defined_write (m : Mutation) : Prop :=
  match m with
  | MSet _ value => value ≠ VUndef
  | _ => True
  end.

(** The turn of the event loop is not a [set] to [undefined]. *)
Definition defined_action (a : Action) : Prop :=
  match a with
  | AScan => True
  | AMutation m => defined_write m
  end.

(** The [MapDataSource] exists and is on [totalObservers], once. *)
Definition listed (s : State) (result : nat) : Prop :=
  NoDup (totalObservers s) ∧ result ∈ totalObservers s
  ∧ is_Some (mapSources s !! result).

(** What holds of the scan and of the index along every schedule: the
    observer stays listed, a resolved promise holds it and then no key is
    left, and while the scan has not thrown the observer and the store
    agree on every key without the delimiter that the cursor is past. *)
Definition scan_inv (db : Engine.Handle) (result : nat)
    (x : Scan * State) : Prop :=
  listed x.2 result
  ∧ (∀ r, promise x.1 = Resolved r → r = result ∧ pendingKeys x.1 = [])
  ∧ (scanning x.1 = true ∨ promise x.1 = Resolved result →
     ∀ k, includes_bang k = false →
       k ∈ pendingKeys x.1
       ∨ view result x.2 !! k = Engine.get db k (store x.2)).

(** The mutation removes no key: it is a [set] that the configuration
    does not turn into a deletion. *)
Definition no_removal (config : Config) (m : Mutation) : Prop :=
  match m with
  | MSet _ value => autoDeleteOnSetUndefined config && is_nullish value = false
  | MDelete _ | MClear => False
  end.

(** The turn of the event loop removes no key. *)
Definition keeps_keys (config : Config) (a : Action) : Prop :=
  match a with
  | AScan => True
  | AMutation m => no_removal config m
  end.

(** The number of callbacks of the scan in a schedule. *)
Fixpoint scan_turns (schedule : list Action) : nat :=
  match schedule with
  | [] => 0
  | AScan :: rest => S (scan_turns rest)
  | AMutation _ :: rest => scan_turns rest
  end.

(** The [DataSource] is registered under [key], once, and under no
    other key: the situation [observeKey] creates. *)
Definition registered_under (s : State) (key : string) (ds : nat) : Prop :=
  ∃ dss, keyObservers s !! key = Some dss ∧ NoDup dss ∧ ds ∈ dss
    ∧ ∀ key' dss', key' ≠ key → keyObservers s !! key' = Some dss' → ds ∉ dss'.

(** The [DataSource] is registered under [key] and holds what the
    store holds under that key, [undefined] when the key is missing. *)
Definition tracks (db : Engine.Handle) (s : State) (key : string) (ds : nat)
  : Prop :=
  registered_under s key ds
  ∧ dataSources s !! ds
    = Some (default VUndef (Engine.get db key (store s))).

End Index.

(** ** Ordered collection: class [AurumDBOrderedCollection] *)

(** The whole-collection observers, which the mutating methods update
    themselves, are part of the model. The per-key observers of this class
    ([observeAt], [observeLength]) and the listeners that serve them take
    no part in the properties below and are left out. *)

Module Ordered.

(** One operation of a chained batch. *)
Inductive BatchOp : Type :=
  | BPut (k : string) (v : Val)
  | BDel (k : string).

(** A request to the engine through [this.db]. *)
Inductive Request : Type :=
  | RGet (k : string)
  | RPut (k : string) (v : Val)
  | RBatch (ops : list BatchOp)
  | RClear.

(** The body of an asynchronous method: the synchronous code between
    two suspension points is a function of Rocq, and every constructor
    is a point where the method touches the object, the engine or the
    promise machinery.
    - [AwaitLock k]: [await this.lock], then [k] on the value the lock
      resolved with ([undefined] when no lock was ever installed);
    - [Db rq k]: [await this.db.<rq>], then [k] on the result ([None]
      when the key is not found);
    - [DbNoWait rq k]: the request is issued and not awaited;
    - [Observers f k]: [for (const ads of this.totalObservers) ...];
    - [NewLock executor k]:
      [this.lock = new Promise(async (resolve) => { executor })], where
      the value [executor] returns is the argument of its final
      [resolve(...)] and an error it throws is lost. *)
Inductive Prog (R : Type) : Type :=
  | Ret (r : R)
  | Throw (e : Error)
  | AwaitLock (k : Val → Prog R)
  | Db (rq : Request) (k : option Val → Prog R)
  | DbNoWait (rq : Request) (k : Prog R)
  | Observers (f : list Val → list Val) (k : Prog R)
  | NewLock (executor : Prog Val) (k : Prog R).
Arguments Ret {R} r.
Arguments Throw {R} e.
Arguments AwaitLock {R} k.
Arguments Db {R} rq k.
Arguments DbNoWait {R} rq k.
Arguments Observers {R} f k.
Arguments NewLock {R} executor k.

Fixpoint bind {A B : Type} (p : Prog A) (f : A → Prog B) : Prog B :=
  match p with
  | Ret r => f r
  | Throw e => Throw e
  | AwaitLock k => AwaitLock (λ v, bind (k v) f)
  | Db rq k => Db rq (λ r, bind (k r) f)
  | DbNoWait rq k => DbNoWait rq (bind k f)
  | Observers g k => Observers g (bind k f)
  | NewLock executor k => NewLock executor (bind k f)
  end.

Notation "'await' x ':=' p 'in' q" := (bind p (λ x, q))
  (at level 10, x name, p at level 100, q at level 200, only parsing).
Notation "'wait' p 'in' q" := (bind p (λ _, q))
  (at level 10, p at level 100, q at level 200, only parsing).

(** [await this.lock] *)
Definition await_lock : Prog Val := AwaitLock Ret.

(** [await this.db.get(key, { valueEncoding: 'json' })] *)
Definition db_get (key : string) : Prog Val :=
  Db (RGet key)
     (λ r, match r with Some v => Ret v | None => Throw NotFound end).

Definition db_put (key : string) (v : Val) : Prog unit :=
  Db (RPut key v) (λ _, Ret tt).

Definition db_clear : Prog unit := Db RClear (λ _, Ret tt).

(** [await batch.write()] *)
Definition batch_write (ops : list BatchOp) : Prog unit :=
  Db (RBatch ops) (λ _, Ret tt).

(** [for (const ads of this.totalObservers) ...] *)
Definition observers (f : list Val → list Val) : Prog unit :=
  Observers f (Ret tt).

(** The key the engine stores for the integer [i]: its decimal form,
    which is what [String(i)] and the template [`${len + i}`] produce
    (below 10^21, where JavaScript changes to the exponent form). *)
Definition slot (i : Z) : string := pretty i.

(** Modelled from the spec: the reactive primitive [ArrayDataSource] of
    the package [aurumjs] (spec, section 6: an ordered observable
    collection with [appendArray], [pop], [set(index, value)], [clear]).
    [set] replaces an element of the view or appends at its end. *)
Definition ads_set (index : Z) (item : Val) (data : list Val) : list Val :=
  if decide (0 ≤ index < Z.of_nat (length data))
  then <[Z.to_nat index := item]> data
  else if decide (index = Z.of_nat (length data)) then data ++ [item]
  else data.

(** Modelled from the spec: [ads.appendArray(items)]. *)
Definition ads_appendArray (items : list Val) (data : list Val) : list Val :=
  data ++ items.

(** Modelled from the spec: [ads.pop()]. *)
Definition ads_pop (data : list Val) : list Val := removelast data.

(** Modelled from the spec: [ads.clear()]. *)
Definition ads_clear (data : list Val) : list Val := [].

(** [length()]. The metadata record of an ordered collection is the
    number every write of this class stores there, and the method is
    typed [Promise<number>]. The coercions JavaScript would apply to a
    record of another type are not modelled: the call stops with an
    error, and every theorem below is about a numeric record. *)
Definition length : Prog Z :=
  wait await_lock in
  await v := db_get META_KEY in
  match v with
  | VNum n => Ret n
  | _ => Throw (Thrown "length record is not a number")
  end.

(** [get(index)] *)
Definition get (index : Z) : Prog Val :=
  wait await_lock in
  await len := length in
  if index >? len
  then Throw (Thrown "cannot read outside of bounds of array")
  else db_get (slot index).

(** [set(index, item)] *)
Definition set (index : Z) (item : Val) : Prog unit :=
  wait await_lock in
  await len := length in
  if index >? len
  then Throw (Thrown "cannot write outside of bounds of array")
  else
    wait observers (ads_set index item) in
    db_put (slot index) item.

(** The [batch.put] calls of [push], in order. *)
Definition push_batch (len : Z) (items : list Val) : list BatchOp :=
  imap (λ i item, BPut (slot (len + Z.of_nat i)) item) items
  ++ [BPut META_KEY (VNum (len + Z.of_nat (List.length items)))].

(** [push(...items)] *)
Definition push (items : list Val) : Prog Val :=
  wait await_lock in
  NewLock
    (await len := length in
     wait observers (ads_appendArray items) in
     wait batch_write (push_batch len items) in
     Ret VUndef)
    await_lock.

(** The loop [for (let i = start; i < end; i++) items.push(await
    this.db.get(i))], on the number of turns left. *)
Fixpoint read_from (i : Z) (turns : nat) : Prog (list Val) :=
  match turns with
  | O => Ret []
  | S turns' =>
      await v := db_get (slot i) in
      await rest := read_from (i + 1) turns' in
      Ret (v :: rest)
  end.

(** [slice(startIndex, endIndex)] *)
Definition slice (startIndex endIndex : Z) : Prog (list Val) :=
  wait await_lock in
  await len := length in
  if (startIndex >? len) || (startIndex <? 0)
     || (endIndex >? len) || (endIndex <? 0)
  then Throw (Thrown "cannot write outside of bounds of array")
  else read_from startIndex (Z.to_nat (endIndex - startIndex)).

(** [pop()] *)
Definition pop : Prog Val :=
  wait await_lock in
  NewLock
    (await len := length in
     await v := db_get (slot (len - 1)) in
     wait observers ads_pop in
     wait batch_write [BPut META_KEY (VNum (len - 1)); BDel (slot (len - 1))] in
     Ret v)
    await_lock.

(** [clear()] *)
Definition clear : Prog unit :=
  wait await_lock in
  wait db_clear in
  wait observers ads_clear in
  DbNoWait (RPut META_KEY (VNum 0)) (Ret tt).

(** [toArray()] *)
Definition toArray : Prog (list Val) :=
  wait await_lock in
  await len := length in
  read_from 0 (Z.to_nat len).

(** The loop of [forEach]. The callback is the change it makes to what
    it closes over: [cb item index] takes the state [acc] of the caller to
    the state after the call. *)
Fixpoint each_from {A : Type} (cb : Val → Z → A → A) (i : Z) (turns : nat)
    (acc : A) : Prog A :=
  match turns with
  | O => Ret acc
  | S turns' =>
      await v := db_get (slot i) in
      each_from cb (i + 1) turns' (cb v i acc)
  end.

(** [forEach(cb)] *)
Definition forEach {A : Type} (cb : Val → Z → A → A) (acc : A) : Prog A :=
  wait await_lock in
  await len := length in
  each_from cb 0 (Z.to_nat len) acc.

(** *** The engine's side of a request *)

Section Instance.

(** [this.db] *)
Variable db : Engine.Handle.

Definition apply_batch_op (st : gmap string Val) (op : BatchOp)
  : gmap string Val :=
  match op with
  | BPut k v => Engine.put db k v st
  | BDel k => Engine.del db k st
  end.

(** The result the engine hands back and the store it leaves. *)
Definition perform (rq : Request) (st : gmap string Val)
  : option Val * gmap string Val :=
  match rq with
  | RGet k => (Engine.get db k st, st)
  | RPut k v => (None, Engine.put db k v st)
  | RBatch ops => (None, foldl apply_batch_op st ops)
  | RClear => (None, Engine.clear db st)
  end.

(** *** Calls that are awaited one after the other *)

(** [this.lock] between two calls: never assigned, a promise that has
    resolved, or a promise that nothing will ever settle. *)
Inductive Lock : Type :=
  | LUndefined
  | LResolved (v : Val)
  | LForever.

Record Coll : Type := mkColl {
  store : gmap string Val;
  lock : Lock;
  totalObservers : list (list Val)
}.

(** One call, issued when no other call is under way, run until its
    promise settles, or found to never settle. Requests reach the
    engine in the order they are issued, so a request that is not
    awaited is applied before any later one. The code that follows
    [this.lock = new Promise(...)] is [return this.lock] in the two
    methods that install a lock, so it runs on the outcome of the
    executor: a lock resolved with the executor's value, or a lock that
    stays pending when the executor threw. The event loop below runs the
    same bodies without this assumption. *)
Fixpoint exec {R : Type} (p : Prog R) (c : Coll) : Outcome R * Coll :=
  match p with
  | Ret r => (Resolved r, c)
  | Throw e => (Rejected e, c)
  | AwaitLock k =>
      match lock c with
      | LUndefined => exec (k VUndef) c
      | LResolved v => exec (k v) c
      | LForever => (Pending, c)
      end
  | Db rq k =>
      let '(r, st) := perform rq (store c) in
      exec (k r) (mkColl st (lock c) (totalObservers c))
  | DbNoWait rq k =>
      let '(_, st) := perform rq (store c) in
      exec k (mkColl st (lock c) (totalObservers c))
  | Observers f k =>
      exec k (mkColl (store c) (lock c) (f <$> totalObservers c))
  | NewLock executor k =>
      let '(o, c1) := exec executor c in
      let l :=
        match o with
        | Resolved v => LResolved v
        | _ => LForever
        end in
      exec k (mkColl (store c1) l (totalObservers c1))
  end.

(** The collection right after [createOrderedCollection]. *)
Definition fresh (st : gmap string Val) : Coll := mkColl st LUndefined [].

(** The partition holds the elements [xs]: the metadata record is
    their number and slot [i] holds element [i]. *)
Definition holds (c : Coll) (xs : list Val) : Prop :=
  Engine.get db META_KEY (store c) = Some (VNum (Z.of_nat (List.length xs)))
  ∧ ∀ (i : nat) x, xs !! i = Some x →
      Engine.get db (slot (Z.of_nat i)) (store c) = Some x.

(** The lock lets a call through. *)
Definition unlocked (c : Coll) : Prop := lock c ≠ LForever.

(** [observeEntireCollection(cancellationToken)], awaited: the new
    [ArrayDataSource] starts from [toArray()] and is pushed on
    [totalObservers]; the call resolves with it, named by its place in
    that list. The cancelable is left out. *)
Definition observeEntireCollection (c : Coll) : Outcome nat * Coll :=
  match exec (wait await_lock in toArray) c with
  | (Resolved items, c') =>
      (Resolved (List.length (totalObservers c')),
       mkColl (store c') (lock c') (totalObservers c' ++ [items]))
  | (Rejected e, c') => (Rejected e, c')
  | (Pending, c') => (Pending, c')
  end.







(** *** Calls that are issued without awaiting: the event loop *)

(** What the promise of a public call resolves with. *)
Inductive Answer : Type :=
  | AVal (v : Val)
  | ANum (n : Z)
  | AList (l : list Val)
  | AUnit.

(** A computation that is suspended or ready to run: the rest of the
    public call whose promise is number [id], or the rest of the
    executor of the lock promise number [p]. *)
Inductive Thread : Type :=
  | TCall (id : nat) (code : Prog Answer)
  | TExec (p : nat) (code : Prog Val).

(** A lock promise: pending, with the computations that await it in the
    order they started to, or resolved. *)
Inductive PromiseState : Type :=
  | PPending (waiters : list (Val → Thread))
  | PResolved (v : Val).

(** A request the engine has not completed yet, and the computation that
    awaits its result, if one does. *)
Record Pend : Type := mkPend {
  request : Request;
  resume : option (option Val → Thread)
}.

(** The process: the store, the fields of the collection object, the lock
    promises created so far, the queue of microtasks, the requests in
    flight in the order they were issued, and the public calls whose
    promise has settled. *)
Record Loop : Type := mkLoop {
  l_store : gmap string Val;
  l_observers : list (list Val);
  l_lock : option nat;
  l_promises : list PromiseState;
  l_micro : list Thread;
  l_inflight : list Pend;
  l_settled : list (nat * Outcome Answer)
}.

Definition start (st : gmap string Val) : Loop :=
  mkLoop st [] None [] [] [] [].

Definition enqueue (t : Thread) (l : Loop) : Loop :=
  mkLoop (l_store l) (l_observers l) (l_lock l) (l_promises l)
         (l_micro l ++ [t]) (l_inflight l) (l_settled l).

Definition issue (pd : Pend) (l : Loop) : Loop :=
  mkLoop (l_store l) (l_observers l) (l_lock l) (l_promises l)
         (l_micro l) (l_inflight l ++ [pd]) (l_settled l).

Definition with_promises (ps : list PromiseState) (l : Loop) : Loop :=
  mkLoop (l_store l) (l_observers l) (l_lock l) ps
         (l_micro l) (l_inflight l) (l_settled l).

(** The promise of the public call [id] settles. *)
Definition settle (id : nat) (o : Outcome Answer) (l : Loop) : Loop :=
  mkLoop (l_store l) (l_observers l) (l_lock l) (l_promises l)
         (l_micro l) (l_inflight l) (l_settled l ++ [(id, o)]).

(** The executor of lock promise [p] ends. With a value, that was its
    [resolve(v)]: the promise resolves and the computations that await it
    become microtasks, in order. With an error, the rejection of the
    [async] executor is handled by nobody and the promise stays pending. *)
Definition resolve_lock (p : nat) (o : Outcome Val) (l : Loop) : Loop :=
  match o with
  | Resolved v =>
      match l_promises l !! p with
      | Some (PPending waiters) =>
          mkLoop (l_store l) (l_observers l) (l_lock l)
                 (<[p:=PResolved v]> (l_promises l))
                 (l_micro l ++ ((λ w, w v) <$> waiters))
                 (l_inflight l) (l_settled l)
      | _ => l
      end
  | _ => l
  end.

(** A computation runs until it suspends or ends. [wrap] says whose
    computation it is and [finish] what its end means.
    - [await this.lock] on [undefined] or on a resolved promise makes the
      rest a microtask; on a pending promise the rest awaits it;
    - a request goes to the engine and the rest awaits its completion;
    - [this.lock = new Promise(executor)] runs the executor up to its
      first suspension before the assignment takes place. *)
Fixpoint drive {R : Type} (wrap : Prog R → Thread)
    (finish : Outcome R → Loop → Loop) (p : Prog R) (l : Loop) : Loop :=
  match p with
  | Ret r => finish (Resolved r) l
  | Throw e => finish (Rejected e) l
  | AwaitLock k =>
      match l_lock l with
      | None => enqueue (wrap (k VUndef)) l
      | Some p =>
          match l_promises l !! p with
          | Some (PResolved v) => enqueue (wrap (k v)) l
          | Some (PPending waiters) =>
              with_promises
                (<[p:=PPending (waiters ++ [λ v, wrap (k v)])]> (l_promises l)) l
          | None => l
          end
      end
  | Db rq k => issue (mkPend rq (Some (λ r, wrap (k r)))) l
  | DbNoWait rq k => drive wrap finish k (issue (mkPend rq None) l)
  | Observers f k =>
      drive wrap finish k
        (mkLoop (l_store l) (f <$> l_observers l) (l_lock l) (l_promises l)
                (l_micro l) (l_inflight l) (l_settled l))
  | NewLock executor k =>
      let p := List.length (l_promises l) in
      let l1 := with_promises (l_promises l ++ [PPending []]) l in
      let l2 := drive (TExec p) (resolve_lock p) executor l1 in
      drive wrap finish k
        (mkLoop (l_store l2) (l_observers l2) (Some p) (l_promises l2)
                (l_micro l2) (l_inflight l2) (l_settled l2))
  end.

Definition run_thread (t : Thread) (l : Loop) : Loop :=
  match t with
  | TCall id code => drive (TCall id) (settle id) code l
  | TExec p code => drive (TExec p) (resolve_lock p) code l
  end.

(** The caller invokes a method and does not await the promise: the
    method runs up to its first suspension. *)
Definition call (id : nat) (code : Prog Answer) (l : Loop) : Loop :=
  run_thread (TCall id code) l.

(** The microtasks run, oldest first, until none is left. *)
Fixpoint drain (ticks : nat) (l : Loop) : Loop :=
  match ticks, l_micro l with
  | S ticks', t :: rest =>
      drain ticks'
        (run_thread t
           (mkLoop (l_store l) (l_observers l) (l_lock l) (l_promises l)
                   rest (l_inflight l) (l_settled l)))
  | _, _ => l
  end.

(** The request number [n] of a queue, the last one when [n] is too
    large, and the queue without it. *)
Fixpoint pick {A : Type} (n : nat) (q : list A) {struct q}
  : option (A * list A) :=
  match q with
  | [] => None
  | x :: q' =>
      match q' with
      | [] => Some (x, [])
      | _ :: _ =>
          match n with
          | O => Some (x, q')
          | S n' => (λ yr, (yr.1, x :: yr.2)) <$> pick n' q'
          end
      end
  end.

(** The engine completes a request: the store changes and the
    computation that awaits the result becomes a microtask. *)
Definition complete (pd : Pend) (rest : list Pend) (l : Loop) : Loop :=
  let '(r, st) := perform (request pd) (l_store l) in
  mkLoop st (l_observers l) (l_lock l) (l_promises l)
         (match resume pd with
          | Some k => l_micro l ++ [k r]
          | None => l_micro l
          end)
         rest (l_settled l).

(** The event loop: all microtasks, then one completion of the engine,
    and again, for at most [turns] completions. [sched] says which of the
    requests in flight the engine completes at each turn; the engine that
    serves requests in the order of their issue is [λ _, 0]. *)
Fixpoint loop (turns ticks : nat) (sched : nat → nat) (l : Loop) : Loop :=
  let l1 := drain ticks l in
  match turns with
  | O => l1
  | S turns' =>
      match pick (sched turns') (l_inflight l1) with
      | None => l1
      | Some (pd, rest) => loop turns' ticks sched (complete pd rest l1)
      end
  end.

(** Every way to take one request out of a queue. *)
Fixpoint picks {A : Type} (q : list A) : list (A * list A) :=
  match q with
  | [] => []
  | x :: q' => (x, q') :: ((λ yr, (yr.1, x :: yr.2)) <$> picks q')
  end.

(** The states the event loop can end in, over all the orders in which
    the engine may complete the requests in flight. *)
Fixpoint loop_all (turns ticks : nat) (l : Loop) : list Loop :=
  let l1 := drain ticks l in
  match turns with
  | O => [l1]
  | S turns' =>
      match l_inflight l1 with
      | [] => [l1]
      | _ :: _ =>
          mjoin ((λ pr, loop_all turns' ticks (complete pr.1 pr.2 l1))
                 <$> picks (l_inflight l1))
      end
  end.

(** Nothing is left to run. *)
Definition quiescent (l : Loop) : Prop :=
  l_micro l = [] ∧ l_inflight l = [].

Definition idle (l : Loop) : bool :=
  match l_micro l, l_inflight l with
  | [], [] => true
  | _, _ => false
  end.

(** The engine that serves requests in the order of their issue. *)
Definition fifo : nat → nat := λ _, 0%nat.

(** The public methods as calls whose promise the loop records. *)
Definition answer {R : Type} (f : R → Answer) (p : Prog R) : Prog Answer :=
  bind p (λ r, Ret (f r)).

(** *** The two readings of a call *)

(** [this.lock] as a call finds it in a loop at rest: a pending promise
    has nobody left to resolve it. *)
Definition lock_of (l : Loop) : Lock :=
  match l_lock l with
  | None => LUndefined
  | Some p =>
      match l_promises l !! p with
      | Some (PResolved v) => LResolved v
      | _ => LForever
      end
  end.

(** The collection a loop at rest stands for. *)
Definition coll_of (l : Loop) : Coll :=
  mkColl (l_store l) (lock_of l) (l_observers l).

(** The loop with the store and the observers of a collection. *)
Definition with_coll (c : Coll) (l : Loop) : Loop :=
  mkLoop (store c) (totalObservers c) (l_lock l) (l_promises l)
         (l_micro l) (l_inflight l) (l_settled l).

(** What the loop records when the promise of call [id] ends as [o]. *)
Definition report (id : nat) (o : Outcome Answer)
  : list (nat * Outcome Answer) :=
  match o with
  | Resolved r => [(id, Resolved r)]
  | Rejected e => [(id, Rejected e)]
  | Pending => []
  end.

(** The part of [loop] that follows the microtasks: one completion of
    the engine, and the loop again. *)
Definition engine_turn (turns ticks : nat) (sched : nat → nat) (l1 : Loop)
  : Loop :=
  match turns with
  | O => l1
  | S turns' =>
      match pick (sched turns') (l_inflight l1) with
      | None => l1
      | Some (pd, rest) => loop turns' ticks sched (complete pd rest l1)
      end
  end.

(** From [l], in the middle of its microtasks, the loop ends in [l'],
    whatever the engine's choices, as soon as it is given enough turns
    and ticks. *)
Definition runs_to (l l' : Loop) : Prop :=
  ∃ n : nat, ∀ (turns ticks k : nat) (sched : nat → nat),
    (n ≤ turns)%nat → (n ≤ ticks)%nat → (n ≤ k)%nat →
    engine_turn turns ticks sched (drain k l) = l'.

(** The event loop started in [l] ends in [l'], whatever the engine's
    choices, as soon as it is given enough turns and ticks. *)
Definition reaches (l l' : Loop) : Prop :=
  ∃ n : nat, ∀ (turns ticks : nat) (sched : nat → nat),
    (n ≤ turns)%nat → (n ≤ ticks)%nat → loop turns ticks sched l = l'.

(** The public methods that read and write the elements. *)
Inductive Method : Type :=
  | MLength
  | MGet (index : Z)
  | MSet (index : Z) (item : Val)
  | MPush (items : list Val)
  | MSlice (startIndex endIndex : Z)
  | MPop
  | MClear
  | MToArray.

(** The body of a method, as a call whose promise the loop records. *)
Definition body (m : Method) : Prog Answer :=
  match m with
  | MLength => answer ANum length
  | MGet index => answer AVal (get index)
  | MSet index item => answer (λ _, AUnit) (set index item)
  | MPush items => answer AVal (push items)
  | MSlice startIndex endIndex => answer AList (slice startIndex endIndex)
  | MPop => answer AVal pop
  | MClear => answer (λ _, AUnit) clear
  | MToArray => answer AList toArray
  end.

(** Calls issued one after the other, none awaited; each comes with
    the number of its promise. *)
Fixpoint issue_calls (calls : list (nat * Prog Answer)) (l : Loop) : Loop :=
  match calls with
  | [] => l
  | (id, p) :: rest => issue_calls rest (call id p l)
  end.

(** The same calls, each awaited before the next is issued: what is
    recorded of their promises, and the collection they leave. *)
Fixpoint exec_calls (calls : list (nat * Prog Answer)) (c : Coll)
  : list (nat * Outcome Answer) * Coll :=
  match calls with
  | [] => ([], c)
  | (id, p) :: rest =>
      let '(o, c1) := exec p c in
      let '(rs, c2) := exec_calls rest c1 in
      (report id o ++ rs, c2)
  end.

(** The methods that install a lock. *)
Definition installs_lock (m : Method) : Prop :=
  match m with
  | MPush _ | MPop => True
  | _ => False
  end.

(** A call of the shape of [push] and [pop]: the number of its promise,
    the executor after its [await this.lock], and what the call makes of
    the value of its lock. *)
Definition Link : Type := nat * (Val → Prog Val) * (Val → Answer).

(** The call from [this.lock = new Promise(...)] on. *)
Definition link_code (x : Link) : Prog Answer :=
  NewLock (AwaitLock x.1.2) (AwaitLock (λ v, Ret (x.2 v))).

(** The whole call. *)
Definition link_call (x : Link) : Prog Answer :=
  AwaitLock (λ _, link_code x).

(** The lock promises of calls that wait for each other: on the promise
    of each wait its own call and the executor of the next one. [q] is
    the number of the first promise. *)
Fixpoint chain (q : nat) (xs : list Link) : list PromiseState :=
  match xs with
  | [] => []
  | x :: rest =>
      PPending
        ((λ v, TCall x.1.1 (Ret (x.2 v)))
         :: match rest with
            | y :: _ => [λ v, TExec (S q) (y.1.2 v)]
            | [] => []
            end)
      :: chain (S q) rest
  end.

(** The microtask of a call of the chain that has passed its first
    [await this.lock]. *)
Definition link_thread (x : Link) : Thread := TCall x.1.1 (link_code x).

(** The calls of a chain with the numbers of their promises. *)
Definition link_calls (xs : list Link) : list (nat * Prog Answer) :=
  (λ x, (x.1.1, link_call x)) <$> xs.

(** The loop while calls issued together install their locks, starting
    from the loop [l0] at rest: the calls [done] have, the calls [todo]
    have not yet, and the executor of the first call, which found the old
    lock resolved with [v0], is the microtask behind them. *)
Definition installing (l0 : Loop) (v0 : Val) (first : Link)
    (done todo : list Link) : Loop :=
  mkLoop (l_store l0) (l_observers l0)
         (Some (List.length (l_promises l0) + List.length done - 1)%nat)
         (l_promises l0 ++ chain (List.length (l_promises l0)) done)
         ((link_thread <$> todo)
          ++ [TExec (List.length (l_promises l0)) (first.1.2 v0)])
         [] (l_settled l0).

(** The loop while the executors of a chain run one after the other:
    [pre] are the promises created before, [x] is the call whose executor
    is the only microtask, to run on [v], and [xs] are the calls that
    wait behind it. *)
Definition executing (st : gmap string Val) (obs : list (list Val))
    (pre : list PromiseState) (x : Link) (xs : list Link) (v : Val)
    (settled : list (nat * Outcome Answer)) : Loop :=
  mkLoop st obs
         (Some (List.length pre + List.length (x :: xs) - 1)%nat)
         (pre ++ chain (List.length pre) (x :: xs))
         [TExec (List.length pre) (x.1.2 v)] [] settled.

(** The lock is a promise that has resolved with [v], or was never
    assigned and [v] is [undefined]. *)
Definition usable (l : Loop) (v : Val) : Prop :=
  (l_lock l = None ∧ v = VUndef)
  ∨ (∃ q, l_lock l = Some q ∧ l_promises l !! q = Some (PResolved v)).

End Instance.

(** Bodies that only talk to the engine and to the observers, every
    request awaited. *)
Inductive LockFree {R : Type} : Prog R → Prop :=
  | LockFree_Ret r : LockFree (Ret r)
  | LockFree_Throw e : LockFree (Throw e)
  | LockFree_Db rq k : (∀ r, LockFree (k r)) → LockFree (Db rq k)
  | LockFree_Observers f k : LockFree k → LockFree (Observers f k).

(** Bodies that await the lock but install none, every request
    awaited. *)
Inductive Awaited {R : Type} : Prog R → Prop :=
  | Awaited_Ret r : Awaited (Ret r)
  | Awaited_Throw e : Awaited (Throw e)
  | Awaited_AwaitLock k : (∀ v, Awaited (k v)) → Awaited (AwaitLock k)
  | Awaited_Db rq k : (∀ r, Awaited (k r)) → Awaited (Db rq k)
  | Awaited_Observers f k : Awaited k → Awaited (Observers f k).

(** Bodies that await the lock but install none, and whose only request
    that is not awaited is their last act: [length], [get], [set],
    [slice], [toArray] and [clear]. *)
Inductive Plain {R : Type} : Prog R → Prop :=
  | Plain_Ret r : Plain (Ret r)
  | Plain_Throw e : Plain (Throw e)
  | Plain_AwaitLock k : (∀ v, Plain (k v)) → Plain (AwaitLock k)
  | Plain_Db rq k : (∀ r, Plain (k r)) → Plain (Db rq k)
  | Plain_Observers f k : Plain k → Plain (Observers f k)
  | Plain_NoWait rq r : Plain (DbNoWait rq (Ret r)).

(** Bodies of the shape of [push] and [pop]: await the lock, install a
    new one whose executor awaits the old lock once and then only talks
    to the engine and the observers, and await the new lock. *)
Inductive Locking {R : Type} : Prog R → Prop :=
  | Locking_intro (rest : Val → Prog Val) (ret : Val → R) :
      (∀ v, LockFree (rest v)) →
      Locking (AwaitLock (λ _,
                 NewLock (AwaitLock rest) (AwaitLock (λ v, Ret (ret v))))).

End Ordered.

(** ** Cursor wrapper: class [AurumDBIterator] of [src/iterator.ts] *)

Module Iterator.

(** Modelled from the spec: the engine's cursor (spec, sections 4.5 and
    6), seen from the wrapper. What its [next] hands to the callback: an
    error, a key with its value, or nothing, which is the end of the
    range. *)
Inductive Reply : Type :=
  | RError (e : Error)
  | REntry (key : string) (value : Val)
  | REnd.

(** Modelled from the spec: the state of the engine's cursor. [replies]
    is what it will hand to the coming calls of [next], [end_error] the
    error its [end] reports, if any, and [ends] counts the calls of its
    [end]. *)
Record Cursor : Type := mkCursor {
  replies : list Reply;
  end_error : option Error;
  ends : nat
}.

(** The fields of the wrapper: [this.iterator] and [this.current]. *)
Record State : Type := mkState {
  iterator : Cursor;
  current : option (string * Val)
}.

(** [end()]: [this.current] is reset and the cursor is told to end; the
    promise follows the cursor's answer. *)
Definition end_ (s : State) : Outcome unit * State :=
  let it := iterator s in
  (match end_error it with
   | Some e => Rejected e
   | None => Resolved tt
   end,
   mkState (mkCursor (replies it) (end_error it) (S (ends it))) None).

(** [next()]. With an error the wrapper ends the cursor and rejects.
    Without a key ([!key]: [undefined], or the empty string) it ends
    the cursor, resets [this.current] and resolves with [undefined].
    With a key it stores the pair in [this.current] and resolves with
    it. When the cursor never calls back the promise stays pending. *)
Definition next (s : State) : Outcome (option (string * Val)) * State :=
  let it := iterator s in
  match replies it with
  | [] => (Pending, s)
  | r :: rest =>
      let s1 := mkState (mkCursor rest (end_error it) (ends it)) (current s) in
      match r with
      | RError e => (Rejected e, (end_ s1).2)
      | REnd => (Resolved None, (end_ s1).2)
      | REntry key value =>
          if decide (key = "")
          then (Resolved None, (end_ s1).2)
          else (Resolved (Some (key, value)),
                mkState (iterator s1) (Some (key, value)))
      end
  end.

(** [n] calls of [next], each awaited before the following one: their
    outcomes in order, and the state they leave. *)
Fixpoint nexts (n : nat) (s : State)
  : list (Outcome (option (string * Val))) * State :=
  match n with
  | O => ([], s)
  | S n' =>
      let '(o, s1) := next s in
      let '(os, s2) := nexts n' s1 in
      (o :: os, s2)
  end.

(** The reply makes [next] leave the iteration: an error, the end of
    the range, or a key that is the empty string. *)
Definition leaves (r : Reply) : Prop :=
  match r with
  | RError _ | REnd => True
  | REntry key _ => key = ""
  end.

(** The outcome of the call of [next] that receives a reply which
    leaves the iteration. *)
Definition exit_outcome (r : Reply) : Outcome (option (string * Val)) :=
  match r with
  | RError e => Rejected e
  | _ => Resolved None
  end.

End Iterator.
(** ** Facts about keys *)

Lemma string_app_assoc (a b c : string) : (a +:+ b) +:+ c = a +:+ (b +:+ c).
Proof.
  induction a as [|x a IH]; [done|].
  change (String x ((a +:+ b) +:+ c) = String x (a +:+ (b +:+ c))).
  by rewrite IH.
Qed.

Lemma prefix_app (h k : string) : String.prefix h (h +:+ k) = true.
Proof.
  induction h as [|c h IH]; [by destruct k|].
  change (String.prefix (String c h) (String c (h +:+ k)) = true).
  simpl. destruct (Ascii.ascii_dec c c); [done|congruence].
Qed.

(** The metadata key of a partition, seen from the parent handle and from
    the partition's own handle, is the same physical key. *)
Lemma meta_key_of_sub (db : Engine.Handle) (name : string) :
  db +:+ makeSubDbId name META_KEY = Engine.sub db name +:+ META_KEY.
Proof.
  unfold makeSubDbId, Engine.sub. by rewrite !string_app_assoc.
Qed.

Lemma suffix_inj (k1 k2 : Kind) (name : string) :
  makeSubDbId (name +:+ suffix k1) META_KEY
  = makeSubDbId (name +:+ suffix k2) META_KEY → k1 = k2.
Proof.
  unfold makeSubDbId. intros H.
  apply (inj (String.app "!")) in H.
  rewrite !string_app_assoc in H.
  apply (inj (String.app name)) in H.
  by destruct k1, k2.
Qed.

Lemma hasKind_unfold (k : Kind) db name st :
  AurumDB.hasKind k db name st
  = AurumDB.has db (makeSubDbId (name +:+ suffix k) META_KEY) st.
Proof. by destruct k. Qed.

Lemma create_store (k : Kind) db name now st h st' :
  AurumDB.create k db name now st = inr (h, st') →
  ∃ v, st' = Engine.put db (makeSubDbId (name +:+ suffix k) META_KEY) v st
       ∧ h = Engine.sub db (name +:+ suffix k).
Proof.
  destruct k; simpl;
    unfold AurumDB.createIndex, AurumDB.createOrderedCollection,
           AurumDB.createLinkedCollection;
    case_match; intros [= <- <-]; eauto.
Qed.

(** ** Existence checks *)

(** Creating a collection of one kind leaves the existence of the other
    kinds under the same name as it was. *)
Lemma create_frame (k k' : Kind) db name now st h st' :
  AurumDB.create k db name now st = inr (h, st') →
  k' ≠ k →
  AurumDB.hasKind k' db name st' = AurumDB.hasKind k' db name st.
Proof.
  intros (v & -> & _)%create_store Hne.
  rewrite !hasKind_unfold. unfold AurumDB.has, Engine.get, Engine.put.
  rewrite lookup_insert_ne; [done|].
  intros Heq. apply (inj (String.app db)) in Heq.
  apply suffix_inj in Heq. congruence.
Qed.

(** C8. On a store in which no collection of another kind carries the
    name, creating a collection of kind [k] under that name succeeds
    exactly when kind [k] is free, and afterwards the existence check of
    kind [k] answers true and those of the two other kinds answer false. *)
Theorem existence_exclusive (k : Kind) (db : Engine.Handle)
    (name now : string) (st : gmap string Val) :
  (∀ k', k' ≠ k → AurumDB.hasKind k' db name st = false) →
  AurumDB.hasKind k db name st = false →
  ∃ h st',
    AurumDB.create k db name now st = inr (h, st')
    ∧ AurumDB.hasKind k db name st' = true
    ∧ ∀ k', k' ≠ k → AurumDB.hasKind k' db name st' = false.
Proof.
  intros Hothers Hfree.
  assert (∃ h st', AurumDB.create k db name now st = inr (h, st'))
    as (h & st' & Hc).
  { destruct k; simpl in *;
      unfold AurumDB.createIndex, AurumDB.createOrderedCollection,
             AurumDB.createLinkedCollection;
      rewrite Hfree; eauto. }
  exists h, st'. split; [done|]. split.
  - destruct (create_store _ _ _ _ _ _ _ Hc) as (v & -> & _).
    rewrite hasKind_unfold. unfold AurumDB.has, Engine.get, Engine.put.
    by rewrite lookup_insert_eq.
  - intros k' Hne. rewrite (create_frame _ _ _ _ _ _ _ _ Hc Hne). auto.
Qed.

Lemma existence_exclusive_witness :
  ∃ h st',
    AurumDB.create KIndex Engine.root "test" "2020-01-01T00:00:00.000Z" ∅
      = inr (h, st')
    ∧ AurumDB.hasKind KIndex Engine.root "test" st' = true
    ∧ ∀ k', k' ≠ KIndex → AurumDB.hasKind k' Engine.root "test" st' = false.
Proof.
  apply (existence_exclusive KIndex Engine.root "test"
           "2020-01-01T00:00:00.000Z" ∅).
  - intros k' _. rewrite hasKind_unfold. reflexivity.
  - reflexivity.
Defined.


(** ** Index: the store under the operations *)

Section IndexStore.

Variable db : Engine.Handle.
Variable config : Config.

Lemma store_onKeyChange k v s :
  Index.store (Index.onKeyChange k v s) = Index.store s.
Proof. done. Qed.

Lemma store_onClear s : Index.store (Index.onClear s) = Index.store s.
Proof. done. Qed.

Lemma store_handle e s : Index.store (Index.handle e s) = Index.store s.
Proof.
  destruct e as [k v|k|ops|]; simpl; try done.
  revert s. induction ops as [|op ops IH]; intros s; simpl; [done|].
  rewrite IH. by destruct op.
Qed.

Lemma store_set key value s :
  Index.store (Index.set db config key value s)
  = if autoDeleteOnSetUndefined config && Index.is_nullish value
    then Engine.del db key (Index.store s)
    else Engine.put db key value (Index.store s).
Proof.
  unfold Index.set, Index.db_del, Index.db_put.
  destruct (_ && _); by rewrite store_handle.
Qed.

Lemma store_db_clear s :
  Index.store (Index.db_clear db s) = Engine.clear db (Index.store s).
Proof. unfold Index.db_clear. by rewrite store_handle. Qed.

(** A write to a key other than the metadata key leaves the metadata
    record alone. *)
Lemma set_other_keeps key value k s :
  key ≠ k →
  Engine.get db k (Index.store (Index.set db config key value s))
  = Engine.get db k (Index.store s).
Proof.
  intros Hne. rewrite store_set.
  assert (db +:+ key ≠ db +:+ k) by (intros ?%(inj (String.app db)); done).
  unfold Engine.get, Engine.del, Engine.put.
  destruct (_ && _);
    [by rewrite lookup_delete_ne|by rewrite lookup_insert_ne].
Qed.

Lemma sets_keep_meta (sets : list (string * Val)) s :
  Forall (λ kv, kv.1 ≠ META_KEY) sets →
  Engine.get db META_KEY
    (Index.store (foldl (λ s kv, Index.set db config kv.1 kv.2 s) s sets))
  = Engine.get db META_KEY (Index.store s).
Proof.
  intros Hall. revert s.
  induction Hall as [|[k v] sets Hk _ IH]; intros s; simpl; [done|].
  rewrite IH. by apply set_other_keeps.
Qed.

Lemma engine_clear_get k st : Engine.get db k (Engine.clear db st) = None.
Proof.
  unfold Engine.get, Engine.clear.
  apply map_lookup_filter_None. right. intros x _. simpl.
  by rewrite prefix_app.
Qed.

(** What [clear] leaves in the partition: the metadata record, with the
    value it had, and nothing else. *)
Lemma clear_partition s val :
  Engine.get db META_KEY (Index.store s) = Some val →
  autoDeleteOnSetUndefined config && Index.is_nullish val = false →
  ∃ s',
    Index.clear db config s = (Resolved tt, s')
    ∧ Engine.get db META_KEY (Index.store s') = Some val
    ∧ ∀ k, k ≠ META_KEY → Engine.get db k (Index.store s') = None.
Proof.
  intros Hmeta Hval. unfold Index.clear, Index.get. rewrite Hmeta.
  eexists; split; [done|].
  rewrite store_set, Hval, store_db_clear. split.
  - unfold Engine.get, Engine.put. by rewrite lookup_insert_eq.
  - intros k Hk. unfold Engine.get at 1. unfold Engine.put.
    rewrite lookup_insert_ne.
    + apply engine_clear_get.
    + intros ?%(inj (String.app db)). done.
Qed.

End IndexStore.

(** C5. After [createIndex(name)], any number of [set] calls on keys
    other than the reserved metadata key, and [clear()], the clear
    succeeds, [hasIndex(name)] is still true, the metadata record holds
    the value it was created with, and [get] fails with NotFound on every
    other key of the index, the keys set before included. *)
Theorem clear_preserves_existence (db : Engine.Handle) (config : Config)
    (name now : string) (st : gmap string Val) (sets : list (string * Val)) :
  AurumDB.hasIndex db name st = false →
  Forall (λ kv, kv.1 ≠ META_KEY) sets →
  ∃ h st1 s2,
    AurumDB.createIndex db name now st = inr (h, st1)
    ∧ Index.clear h config
        (foldl (λ s kv, Index.set h config kv.1 kv.2 s) (Index.init st1) sets)
      = (Resolved tt, s2)
    ∧ AurumDB.hasIndex db name (Index.store s2) = true
    ∧ Index.get h META_KEY s2 = Resolved (VStr now)
    ∧ ∀ k, k ≠ META_KEY → Index.get h k s2 = Rejected NotFound.
Proof.
  intros Hfree Hsets.
  unfold AurumDB.createIndex. rewrite Hfree.
  set (h := Engine.sub db (name +:+ "index")).
  set (st1 := Engine.put db _ _ st).
  exists h, st1.
  assert (Engine.get h META_KEY st1 = Some (VStr now)) as Hmeta.
  { unfold Engine.get, st1, Engine.put, h.
    rewrite <-meta_key_of_sub. by rewrite lookup_insert_eq. }
  destruct (clear_partition h config
              (foldl (λ s kv, Index.set h config kv.1 kv.2 s)
                     (Index.init st1) sets) (VStr now))
    as (s2 & Hclear & Hm & Hrest).
  { by rewrite sets_keep_meta. }
  { simpl. apply andb_false_r. }
  exists s2. split; [done|]. split; [done|]. split; [|split].
  - unfold AurumDB.hasIndex, AurumDB.has, Engine.get.
    rewrite meta_key_of_sub. fold h. unfold Engine.get in Hm. by rewrite Hm.
  - unfold Index.get. by rewrite Hm.
  - intros k Hk. unfold Index.get. by rewrite Hrest.
Qed.

Lemma clear_preserves_existence_witness :
  ∃ h st1 s2,
    AurumDB.createIndex Engine.root "t" "2020-01-01T00:00:00.000Z" ∅
      = inr (h, st1)
    ∧ Index.clear h {| autoDeleteOnSetUndefined := false |}
        (foldl (λ s kv, Index.set h {| autoDeleteOnSetUndefined := false |}
                          kv.1 kv.2 s)
               (Index.init st1) [("hello", VStr "world")])
      = (Resolved tt, s2)
    ∧ AurumDB.hasIndex Engine.root "t" (Index.store s2) = true
    ∧ Index.get h META_KEY s2 = Resolved (VStr "2020-01-01T00:00:00.000Z")
    ∧ ∀ k, k ≠ META_KEY → Index.get h k s2 = Rejected NotFound.
Proof.
  apply (clear_preserves_existence Engine.root
           {| autoDeleteOnSetUndefined := false |} "t"
           "2020-01-01T00:00:00.000Z" ∅ [("hello", VStr "world")]).
  - reflexivity.
  - repeat constructor; simpl; discriminate.
Defined.

(** ** Index: observers *)

Lemma indexOf_None (x : nat) (l : list nat) : x ∉ l → indexOf x l = None.
Proof.
  induction l as [|y l IH]; simpl; [done|].
  intros Hx%not_elem_of_cons. destruct Hx as [Hne Hx].
  rewrite decide_False by done. by rewrite IH.
Qed.

Lemma indexOf_Some (x : nat) (l : list nat) :
  x ∈ l → ∃ i, indexOf x l = Some i ∧ l !! i = Some x.
Proof.
  induction l as [|y l IH]; simpl; [by intros ?%elem_of_nil|].
  intros Hx. case_decide as Hy; [subst; by exists 0%nat|].
  apply elem_of_cons in Hx as [->|Hx]; [done|].
  destruct (IH Hx) as (i & -> & Hi). by exists (S i).
Qed.

Lemma splice1_removes (x : nat) (i : nat) (l : list nat) :
  NoDup l → l !! i = Some x → x ∉ splice1 i l.
Proof.
  intros Hnd Hi. unfold splice1. rewrite delete_take_drop.
  rewrite <-(take_drop_middle l i x Hi) in Hnd.
  apply NoDup_app in Hnd as (_ & Hdisj & Hnd).
  apply NoDup_cons in Hnd as [Hx _].
  intros [Hin|Hin]%elem_of_app; [|done].
  apply (Hdisj x Hin). by left.
Qed.

Lemma update_all_notin {A} (f : A → A) (ids : list nat) (heap : gmap nat A) id :
  id ∉ ids → Index.update_all f ids heap !! id = heap !! id.
Proof.
  unfold Index.update_all. revert heap.
  induction ids as [|x ids IH]; intros heap Hid; simpl; [done|].
  apply not_elem_of_cons in Hid as [Hne Hid].
  rewrite IH by done. by apply lookup_alter_ne.
Qed.

Lemma update_all_in {A} (f : A → A) (ids : list nat) (heap : gmap nat A) id :
  NoDup ids → id ∈ ids → Index.update_all f ids heap !! id = f <$> heap !! id.
Proof.
  unfold Index.update_all. revert heap.
  induction ids as [|x ids IH]; intros heap Hnd Hid; simpl;
    [by apply elem_of_nil in Hid|].
  apply NoDup_cons in Hnd as [Hx Hnd].
  destruct (decide (x = id)) as [->|Hne].
  - fold (Index.update_all f ids (alter f id heap)).
    rewrite update_all_notin by done. apply lookup_alter_eq.
  - apply elem_of_cons in Hid as [->|Hid]; [done|].
    rewrite IH by done. by rewrite lookup_alter_ne.
Qed.

Section IndexObservers.

Variable db : Engine.Handle.
Variable config : Config.

(** Events and mutations never touch the registries. *)
Lemma registries_handle e s :
  Index.registries (Index.handle e s) = Index.registries s.
Proof.
  destruct e as [k v|k|ops|]; simpl; try done.
  revert s. induction ops as [|op ops IH]; intros s; simpl; [done|].
  rewrite IH. by destruct op.
Qed.

Lemma registries_set key value s :
  Index.registries (Index.set db config key value s) = Index.registries s.
Proof.
  unfold Index.set, Index.db_del, Index.db_put.
  destruct (_ && _); by rewrite registries_handle.
Qed.

Lemma registries_mutation m s :
  Index.registries (Index.apply_mutation db config s m) = Index.registries s.
Proof.
  destruct m as [k v|k|]; simpl.
  - apply registries_set.
  - unfold Index.delete, Index.db_del. by rewrite registries_handle.
  - unfold Index.clear. destruct (Index.get _ _ _); simpl; try done.
    rewrite registries_set. unfold Index.db_clear.
    by rewrite registries_handle.
Qed.

Lemma registries_mutations ms s :
  Index.registries (Index.apply_mutations db config ms s)
  = Index.registries s.
Proof.
  unfold Index.apply_mutations. revert s.
  induction ms as [|m ms IH]; intros s; simpl; [done|].
  rewrite IH. apply registries_mutation.
Qed.

Lemma registries_with_store f s :
  Index.registries (Index.with_store f s) = Index.registries s.
Proof. done. Qed.

Lemma registries_eq s s' :
  Index.registries s = Index.registries s' →
  Index.totalObservers s = Index.totalObservers s'
  ∧ Index.keyObservers s = Index.keyObservers s'
  ∧ Index.nextId s = Index.nextId s'.
Proof. unfold Index.registries. by intros [= -> -> ->]. Qed.

(** An event leaves alone every [MapDataSource] that is not on
    [totalObservers]. *)
Lemma handle_unlisted e s id :
  id ∉ Index.totalObservers s →
  Index.mapSources (Index.handle e s) !! id = Index.mapSources s !! id.
Proof.
  destruct e as [k v|k|ops|]; simpl; intros Hid;
    try by apply update_all_notin.
  revert s Hid. induction ops as [|op ops IH]; intros s Hid; simpl; [done|].
  rewrite IH.
  - destruct op; simpl; by apply update_all_notin.
  - by destruct op.
Qed.

Lemma onKeyChange_unregistered k v s ds :
  ¬ Index.registered s ds →
  Index.dataSources (Index.onKeyChange k v s) !! ds
  = Index.dataSources s !! ds.
Proof.
  intros Hds. simpl. destruct (Index.keyObservers s !! k) as [dss|] eqn:Hk;
    [|done].
  apply update_all_notin. intros Hin. apply Hds. by exists k, dss.
Qed.

Lemma onClear_unregistered s ds :
  ¬ Index.registered s ds →
  Index.dataSources (Index.onClear s) !! ds = Index.dataSources s !! ds.
Proof.
  intros Hds. simpl.
  assert (∀ dss, dss ∈ (map_to_list (Index.keyObservers s)).*2 → ds ∉ dss)
    as Hall.
  { intros dss ([key dss'] & -> & Hin)%list_elem_of_fmap Hd.
    apply elem_of_map_to_list in Hin. apply Hds. by exists key, dss'. }
  revert Hall. generalize (Index.dataSources s).
  induction ((map_to_list (Index.keyObservers s)).*2) as [|dss L IH];
    intros heap Hall; simpl; [done|].
  rewrite IH.
  - apply update_all_notin, Hall. by left.
  - intros dss' Hin. apply Hall. by right.
Qed.

(** An event leaves alone every [DataSource] that is in no list of
    [keyObservers]. *)
Lemma handle_unregistered e s ds :
  ¬ Index.registered s ds →
  Index.dataSources (Index.handle e s) !! ds = Index.dataSources s !! ds.
Proof.
  destruct e as [k v|k|ops|]; simpl; intros Hds;
    [by apply onKeyChange_unregistered..| |by apply onClear_unregistered].
  revert s Hds. induction ops as [|op ops IH]; intros s Hds; simpl; [done|].
  rewrite IH.
  - destruct op; simpl;
      [by apply onKeyChange_unregistered..|by apply onClear_unregistered].
  - by destruct op.
Qed.

Lemma set_unlisted key value s id :
  id ∉ Index.totalObservers s →
  Index.mapSources (Index.set db config key value s) !! id
  = Index.mapSources s !! id.
Proof.
  intros Hid. unfold Index.set, Index.db_del, Index.db_put.
  destruct (_ && _); by rewrite handle_unlisted.
Qed.

Lemma set_unregistered key value s ds :
  ¬ Index.registered s ds →
  Index.dataSources (Index.set db config key value s) !! ds
  = Index.dataSources s !! ds.
Proof.
  intros Hds. unfold Index.set, Index.db_del, Index.db_put.
  destruct (_ && _); by rewrite handle_unregistered.
Qed.

(** A mutation leaves alone the observers that are not registered. *)
Lemma mutation_unlisted m s id :
  id ∉ Index.totalObservers s →
  Index.mapSources (Index.apply_mutation db config s m) !! id
  = Index.mapSources s !! id.
Proof.
  intros Hid. destruct m as [k v|k|]; unfold Index.apply_mutation.
  - by apply set_unlisted.
  - unfold Index.delete, Index.db_del. by rewrite handle_unlisted.
  - unfold Index.clear. destruct (Index.get _ _ _); simpl; try done.
    rewrite set_unlisted.
    + unfold Index.db_clear. by rewrite handle_unlisted.
    + unfold Index.db_clear.
      by destruct (registries_eq _ _
           (registries_handle Index.EClear
              (Index.with_store (Engine.clear db) s))) as (-> & _).
Qed.

Lemma mutation_unregistered m s ds :
  ¬ Index.registered s ds →
  Index.dataSources (Index.apply_mutation db config s m) !! ds
  = Index.dataSources s !! ds.
Proof.
  intros Hds. destruct m as [k v|k|]; unfold Index.apply_mutation.
  - by apply set_unregistered.
  - unfold Index.delete, Index.db_del. by rewrite handle_unregistered.
  - unfold Index.clear. destruct (Index.get _ _ _); simpl; try done.
    rewrite set_unregistered.
    + unfold Index.db_clear. by rewrite handle_unregistered.
    + unfold Index.db_clear, Index.registered.
      by destruct (registries_eq _ _
           (registries_handle Index.EClear
              (Index.with_store (Engine.clear db) s))) as (_ & -> & _).
Qed.

Lemma mutations_unlisted ms s id :
  id ∉ Index.totalObservers s →
  Index.mapSources (Index.apply_mutations db config ms s) !! id
  = Index.mapSources s !! id.
Proof.
  unfold Index.apply_mutations. revert s.
  induction ms as [|m ms IH]; intros s Hid; simpl; [done|].
  rewrite IH.
  - by apply mutation_unlisted.
  - by destruct (registries_eq _ _ (registries_mutation m s)) as (-> & _).
Qed.

Lemma mutations_unregistered ms s ds :
  ¬ Index.registered s ds →
  Index.dataSources (Index.apply_mutations db config ms s) !! ds
  = Index.dataSources s !! ds.
Proof.
  unfold Index.apply_mutations. revert s.
  induction ms as [|m ms IH]; intros s Hds; simpl; [done|].
  rewrite IH.
  - by apply mutation_unregistered.
  - unfold Index.registered.
    by destruct (registries_eq _ _ (registries_mutation m s)) as (_ & -> & _).
Qed.

End IndexObservers.

(** ** Cancellation *)

Section Cancellation.

Variable db : Engine.Handle.
Variable config : Config.

Lemma observeKey_registers key s :
  Index.wf s →
  Index.registered_under (Index.observeKey db key s).2 key
    (Index.observeKey db key s).1.
Proof.
  intros (_ & _ & Hkeys). unfold Index.observeKey, Index.registered_under.
  simpl. eexists. split; [apply lookup_insert_eq|].
  assert (∀ k dss, Index.keyObservers s !! k = Some dss →
            Index.nextId s ∉ dss) as Hfresh.
  { intros k dss Hk Hin. destruct (Hkeys k dss Hk) as [_ Hlt].
    specialize (Hlt _ Hin). lia. }
  split; [|split].
  - apply NoDup_app. split; [|split].
    + destruct (Index.keyObservers s !! key) as [dss|] eqn:Hk; simpl;
        [by destruct (Hkeys key dss Hk)|constructor].
    + intros x Hx ->%list_elem_of_singleton.
      destruct (Index.keyObservers s !! key) as [dss|] eqn:Hk; simpl in Hx;
        [by apply (Hfresh key dss)|by apply elem_of_nil in Hx].
    + apply NoDup_singleton.
  - apply elem_of_app. right. by left.
  - intros key' dss' Hne. rewrite lookup_insert_ne by done. apply Hfresh.
Qed.

Lemma registered_under_mutations ms s key ds :
  Index.registered_under s key ds →
  Index.registered_under (Index.apply_mutations db config ms s) key ds.
Proof.
  unfold Index.registered_under.
  by destruct (registries_eq _ _ (registries_mutations db config ms s))
    as (_ & -> & _).
Qed.

(** The cleanup of a per-key observer succeeds and takes the observer
    out of every list. *)
Lemma cancelKey_unregisters key ds s :
  Index.registered_under s key ds →
  ∃ s', Index.cancelKey key ds s = Some s'
    ∧ ¬ Index.registered s' ds
    ∧ is_Some (Index.keyObservers s' !! key)
    ∧ Index.dataSources s' = Index.dataSources s.
Proof.
  intros (dss & Hk & Hnd & Hin & Hother). unfold Index.cancelKey.
  rewrite Hk. destruct (indexOf_Some ds dss Hin) as (i & -> & Hi).
  eexists. split; [done|]. simpl. split; [|split; [|done]].
  - intros (key' & dss' & Hk' & Hin'). simpl in Hk'.
    destruct (decide (key = key')) as [<-|Hne].
    + rewrite lookup_insert_eq in Hk'. injection Hk' as <-.
      by apply (splice1_removes ds i dss).
    + rewrite lookup_insert_ne in Hk' by done.
      by apply (Hother key' dss').
  - rewrite lookup_insert_eq. eauto.
Qed.

(** On an observer that is in no list, the cleanup does nothing. *)
Lemma cancelKey_again key ds s :
  ¬ Index.registered s ds →
  is_Some (Index.keyObservers s !! key) →
  Index.cancelKey key ds s = Some s.
Proof.
  intros Hds [dss Hk]. unfold Index.cancelKey. rewrite Hk.
  rewrite indexOf_None; [done|].
  intros Hin. apply Hds. by exists key, dss.
Qed.

Lemma cancelTotal_unlists result s :
  NoDup (Index.totalObservers s) →
  (result ∉ Index.totalObservers (Index.cancelTotal result s))
  ∧ Index.mapSources (Index.cancelTotal result s) = Index.mapSources s.
Proof.
  intros Hnd. unfold Index.cancelTotal.
  destruct (indexOf result (Index.totalObservers s)) as [i|] eqn:Hi; simpl.
  - split; [|done].
    destruct (decide (result ∈ Index.totalObservers s)) as [Hin|Hin].
    + destruct (indexOf_Some _ _ Hin) as (j & Hj & Hl).
      rewrite Hi in Hj. injection Hj as <-.
      by apply splice1_removes.
    + by rewrite indexOf_None in Hi.
  - split; [|done]. intros Hin.
    destruct (indexOf_Some _ _ Hin) as (j & Hj & _). congruence.
Qed.

Lemma cancelTotal_again result s :
  result ∉ Index.totalObservers s → Index.cancelTotal result s = s.
Proof.
  intros Hin. unfold Index.cancelTotal. by rewrite indexOf_None.
Qed.

Lemma wf_init st : Index.wf (Index.init st).
Proof.
  unfold Index.wf, Index.init. simpl. split; [constructor|].
  split; [by intros id ?%elem_of_nil|].
  intros key dss Hk. by rewrite lookup_empty in Hk.
Qed.

Lemma wf_mutations ms s :
  Index.wf s → Index.wf (Index.apply_mutations db config ms s).
Proof.
  unfold Index.wf.
  by destruct (registries_eq _ _ (registries_mutations db config ms s))
    as (-> & -> & ->).
Qed.

Lemma wf_observeEntireIndex_begin s :
  Index.wf s → Index.wf (Index.observeEntireIndex_begin db s).2.
Proof.
  intros (Hnd & Hlt & Hkeys). unfold Index.wf. simpl. split; [|split].
  - apply NoDup_app. split; [done|]. split; [|apply NoDup_singleton].
    intros x Hx ->%list_elem_of_singleton. specialize (Hlt _ Hx). lia.
  - intros id [Hin| ->%list_elem_of_singleton]%elem_of_app; [|lia].
    specialize (Hlt _ Hin). lia.
  - intros key dss Hk. destruct (Hkeys key dss Hk) as [? Hl].
    split; [done|]. intros id Hid. specialize (Hl _ Hid). lia.
Qed.

Lemma wf_observeKey key s :
  Index.wf s → Index.wf (Index.observeKey db key s).2.
Proof.
  intros Hwf. pose proof (observeKey_registers key s Hwf) as Hreg.
  destruct Hwf as (Hnd & Hlt & Hkeys). unfold Index.wf. simpl.
  split; [done|]. split.
  { intros id Hid. specialize (Hlt _ Hid). lia. }
  intros key' dss' Hk'. destruct (decide (key = key')) as [<-|Hne].
  - rewrite lookup_insert_eq in Hk'. injection Hk' as <-.
    destruct Hreg as (dss & Hk & Hnd' & _). simpl in Hk.
    rewrite lookup_insert_eq in Hk. injection Hk as <-. split; [done|].
    intros id [Hin| ->%list_elem_of_singleton]%elem_of_app; [|lia].
    destruct (Index.keyObservers s !! key) as [dss0|] eqn:Hk0; simpl in Hin;
      [|by apply elem_of_nil in Hin].
    destruct (Hkeys key dss0 Hk0) as [_ Hl]. specialize (Hl _ Hin). lia.
  - rewrite lookup_insert_ne in Hk' by done.
    destruct (Hkeys key' dss' Hk') as [? Hl]. split; [done|].
    intros id Hid. specialize (Hl _ Hid). lia.
Qed.

Lemma wf_cancelKey key ds s s' :
  Index.wf s → Index.cancelKey key ds s = Some s' → Index.wf s'.
Proof.
  intros (Hnd & Hlt & Hkeys). unfold Index.cancelKey.
  destruct (Index.keyObservers s !! key) as [dss|] eqn:Hk; [|done].
  destruct (indexOf ds dss) as [i|]; intros [= <-]; [|done].
  unfold Index.wf. simpl. split; [done|]. split; [done|].
  intros key' dss' Hk'. destruct (decide (key = key')) as [<-|Hne].
  - rewrite lookup_insert_eq in Hk'. injection Hk' as <-.
    destruct (Hkeys key dss Hk) as [Hnd' Hl]. split.
    + eapply sublist_NoDup; [done|]. apply sublist_delete.
    + intros id Hid%list_elem_of_delete_inv. by apply Hl.
  - rewrite lookup_insert_ne in Hk' by done. by apply (Hkeys key').
Qed.

Lemma wf_cancelTotal result s :
  Index.wf s → Index.wf (Index.cancelTotal result s).
Proof.
  intros (Hnd & Hlt & Hkeys). unfold Index.cancelTotal.
  destruct (indexOf result (Index.totalObservers s)) as [i|]; [|done].
  unfold Index.wf. simpl. split; [|split; [|done]].
  - eapply sublist_NoDup; [done|]. apply sublist_delete.
  - intros id Hid%list_elem_of_delete_inv. by apply Hlt.
Qed.

(** C7, per-key observers. *)
Lemma cancel_key_observer_final key s0 (live after : list Index.Mutation) :
  Index.wf s0 →
  let ds := (Index.observeKey db key s0).1 in
  let s2 := Index.apply_mutations db config live
              (Index.observeKey db key s0).2 in
  ∃ s3, Index.cancelKey key ds s2 = Some s3
    ∧ Index.dataSources s3 !! ds = Index.dataSources s2 !! ds
    ∧ let s4 := Index.apply_mutations db config after s3 in
      Index.dataSources s4 !! ds = Index.dataSources s2 !! ds
      ∧ Index.cancelKey key ds s4 = Some s4
      ∧ ¬ Index.registered s4 ds.
Proof.
  intros Hwf ds s2.
  pose proof (observeKey_registers key s0 Hwf) as Hreg.
  apply (registered_under_mutations live) in Hreg.
  destruct (cancelKey_unregisters _ _ _ Hreg) as (s3 & Hc & Hun & Hk & Hds).
  exists s3. split; [done|]. split; [by rewrite Hds|].
  assert (¬ Index.registered (Index.apply_mutations db config after s3) ds
          ∧ is_Some (Index.keyObservers
                       (Index.apply_mutations db config after s3) !! key))
    as [Hun' Hk'].
  { unfold Index.registered.
    by destruct (registries_eq _ _ (registries_mutations db config after s3))
      as (_ & -> & _). }
  simpl. split; [|split; [|done]].
  - rewrite mutations_unregistered by done. by rewrite Hds.
  - by apply cancelKey_again.
Qed.

Lemma registries_scan_step result sc s :
  Index.registries (Index.scan_step db result sc s).2 = Index.registries s.
Proof.
  unfold Index.scan_step. destruct (Index.scanning sc); [|done].
  destruct (Index.pendingKeys sc) as [|key rest]; [done|].
  destruct (includes_bang key); [done|].
  by destruct (Index.get db key s).
Qed.

Lemma registries_run result sched x :
  Index.registries (foldl (Index.step db config result) x sched).2
  = Index.registries x.2.
Proof.
  revert x. induction sched as [|a sched IH]; intros x; simpl; [done|].
  rewrite IH. destruct a as [|m]; simpl.
  - apply registries_scan_step.
  - apply registries_mutation.
Qed.

Lemma wf_observeEntireIndex sched s :
  Index.wf s → Index.wf (Index.observeEntireIndex db config sched s).2.
Proof.
  intros Hwf%wf_observeEntireIndex_begin. unfold Index.observeEntireIndex.
  destruct (Index.observeEntireIndex_begin db s) as [[result keys] s1].
  pose proof (registries_run result sched
                (Index.mkScan keys Pending true, s1)) as Hr.
  destruct (foldl _ _ sched) as [sc s2]. simpl in *.
  unfold Index.wf. by destruct (registries_eq _ _ Hr) as (-> & -> & ->).
Qed.

(** C7, whole-collection observers. *)
Lemma cancel_total_observer_final s0 (sched : list Index.Action)
    (after : list Index.Mutation) :
  Index.wf s0 →
  let result := (Index.observeEntireIndex db config sched s0).1.1 in
  let s2 := (Index.observeEntireIndex db config sched s0).2 in
  let s3 := Index.cancelTotal result s2 in
  Index.view result s3 = Index.view result s2
  ∧ let s4 := Index.apply_mutations db config after s3 in
    Index.view result s4 = Index.view result s2
    ∧ Index.cancelTotal result s4 = s4
    ∧ result ∉ Index.totalObservers s4.
Proof.
  intros Hwf result s2 s3.
  assert (Index.wf s2) as (Hnd & _) by by apply wf_observeEntireIndex.
  destruct (cancelTotal_unlists result s2 Hnd) as [Hun Hms].
  fold s3 in Hun, Hms. unfold Index.view. split; [by rewrite Hms|].
  assert (result ∉ Index.totalObservers
                     (Index.apply_mutations db config after s3)) as Hun'.
  { by destruct (registries_eq _ _ (registries_mutations db config after s3))
      as (-> & _). }
  simpl. split; [|split; [|done]].
  - rewrite mutations_unlisted by done. by rewrite Hms.
  - by apply cancelTotal_again.
Qed.

End Cancellation.

(** C7. For a per-key observer and for a whole-collection observer of an
    index, whatever happened while they were live (for the whole-collection
    observer: any schedule of scan callbacks and mutations): the cleanup
    registered on the cancellation token succeeds and leaves the
    observer's value as it was; after it, no sequence of [set], [delete]
    and [clear] calls changes the value the observer holds; and running
    the cleanup once more after those calls succeeds, changes nothing and
    leaves the observer unregistered. *)
Theorem cancellation_is_final (db : Engine.Handle) (config : Config)
    (key : string) (s0 : Index.State) (live after : list Index.Mutation)
    (sched : list Index.Action) :
  Index.wf s0 →
  (let ds := (Index.observeKey db key s0).1 in
   let s2 := Index.apply_mutations db config live
               (Index.observeKey db key s0).2 in
   ∃ s3, Index.cancelKey key ds s2 = Some s3
     ∧ Index.dataSources s3 !! ds = Index.dataSources s2 !! ds
     ∧ let s4 := Index.apply_mutations db config after s3 in
       Index.dataSources s4 !! ds = Index.dataSources s2 !! ds
       ∧ Index.cancelKey key ds s4 = Some s4
       ∧ ¬ Index.registered s4 ds)
  ∧ (let result := (Index.observeEntireIndex db config sched s0).1.1 in
     let s2 := (Index.observeEntireIndex db config sched s0).2 in
     let s3 := Index.cancelTotal result s2 in
     Index.view result s3 = Index.view result s2
     ∧ let s4 := Index.apply_mutations db config after s3 in
       Index.view result s4 = Index.view result s2
       ∧ Index.cancelTotal result s4 = s4
       ∧ result ∉ Index.totalObservers s4).
Proof.
  intros Hwf. split.
  - by apply cancel_key_observer_final.
  - by apply cancel_total_observer_final.
Qed.

Lemma cancellation_is_final_witness :
  let db := Engine.sub Engine.root "testindex" in
  let config := {| autoDeleteOnSetUndefined := false |} in
  let s0 := Index.init ∅ in
  let live := [Index.MSet "hello" (VStr "world")] in
  let after := [Index.MDelete "hello"] in
  let sched := [Index.AScan; Index.AMutation (Index.MSet "hello" (VStr "world"))] in
  (let ds := (Index.observeKey db "hello" s0).1 in
   let s2 := Index.apply_mutations db config live
               (Index.observeKey db "hello" s0).2 in
   ∃ s3, Index.cancelKey "hello" ds s2 = Some s3
     ∧ Index.dataSources s3 !! ds = Index.dataSources s2 !! ds
     ∧ let s4 := Index.apply_mutations db config after s3 in
       Index.dataSources s4 !! ds = Index.dataSources s2 !! ds
       ∧ Index.cancelKey "hello" ds s4 = Some s4
       ∧ ¬ Index.registered s4 ds)
  ∧ (let result := (Index.observeEntireIndex db config sched s0).1.1 in
     let s2 := (Index.observeEntireIndex db config sched s0).2 in
     let s3 := Index.cancelTotal result s2 in
     Index.view result s3 = Index.view result s2
     ∧ let s4 := Index.apply_mutations db config after s3 in
       Index.view result s4 = Index.view result s2
       ∧ Index.cancelTotal result s4 = s4
       ∧ result ∉ Index.totalObservers s4).
Proof.
  intros db config s0 live after sched.
  apply (cancellation_is_final db config "hello" s0 live after sched).
  unfold s0, Index.wf, Index.init. simpl. split; [constructor|].
  split; [intros id Hid; inversion Hid|].
  intros key dss Hk. rewrite lookup_empty in Hk. discriminate.
Defined.

(** The run of the test "observe": the observer follows the key until
    the token is cancelled and keeps its last value afterwards. *)
Example observe_then_cancel :
  let db := Engine.sub Engine.root "testindex" in
  let config := {| autoDeleteOnSetUndefined := false |} in
  let '(ds, s1) := Index.observeKey db "hello" (Index.init ∅) in
  let s2 := Index.set db config "hello" (VStr "world") s1 in
  let s3 := Index.set db config "hello" (VStr "world2") s2 in
  let s4 := Index.delete db "hello" s3 in
  let s5 := Index.set db config "hello" (VStr "world") s4 in
  let s6 := default s5 (Index.cancelKey "hello" ds s5) in
  let s7 := Index.delete db "hello" s6 in
  Index.dataSources s1 !! ds = Some VUndef
  ∧ Index.dataSources s2 !! ds = Some (VStr "world")
  ∧ Index.dataSources s3 !! ds = Some (VStr "world2")
  ∧ Index.dataSources s4 !! ds = Some VUndef
  ∧ Index.dataSources s5 !! ds = Some (VStr "world")
  ∧ Index.dataSources s7 !! ds = Some (VStr "world")
  ∧ Index.get db "hello" s7 = Rejected NotFound.
Proof. vm_compute. repeat split. Qed.

(** The run of the test "observe entire index". *)
Example observe_entire_index_then_cancel :
  let db := Engine.sub Engine.root "testindex" in
  let config := {| autoDeleteOnSetUndefined := false |} in
  let '(mds, sc, s1) :=
    Index.observeEntireIndex db config [Index.AScan; Index.AScan]
      (Index.init {[ db +:+ META_KEY := VStr "2020-01-01T00:00:00.000Z" ]}) in
  let s2 := Index.set db config "hello" (VStr "world") s1 in
  let s3 := Index.set db config "hello" (VStr "world2") s2 in
  let s4 := Index.delete db "hello" s3 in
  let s5 := Index.set db config "hello" (VStr "world") s4 in
  let s6 := Index.cancelTotal mds s5 in
  let s7 := Index.delete db "hello" s6 in
  Index.promise sc = Resolved mds
  ∧ Index.view mds s1 = ∅
  ∧ Index.view mds s2 = {[ "hello" := VStr "world" ]}
  ∧ Index.view mds s3 = {[ "hello" := VStr "world2" ]}
  ∧ Index.view mds s4 = ∅
  ∧ Index.view mds s5 = {[ "hello" := VStr "world" ]}
  ∧ Index.view mds s7 = {[ "hello" := VStr "world" ]}.
Proof. vm_compute. repeat split. Qed.

(** ** Whole-index observers: live events and the bootstrap scan *)

Section IndexScan.

Variable db : Engine.Handle.
Variable config : Config.

Lemma update_all_is_Some {A} (f : A → A) ids (heap : gmap nat A) id :
  is_Some (heap !! id) → is_Some (Index.update_all f ids heap !! id).
Proof.
  unfold Index.update_all. revert heap.
  induction ids as [|x ids IH]; intros heap Hid; simpl; [done|].
  apply IH. rewrite lookup_alter. case_decide; [|done].
  subst. by apply fmap_is_Some.
Qed.

Lemma view_update_all (f : gmap string Val → gmap string Val) s result
    (heap : gmap nat (gmap string Val)) :
  NoDup (Index.totalObservers s) → result ∈ Index.totalObservers s →
  is_Some (heap !! result) →
  default ∅ (Index.update_all f (Index.totalObservers s) heap !! result)
  = f (default ∅ (heap !! result)).
Proof.
  intros Hnd Hin [m Hm]. rewrite update_all_in by done. by rewrite Hm.
Qed.

Lemma listed_onKeyChange k v s result :
  Index.listed s result → Index.listed (Index.onKeyChange k v s) result.
Proof.
  intros (? & ? & ?). split; [done|]. split; [done|].
  by apply update_all_is_Some.
Qed.

Lemma listed_onClear s result :
  Index.listed s result → Index.listed (Index.onClear s) result.
Proof.
  intros (? & ? & ?). split; [done|]. split; [done|].
  by apply update_all_is_Some.
Qed.

(** A live event reaches a listed observer whatever the key is. *)
Lemma view_onKeyChange k v s result :
  Index.listed s result →
  Index.view result (Index.onKeyChange k v s)
  = Index.mds_change k v (Index.view result s).
Proof.
  intros (? & ? & ?). unfold Index.view. simpl. by apply view_update_all.
Qed.

Lemma view_onClear s result :
  Index.listed s result → Index.view result (Index.onClear s) = ∅.
Proof.
  intros (? & ? & ?). unfold Index.view. simpl.
  by rewrite (view_update_all (λ _, ∅)).
Qed.

Lemma listed_with_store f s result :
  Index.listed s result → Index.listed (Index.with_store f s) result.
Proof. done. Qed.

Lemma listed_set key value s result :
  Index.listed s result → Index.listed (Index.set db config key value s) result.
Proof.
  intros H. unfold Index.set, Index.db_del, Index.db_put.
  destruct (_ && _); by apply listed_onKeyChange.
Qed.

Lemma view_set key value s result :
  Index.listed s result →
  Index.view result (Index.set db config key value s)
  = if autoDeleteOnSetUndefined config && Index.is_nullish value
    then delete key (Index.view result s)
    else Index.mds_change key value (Index.view result s).
Proof.
  intros H. unfold Index.set, Index.db_del, Index.db_put.
  destruct (_ && _); simpl Index.handle;
    by rewrite view_onKeyChange.
Qed.

(** The live path has no filter: a [set] of a defined value on any key,
    the delimiter included, shows in every listed observer. *)
Lemma set_surfaces_any_key key value s result :
  Index.listed s result →
  Index.is_nullish value = false →
  Index.view result (Index.set db config key value s) !! key = Some value.
Proof.
  intros H Hv. rewrite view_set by done. rewrite Hv, andb_false_r.
  unfold Index.mds_change. case_decide; [by subst|].
  apply lookup_insert_eq.
Qed.

(** Once the callback has thrown, no later step changes the scan: the
    promise stays as it is. *)
Lemma stalled_forever result sched sc s :
  Index.scanning sc = false →
  (foldl (Index.step db config result) (sc, s) sched).1 = sc.
Proof.
  intros Hst. revert s.
  induction sched as [|a sched IH]; intros s; simpl; [done|].
  destruct a as [|m]; simpl.
  - unfold Index.scan_step. rewrite Hst. apply IH.
  - apply IH.
Qed.

(** The callback throws when the cursor delivers a data key that the
    live store no longer holds. *)
Lemma scan_stalls result key rest s :
  includes_bang key = false →
  Engine.get db key (Index.store s) = None →
  Index.scan_step db result (Index.mkScan (key :: rest) Pending true) s
  = (Index.mkScan rest Pending false, s).
Proof.
  intros Hkey Hget. unfold Index.scan_step, Index.get. simpl.
  by rewrite Hkey, Hget.
Qed.

Lemma listed_mutation m s result :
  Index.listed s result →
  Index.listed (Index.apply_mutation db config s m) result.
Proof.
  intros H. destruct m as [k v|k|]; unfold Index.apply_mutation.
  - by apply listed_set.
  - by apply listed_onKeyChange.
  - unfold Index.clear. destruct (Index.get _ _ _); simpl; try done.
    by apply listed_set, listed_onClear.
Qed.

Lemma get_set_eq key value s :
  Engine.get db key (Index.store (Index.set db config key value s))
  = if autoDeleteOnSetUndefined config && Index.is_nullish value
    then None else Some value.
Proof.
  rewrite store_set. unfold Engine.get, Engine.del, Engine.put.
  destruct (_ && _); [apply lookup_delete_eq|apply lookup_insert_eq].
Qed.

(** A mutation keeps a listed observer and the store in agreement on
    every key without the delimiter on which they agreed. *)
Lemma agree_mutation m s result k :
  Index.listed s result →
  Index.defined_write m →
  includes_bang k = false →
  Index.view result s !! k = Engine.get db k (Index.store s) →
  Index.view result (Index.apply_mutation db config s m) !! k
  = Engine.get db k (Index.store (Index.apply_mutation db config s m)).
Proof.
  intros Hl Hm Hk Hagree.
  assert (∀ key value s, Index.listed s result → value ≠ VUndef ∨ key ≠ k →
            Index.view result s !! k = Engine.get db k (Index.store s) →
            Index.view result (Index.set db config key value s) !! k
            = Engine.get db k
                (Index.store (Index.set db config key value s))) as Hset.
  { intros key value s' Hl' Hv Hag. rewrite view_set by done.
    destruct (decide (key = k)) as [->|Hne].
    - rewrite get_set_eq. destruct (_ && _); [apply lookup_delete_eq|].
      unfold Index.mds_change. case_decide; [by destruct Hv|].
      apply lookup_insert_eq.
    - rewrite set_other_keeps by done. rewrite <-Hag.
      unfold Index.mds_change.
      destruct (_ && _); [by apply lookup_delete_ne|].
      case_decide; [by apply lookup_delete_ne|by apply lookup_insert_ne]. }
  destruct m as [key value|key|]; unfold Index.apply_mutation.
  - apply Hset; auto.
  - unfold Index.delete, Index.db_del. simpl Index.handle.
    rewrite view_onKeyChange by done. unfold Index.mds_change. simpl.
    unfold Engine.get, Engine.del.
    destruct (decide (key = k)) as [->|Hne].
    + by rewrite !lookup_delete_eq.
    + rewrite !lookup_delete_ne; [done| |done].
      by intros ?%(inj (String.app db)).
  - unfold Index.clear. destruct (Index.get _ _ _) as [val| |]; simpl;
      try done.
    apply Hset.
    + by apply listed_onClear.
    + right. intros <-. done.
    + unfold Index.db_clear. simpl Index.handle.
      rewrite view_onClear by done. rewrite store_onClear. simpl.
      by rewrite engine_clear_get, lookup_empty.
Qed.

Lemma scan_inv_step result x a :
  Index.defined_action a →
  Index.scan_inv db result x → Index.scan_inv db result (Index.step db config result x a).
Proof.
  destruct x as [sc s]. intros Ha (Hl & Hp & Hq).
  destruct a as [|m]; simpl in *.
  - unfold Index.scan_step.
    destruct (Index.scanning sc) eqn:Hsc;
      [|split; [done|]; split; [done|]; simpl; by rewrite Hsc].
    specialize (Hq (or_introl eq_refl)).
    destruct (Index.pendingKeys sc) as [|key rest] eqn:Hkeys.
    { split; [done|]. split; [by intros r [= <-]|]. intros _. apply Hq. }
    destruct (includes_bang key) eqn:Hkey.
    { split; [done|]. split; [done|]. intros _ k Hk. simpl.
      destruct (Hq k Hk) as [Hin|Hag]; [|by right].
      apply elem_of_cons in Hin as [->|Hin]; [congruence|by left]. }
    unfold Index.get.
    destruct (Engine.get db key (Index.store s)) as [v|] eqn:Hget.
    + destruct Hl as (Hnd & Hin & [m Hm]).
      split; [|split; [done|]].
      { split; [done|]. split; [done|]. simpl.
        rewrite lookup_alter_eq, Hm. eauto. }
      intros _ k Hk. simpl. unfold Index.view. simpl.
      rewrite lookup_alter_eq, Hm. simpl.
      destruct (decide (key = k)) as [->|Hne].
      * right. by rewrite lookup_insert_eq.
      * rewrite lookup_insert_ne by done.
        destruct (Hq k Hk) as [Hin'|Hag].
        -- apply elem_of_cons in Hin' as [->|Hin']; [done|by left].
        -- right. unfold Index.view in Hag. by rewrite Hm in Hag.
    + split; [done|]. split; [done|]. by intros [?|?].
  - split; [by apply listed_mutation|]. split; [done|].
    intros Hlive k Hk. destruct (Hq Hlive k Hk) as [Hin|Hag]; [by left|].
    right. by apply agree_mutation.
Qed.

Lemma scan_inv_run result sched x :
  Forall Index.defined_action sched →
  Index.scan_inv db result x → Index.scan_inv db result (foldl (Index.step db config result) x sched).
Proof.
  intros Hall. revert x.
  induction Hall as [|a sched Ha _ IH]; intros x Hx; simpl; [done|].
  by apply IH, scan_inv_step.
Qed.

Lemma scan_inv_begin s :
  Index.wf s →
  Index.scan_inv db (Index.observeEntireIndex_begin db s).1.1
    (Index.mkScan (Index.observeEntireIndex_begin db s).1.2 Pending true,
     (Index.observeEntireIndex_begin db s).2).
Proof.
  intros Hwf.
  destruct (wf_observeEntireIndex_begin db s Hwf) as (Hnd & _).
  split; [|split].
  - split; [done|]. simpl. split.
    + apply elem_of_app. right. by left.
    + rewrite lookup_insert_eq. eauto.
  - done.
  - intros _ k Hk. simpl. unfold Index.view. simpl.
    rewrite lookup_insert_eq. simpl. rewrite lookup_empty.
    destruct (Engine.get db k (Index.store s)) as [v|] eqn:Hget;
      [left|by right].
    unfold Index.snapshot. apply list_elem_of_omap.
    exists (db +:+ k). split.
    + rewrite merge_sort_Permutation. apply list_elem_of_fmap.
      exists (db +:+ k, v). split; [done|]. by apply elem_of_map_to_list.
    + clear. induction db as [|c h IH]; [done|].
      change (strip_prefix (String c h) (String c (h +:+ k)) = Some k).
      simpl. by rewrite decide_True.
Qed.

(** Whenever the scan of [observeEntireIndex] completes, under any
    schedule of scan callbacks and defined writes, deletions and clears,
    the promise holds the observer, and the observer and the store agree
    on every key without the delimiter. *)
Lemma scan_converges sched s result sc s' :
  Index.wf s →
  Forall Index.defined_action sched →
  Index.observeEntireIndex db config sched s = (result, sc, s') →
  ∀ r, Index.promise sc = Resolved r →
    r = result
    ∧ ∀ k, includes_bang k = false →
        Index.view result s' !! k = Engine.get db k (Index.store s').
Proof.
  intros Hwf Hall Hrun r Hr. unfold Index.observeEntireIndex in Hrun.
  pose proof (scan_inv_begin s Hwf) as Hinv.
  destruct (Index.observeEntireIndex_begin db s) as [[res keys] s1].
  simpl in Hinv. apply (scan_inv_run res sched _ Hall) in Hinv.
  destruct (foldl _ _ sched) as [sc2 s2]. injection Hrun as <- <- <-.
  destruct Hinv as (_ & Hp & Hq). simpl in *.
  destruct (Hp r Hr) as [-> Hkeys]. split; [done|].
  intros k Hk. destruct (Hq (or_intror Hr) k Hk) as [Hin|Hag]; [|done].
  rewrite Hkeys in Hin. by apply elem_of_nil in Hin.
Qed.

End IndexScan.

(** C6. After [createIndex], a completed [observeEntireIndex] and
    [clear()], the observed view holds the reserved metadata key, a key
    that contains the delimiter: [clear] writes the record back with
    [set], the engine emits the put event and [onKeyChange] applies it
    without the test the scan makes. *)
Theorem clear_surfaces_metadata_key :
  match AurumDB.createIndex Engine.root "test" "2020-01-01T00:00:00.000Z" ∅ with
  | inr (h, st1) =>
      let config := {| autoDeleteOnSetUndefined := false |} in
      let '(result, sc, s) :=
        Index.observeEntireIndex h config [Index.AScan; Index.AScan]
          (Index.init st1) in
      let s' := (Index.clear h config s).2 in
      Index.promise sc = Resolved result
      ∧ Index.view result s = ∅
      ∧ includes_bang META_KEY = true
      ∧ Index.view result s' !! META_KEY
        = Some (VStr "2020-01-01T00:00:00.000Z")
  | inl _ => False
  end.
Proof. vm_compute. repeat split. Qed.

Lemma observeEntireIndex_app db config (sched more : list Index.Action) s :
  Index.observeEntireIndex db config (sched ++ more) s
  = let '(result, sc, s1) := Index.observeEntireIndex db config sched s in
    let '(sc2, s2) := foldl (Index.step db config result) (sc, s1) more in
    (result, sc2, s2).
Proof.
  unfold Index.observeEntireIndex.
  destruct (Index.observeEntireIndex_begin db s) as [[result keys] s1].
  rewrite foldl_app. by destruct (foldl _ _ sched) as [sc s2].
Qed.

(** The run the test "observe entire index is threadsafe" expects: the
    writes land after the scan has read the key that gets deleted. *)
Example scan_then_writes :
  let db := Engine.sub Engine.root "testindex" in
  let config := {| autoDeleteOnSetUndefined := false |} in
  let s :=
    foldl (λ s kv, Index.set db config kv.1 kv.2 s)
      (Index.init {[ db +:+ META_KEY := VStr "2020-01-01T00:00:00.000Z" ]})
      [("hello0", VStr "world"); ("hello1", VStr "world")] in
  let '(result, sc, s') :=
    Index.observeEntireIndex db config
      [Index.AScan; Index.AScan;
       Index.AMutation (Index.MSet "hello0" (VStr "notworld"));
       Index.AMutation (Index.MDelete "hello0");
       Index.AMutation (Index.MSet "hello1" (VStr "notworld"));
       Index.AScan; Index.AScan] s in
  Index.promise sc = Resolved result
  ∧ Index.view result s' = {[ "hello1" := VStr "notworld" ]}.
Proof. vm_compute. split; reflexivity. Qed.

(** C1. Two keys are in the index when [observeEntireIndex] is called.
    The overwrite and the deletion of the first key are applied before the
    scan asks the live store for that key; the second key is overwritten.
    The callback of the scan then throws on the deleted key and the
    promise of [observeEntireIndex] never settles, whatever runs
    afterwards: no view is returned. *)
Theorem scan_stalls_on_early_delete (more : list Index.Action) :
  let db := Engine.sub Engine.root "testindex" in
  let config := {| autoDeleteOnSetUndefined := false |} in
  let s :=
    foldl (λ s kv, Index.set db config kv.1 kv.2 s)
      (Index.init {[ db +:+ META_KEY := VStr "2020-01-01T00:00:00.000Z" ]})
      [("hello0", VStr "world"); ("hello1", VStr "world")] in
  let '(_, sc, _) :=
    Index.observeEntireIndex db config
      ([Index.AMutation (Index.MSet "hello0" (VStr "notworld"));
        Index.AMutation (Index.MDelete "hello0");
        Index.AMutation (Index.MSet "hello1" (VStr "notworld"));
        Index.AScan; Index.AScan] ++ more) s in
  Index.promise sc = Pending ∧ Index.scanning sc = false.
Proof.
  intros db config s. rewrite observeEntireIndex_app.
  set (sched := [_; _; _; _; _]).
  assert ((Index.observeEntireIndex db config sched s).1.2
          = Index.mkScan ["hello1"] Pending false) as Hrun
    by (vm_compute; reflexivity).
  destruct (Index.observeEntireIndex db config sched s) as [[result sc] s1].
  simpl in Hrun. subst sc.
  pose proof (stalled_forever db config result more
                (Index.mkScan ["hello1"] Pending false) s1 eq_refl) as Hst.
  destruct (foldl _ _ more) as [sc2 s2]. simpl in Hst. by subst sc2.
Qed.

(** ** Ordered collection: calls awaited one after the other *)

Lemma pretty_N_go_ne_bang x s s' :
  s ≠ "!" +:+ s' → pretty_N_go x s ≠ "!" +:+ s'.
Proof.
  revert s. induction (N.lt_wf_0 x) as [x _ IH]; intros s ?.
  assert (x = 0 ∨ 0 < x)%N as [->|?] by lia.
  - by rewrite pretty_N_go_0.
  - rewrite pretty_N_go_step by done. apply IH.
    { by apply N.div_lt. }
    unfold pretty_N_char. by repeat case_match.
Qed.

(** No number is rendered as the metadata key. *)
Lemma slot_not_meta (i : Z) : Ordered.slot i ≠ META_KEY.
Proof.
  unfold Ordered.slot, pretty, pretty_Z, META_KEY.
  destruct i as [|p|p]; [done| |done].
  unfold pretty, pretty_positive, pretty, pretty_N.
  case_decide; [done|]. by apply (pretty_N_go_ne_bang _ "" "!meta!!").
Qed.

Lemma slot_inj (i j : Z) : Ordered.slot i = Ordered.slot j → i = j.
Proof. apply pretty_Z_inj. Qed.

Section OrderedExec.

Variable db : Engine.Handle.

Abbreviation exec := (Ordered.exec db).

Lemma coll_eta (c : Ordered.Coll) :
  Ordered.mkColl (Ordered.store c) (Ordered.lock c) (Ordered.totalObservers c)
  = c.
Proof. by destruct c. Qed.

(** [exec] of a sequence: the second part runs on what the first part
    resolved with, and does not run when the first part failed or never
    settled. *)
Lemma exec_bind {A B} (p : Ordered.Prog A) (f : A → Ordered.Prog B) c :
  exec (Ordered.bind p f) c
  = match exec p c with
    | (Resolved r, c') => exec (f r) c'
    | (Rejected e, c') => (Rejected e, c')
    | (Pending, c') => (Pending, c')
    end.
Proof.
  revert B f c.
  induction p as [A r|A e|A k IH|A rq k IH|A rq k IH|A g k IH|A ex _ k IH];
    intros B f c; simpl.
  - done.
  - done.
  - destruct (Ordered.lock c); [apply IH..|done].
  - destruct (Ordered.perform db rq (Ordered.store c)). apply IH.
  - destruct (Ordered.perform db rq (Ordered.store c)). apply IH.
  - apply IH.
  - destruct (exec ex c). apply IH.
Qed.

Lemma exec_await_lock c :
  Ordered.unlocked c →
  ∃ v, exec Ordered.await_lock c = (Resolved v, c).
Proof.
  unfold Ordered.unlocked, Ordered.await_lock. simpl.
  destruct (Ordered.lock c); intros ?; [by eexists..|done].
Qed.

Lemma exec_locked {R} (p : Ordered.Prog R) c :
  Ordered.lock c = Ordered.LForever →
  exec (Ordered.bind Ordered.await_lock (λ _, p)) c = (Pending, c).
Proof. intros Hl. simpl. by rewrite Hl. Qed.

Lemma exec_db_get key c :
  exec (Ordered.db_get key) c
  = match Engine.get db key (Ordered.store c) with
    | Some v => (Resolved v, c)
    | None => (Rejected NotFound, c)
    end.
Proof.
  unfold Ordered.db_get. simpl. rewrite coll_eta.
  by destruct (Engine.get db key (Ordered.store c)).
Qed.

Lemma exec_length c (len : Z) :
  Ordered.unlocked c →
  Engine.get db META_KEY (Ordered.store c) = Some (VNum len) →
  exec Ordered.length c = (Resolved len, c).
Proof.
  intros Hl Hmeta. unfold Ordered.length. rewrite exec_bind.
  destruct (exec_await_lock c Hl) as [v ->].
  rewrite exec_bind, exec_db_get, Hmeta. done.
Qed.

Lemma read_from_S (i : Z) (turns : nat) :
  Ordered.read_from i (S turns)
  = Ordered.bind (Ordered.db_get (Ordered.slot i))
      (λ v, Ordered.bind (Ordered.read_from (i + 1) turns)
              (λ rest, Ordered.Ret (v :: rest))).
Proof. done. Qed.

(** The loop of [slice] and [toArray] on a partition that holds [xs]. *)
Lemma exec_read_from c xs (a turns : nat) :
  Ordered.holds db c xs →
  (a + turns ≤ length xs)%nat →
  exec (Ordered.read_from (Z.of_nat a) turns) c
  = (Resolved (take turns (drop a xs)), c).
Proof.
  intros [_ Hslots]. revert a.
  induction turns as [|n IH]; intros a Hle.
  - by rewrite take_0.
  - destruct (lookup_lt_is_Some_2 xs a) as [x Hx]; [lia|].
    rewrite read_from_S.
    rewrite exec_bind, exec_db_get, (Hslots a x Hx), exec_bind.
    replace (Z.of_nat a + 1) with (Z.of_nat (S a)) by lia.
    rewrite IH by lia. simpl.
    by rewrite (drop_S xs x a Hx).
Qed.

(** [get] and [set] once the lock and the length are read. *)
Lemma exec_get c (len index : Z) :
  Ordered.unlocked c →
  Engine.get db META_KEY (Ordered.store c) = Some (VNum len) →
  exec (Ordered.get index) c
  = if index >? len
    then (Rejected (Thrown "cannot read outside of bounds of array"), c)
    else match Engine.get db (Ordered.slot index) (Ordered.store c) with
         | Some v => (Resolved v, c)
         | None => (Rejected NotFound, c)
         end.
Proof.
  intros Hl Hmeta. unfold Ordered.get. rewrite exec_bind.
  destruct (exec_await_lock c Hl) as [v ->].
  rewrite exec_bind, (exec_length c len Hl Hmeta).
  destruct (index >? len); [done|apply exec_db_get].
Qed.

Lemma exec_set c (len index : Z) (item : Val) :
  Ordered.unlocked c →
  Engine.get db META_KEY (Ordered.store c) = Some (VNum len) →
  exec (Ordered.set index item) c
  = if index >? len
    then (Rejected (Thrown "cannot write outside of bounds of array"), c)
    else (Resolved tt,
          Ordered.mkColl
            (Engine.put db (Ordered.slot index) item (Ordered.store c))
            (Ordered.lock c)
            (Ordered.ads_set index item <$> Ordered.totalObservers c)).
Proof.
  intros Hl Hmeta. unfold Ordered.set. rewrite exec_bind.
  destruct (exec_await_lock c Hl) as [v ->].
  rewrite exec_bind, (exec_length c len Hl Hmeta).
  destruct (index >? len); done.
Qed.

Lemma exec_slice c (a b : Z) xs :
  Ordered.unlocked c →
  Ordered.holds db c xs →
  exec (Ordered.slice a b) c
  = if (a >? Z.of_nat (length xs)) || (a <? 0)
       || (b >? Z.of_nat (length xs)) || (b <? 0)
    then (Rejected (Thrown "cannot write outside of bounds of array"), c)
    else (Resolved (take (Z.to_nat (b - a)) (drop (Z.to_nat a) xs)), c).
Proof.
  intros Hl Hxs. unfold Ordered.slice. rewrite exec_bind.
  destruct (exec_await_lock c Hl) as [v ->].
  rewrite exec_bind, (exec_length c _ Hl (proj1 Hxs)).
  destruct (_ || _) eqn:Hcond; [done|].
  repeat apply orb_false_elim in Hcond as [Hcond ?].
  rewrite <-(Z2Nat.id a) at 1 by lia.
  apply exec_read_from; [done|lia].
Qed.

End OrderedExec.

(** C9. On a collection that holds [xs], [slice(a, b)] fails with the
    bounds error exactly when [a < 0], [b > length], [a > length] or
    [b < 0]; otherwise it resolves with the elements at the indices
    [a], ..., [b - 1] in that order, and the collection is as before. *)
Theorem slice_bounds (db : Engine.Handle) (c : Ordered.Coll)
    (xs : list Val) (a b : Z) :
  Ordered.unlocked c →
  Ordered.holds db c xs →
  (a < 0 ∨ b > Z.of_nat (length xs) ∨ a > Z.of_nat (length xs) ∨ b < 0 →
   Ordered.exec db (Ordered.slice a b) c
   = (Rejected (Thrown "cannot write outside of bounds of array"), c))
  ∧ (¬ (a < 0 ∨ b > Z.of_nat (length xs) ∨ a > Z.of_nat (length xs) ∨ b < 0) →
     ∃ ys,
       Ordered.exec db (Ordered.slice a b) c = (Resolved ys, c)
       ∧ length ys = Z.to_nat (b - a)
       ∧ ∀ j : nat, (j < Z.to_nat (b - a))%nat →
           ys !! j = xs !! (Z.to_nat a + j)%nat).
Proof.
  intros Hl Hxs. rewrite (exec_slice db c a b xs Hl Hxs).
  split.
  - intros Hcond.
    destruct (_ || _) eqn:Hb; [done|].
    repeat apply orb_false_elim in Hb as [Hb ?]. lia.
  - intros Hcond.
    destruct (_ || _) eqn:Hb.
    { repeat apply orb_true_iff in Hb as [Hb|Hb]; lia. }
    eexists. split; [done|]. split.
    + rewrite length_take, length_drop. lia.
    + intros j Hj. rewrite lookup_take_lt by done. apply lookup_drop.
Qed.

Lemma slice_bounds_witness :
  let db := Engine.sub Engine.root "testordered" in
  let c := (Ordered.exec db (Ordered.push [VNum 1; VNum 2; VNum 3; VNum 4; VNum 5])
              (Ordered.fresh {[ db +:+ META_KEY := VNum 0 ]})).2 in
  let xs := [VNum 1; VNum 2; VNum 3; VNum 4; VNum 5] in
  (0 < 0 ∨ 2 > Z.of_nat (length xs) ∨ 0 > Z.of_nat (length xs) ∨ 2 < 0 →
   Ordered.exec db (Ordered.slice 0 2) c
   = (Rejected (Thrown "cannot write outside of bounds of array"), c))
  ∧ (¬ (0 < 0 ∨ 2 > Z.of_nat (length xs) ∨ 0 > Z.of_nat (length xs) ∨ 2 < 0) →
     ∃ ys,
       Ordered.exec db (Ordered.slice 0 2) c = (Resolved ys, c)
       ∧ length ys = Z.to_nat (2 - 0)
       ∧ ∀ j : nat, (j < Z.to_nat (2 - 0))%nat →
           ys !! j = xs !! (Z.to_nat 0 + j)%nat).
Proof.
  intros db c xs. apply (slice_bounds db c xs 0 2).
  - vm_compute. discriminate.
  - split; [reflexivity|].
    intros i x Hi.
    destruct i as [|[|[|[|[|i]]]]]; simpl in Hi; try discriminate;
      injection Hi as <-; vm_compute; reflexivity.
Defined.

(** The calls of the test "slice collection". *)
Example slice_collection :
  let db := Engine.sub Engine.root "testordered" in
  let c := (Ordered.exec db (Ordered.push [VNum 1; VNum 2; VNum 3; VNum 4; VNum 5])
              (Ordered.fresh {[ db +:+ META_KEY := VNum 0 ]})).2 in
  (Ordered.exec db (Ordered.slice 0 2) c).1 = Resolved [VNum 1; VNum 2]
  ∧ (Ordered.exec db (Ordered.slice 1 1) c).1 = Resolved []
  ∧ (Ordered.exec db (Ordered.slice 0 1) c).1 = Resolved [VNum 1]
  ∧ (Ordered.exec db (Ordered.slice 0 5) c).1
    = Resolved [VNum 1; VNum 2; VNum 3; VNum 4; VNum 5]
  ∧ (Ordered.exec db (Ordered.slice 0 6) c).1
    = Rejected (Thrown "cannot write outside of bounds of array")
  ∧ (Ordered.exec db (Ordered.slice (-1) 2) c).1
    = Rejected (Thrown "cannot write outside of bounds of array").
Proof. vm_compute. repeat split. Qed.

(** C10. On a collection whose stored length is a number [len >= 0], a
    negative index passes the bounds check of [get] and of [set]:
    [get(index)] ends as the engine's read of the slot key does, with
    NotFound when the slot is missing and never with the bounds error;
    [set(index, item)] succeeds, writes the slot key of the negative
    index, which is the key of no index in [0, len), and leaves the
    stored length as it was. *)
Theorem negative_index_passes_bounds_check (db : Engine.Handle)
    (c : Ordered.Coll) (len index : Z) (item : Val) :
  Ordered.unlocked c →
  Engine.get db META_KEY (Ordered.store c) = Some (VNum len) →
  0 ≤ len →
  index < 0 →
  Ordered.exec db (Ordered.get index) c
  = match Engine.get db (Ordered.slot index) (Ordered.store c) with
    | Some v => (Resolved v, c)
    | None => (Rejected NotFound, c)
    end
  ∧ (Engine.get db (Ordered.slot index) (Ordered.store c) = None →
     Ordered.exec db (Ordered.get index) c = (Rejected NotFound, c))
  ∧ (Ordered.exec db (Ordered.set index item) c).1 = Resolved tt
  ∧ Ordered.store (Ordered.exec db (Ordered.set index item) c).2
    = Engine.put db (Ordered.slot index) item (Ordered.store c)
  ∧ Engine.get db META_KEY
      (Ordered.store (Ordered.exec db (Ordered.set index item) c).2)
    = Some (VNum len)
  ∧ ∀ i, 0 ≤ i < len → Ordered.slot i ≠ Ordered.slot index.
Proof.
  intros Hl Hmeta Hlen Hneg.
  rewrite (exec_get db c len index Hl Hmeta).
  rewrite (exec_set db c len index item Hl Hmeta).
  assert ((index >? len) = false) as -> by lia.
  split; [done|]. split; [by intros ->|]. split; [done|]. split; [done|].
  split.
  - simpl. unfold Engine.get, Engine.put. rewrite lookup_insert_ne; [done|].
    intros Heq%(inj (String.app db)). by apply slot_not_meta in Heq.
  - intros i Hi Heq%slot_inj. lia.
Qed.

Lemma negative_index_passes_bounds_check_witness :
  let db := Engine.sub Engine.root "testordered" in
  let c := Ordered.fresh {[ db +:+ META_KEY := VNum 0 ]} in
  Ordered.exec db (Ordered.get (-1)) c
  = match Engine.get db (Ordered.slot (-1)) (Ordered.store c) with
    | Some v => (Resolved v, c)
    | None => (Rejected NotFound, c)
    end
  ∧ (Engine.get db (Ordered.slot (-1)) (Ordered.store c) = None →
     Ordered.exec db (Ordered.get (-1)) c = (Rejected NotFound, c))
  ∧ (Ordered.exec db (Ordered.set (-1) (VNum 7)) c).1 = Resolved tt
  ∧ Ordered.store (Ordered.exec db (Ordered.set (-1) (VNum 7)) c).2
    = Engine.put db (Ordered.slot (-1)) (VNum 7) (Ordered.store c)
  ∧ Engine.get db META_KEY
      (Ordered.store (Ordered.exec db (Ordered.set (-1) (VNum 7)) c).2)
    = Some (VNum 0)
  ∧ ∀ i, 0 ≤ i < 0 → Ordered.slot i ≠ Ordered.slot (-1).
Proof.
  intros db c.
  apply (negative_index_passes_bounds_check db c 0 (-1) (VNum 7)).
  - vm_compute. discriminate.
  - reflexivity.
  - lia.
  - lia.
Defined.

(** What a negative index does on the collection of three elements: the
    read is refused by the engine, the write lands beside the slots. *)
Example negative_index_run :
  let db := Engine.sub Engine.root "testordered" in
  let c := (Ordered.exec db (Ordered.push [VNum 1; VNum 2; VNum 3])
              (Ordered.fresh {[ db +:+ META_KEY := VNum 0 ]})).2 in
  let c' := (Ordered.exec db (Ordered.set (-1) (VNum 7)) c).2 in
  (Ordered.exec db (Ordered.get (-1)) c).1 = Rejected NotFound
  ∧ (Ordered.exec db (Ordered.set (-1) (VNum 7)) c).1 = Resolved tt
  ∧ Engine.get db "-1" (Ordered.store c') = Some (VNum 7)
  ∧ (Ordered.exec db Ordered.length c').1 = Resolved 3
  ∧ (Ordered.exec db Ordered.toArray c').1
    = Resolved [VNum 1; VNum 2; VNum 3].
Proof. vm_compute. repeat split. Qed.

Section OrderedBounds.

Variable db : Engine.Handle.

(** Inside [0, length) and above the length, [get] and [set] do what
    their contract says. *)
Lemma get_in_range c xs (i : nat) x :
  Ordered.unlocked c → Ordered.holds db c xs → xs !! i = Some x →
  Ordered.exec db (Ordered.get (Z.of_nat i)) c = (Resolved x, c).
Proof.
  intros Hl [Hmeta Hslots] Hi. rewrite (exec_get db c _ _ Hl Hmeta).
  apply lookup_lt_Some in Hi as Hlt.
  assert ((Z.of_nat i >? Z.of_nat (length xs)) = false) as -> by lia.
  by rewrite (Hslots i x Hi).
Qed.

Lemma get_above_length c xs (index : Z) :
  Ordered.unlocked c → Ordered.holds db c xs →
  index > Z.of_nat (length xs) →
  Ordered.exec db (Ordered.get index) c
  = (Rejected (Thrown "cannot read outside of bounds of array"), c).
Proof.
  intros Hl [Hmeta _] Hi. rewrite (exec_get db c _ _ Hl Hmeta).
  by assert ((index >? Z.of_nat (length xs)) = true) as -> by lia.
Qed.

Lemma set_above_length c xs (index : Z) item :
  Ordered.unlocked c → Ordered.holds db c xs →
  index > Z.of_nat (length xs) →
  Ordered.exec db (Ordered.set index item) c
  = (Rejected (Thrown "cannot write outside of bounds of array"), c).
Proof.
  intros Hl [Hmeta _] Hi. rewrite (exec_set db c _ _ _ Hl Hmeta).
  by assert ((index >? Z.of_nat (length xs)) = true) as -> by lia.
Qed.

Lemma set_in_range c xs (i : nat) item :
  Ordered.unlocked c → Ordered.holds db c xs → (i < length xs)%nat →
  ∃ c', Ordered.exec db (Ordered.set (Z.of_nat i) item) c = (Resolved tt, c')
    ∧ Ordered.holds db c' (<[i:=item]> xs)
    ∧ Ordered.unlocked c'.
Proof.
  intros Hl [Hmeta Hslots] Hi. rewrite (exec_set db c _ _ _ Hl Hmeta).
  assert ((Z.of_nat i >? Z.of_nat (length xs)) = false) as -> by lia.
  eexists. split; [done|]. split; [|done]. split; simpl.
  - rewrite length_insert. unfold Engine.get, Engine.put.
    rewrite lookup_insert_ne; [done|].
    intros Heq%(inj (String.app db)). by apply slot_not_meta in Heq.
  - intros j x Hj. unfold Engine.get, Engine.put.
    destruct (decide (i = j)) as [->|Hne].
    + rewrite list_lookup_insert_eq in Hj by done. injection Hj as ->.
      by rewrite lookup_insert_eq.
    + rewrite list_lookup_insert_ne in Hj by done.
      rewrite lookup_insert_ne; [by apply Hslots|].
      intros Heq%(inj (String.app db))%slot_inj. lia.
Qed.

(** At the index equal to the length the comparison [index > len] lets
    the call through: [get] ends with the engine's NotFound for the
    slot that is not there, and [set] writes that slot while the stored
    length stays. *)
Lemma get_at_length c xs :
  Ordered.unlocked c → Ordered.holds db c xs →
  Engine.get db (Ordered.slot (Z.of_nat (length xs))) (Ordered.store c) = None →
  Ordered.exec db (Ordered.get (Z.of_nat (length xs))) c
  = (Rejected NotFound, c).
Proof.
  intros Hl [Hmeta _] Hnone. rewrite (exec_get db c _ _ Hl Hmeta).
  assert ((Z.of_nat (length xs) >? Z.of_nat (length xs)) = false) as -> by lia.
  by rewrite Hnone.
Qed.

Lemma set_at_length c xs item :
  Ordered.unlocked c → Ordered.holds db c xs →
  ∃ c', Ordered.exec db (Ordered.set (Z.of_nat (length xs)) item) c
        = (Resolved tt, c')
    ∧ Engine.get db (Ordered.slot (Z.of_nat (length xs))) (Ordered.store c')
      = Some item
    ∧ Ordered.holds db c' xs.
Proof.
  intros Hl [Hmeta Hslots]. rewrite (exec_set db c _ _ _ Hl Hmeta).
  assert ((Z.of_nat (length xs) >? Z.of_nat (length xs)) = false) as -> by lia.
  eexists. split; [done|]. simpl. unfold Engine.get, Engine.put.
  split; [by rewrite lookup_insert_eq|]. split; simpl.
  - unfold Engine.get. rewrite lookup_insert_ne; [done|].
    intros Heq%(inj (String.app db)). by apply slot_not_meta in Heq.
  - intros j x Hj. unfold Engine.get. apply lookup_lt_Some in Hj as Hlt.
    rewrite lookup_insert_ne; [by apply Hslots|].
    intros Heq%(inj (String.app db))%slot_inj. lia.
Qed.

End OrderedBounds.

(** C4. On the collection that holds [1, 2, 3], index 3 is not below the
    length, yet [get(3)] does not fail with the bounds error but with the
    engine's NotFound, and [set(3, 9)] succeeds: it writes slot 3 and the
    stored length is still 3, so the written value is outside what
    [length] and [toArray] show. Index 4 is refused by both and index 2
    is served by both. *)
Theorem bounds_check_admits_length :
  let db := Engine.sub Engine.root "testordered" in
  let c := (Ordered.exec db (Ordered.push [VNum 1; VNum 2; VNum 3])
              (Ordered.fresh {[ db +:+ META_KEY := VNum 0 ]})).2 in
  let c' := (Ordered.exec db (Ordered.set 3 (VNum 9)) c).2 in
  (Ordered.exec db Ordered.length c).1 = Resolved 3
  ∧ (Ordered.exec db (Ordered.get 3) c).1 = Rejected NotFound
  ∧ (Ordered.exec db (Ordered.set 3 (VNum 9)) c).1 = Resolved tt
  ∧ Engine.get db "3" (Ordered.store c') = Some (VNum 9)
  ∧ (Ordered.exec db Ordered.length c').1 = Resolved 3
  ∧ (Ordered.exec db Ordered.toArray c').1 = Resolved [VNum 1; VNum 2; VNum 3]
  ∧ (Ordered.exec db (Ordered.get 4) c).1
    = Rejected (Thrown "cannot read outside of bounds of array")
  ∧ (Ordered.exec db (Ordered.set 4 (VNum 9)) c).1
    = Rejected (Thrown "cannot write outside of bounds of array")
  ∧ (Ordered.exec db (Ordered.get 2) c).1 = Resolved (VNum 3).
Proof. vm_compute. repeat split. Qed.

Section OrderedPop.

Variable db : Engine.Handle.

(** [pop] once the lock and the length are read. *)
Lemma exec_pop c (len : Z) :
  Ordered.unlocked c →
  Engine.get db META_KEY (Ordered.store c) = Some (VNum len) →
  Ordered.exec db Ordered.pop c
  = match Engine.get db (Ordered.slot (len - 1)) (Ordered.store c) with
    | Some v =>
        (Resolved v,
         Ordered.mkColl
           (Engine.del db (Ordered.slot (len - 1))
              (Engine.put db META_KEY (VNum (len - 1)) (Ordered.store c)))
           (Ordered.LResolved v)
           (Ordered.ads_pop <$> Ordered.totalObservers c))
    | None =>
        (Pending,
         Ordered.mkColl (Ordered.store c) Ordered.LForever
           (Ordered.totalObservers c))
    end.
Proof.
  intros Hl Hmeta. unfold Ordered.pop. rewrite exec_bind.
  destruct (exec_await_lock db c Hl) as [v0 ->].
  cbn [Ordered.exec]. rewrite exec_bind, (exec_length db c len Hl Hmeta).
  rewrite exec_bind, exec_db_get.
  destruct (Engine.get db (Ordered.slot (len - 1)) (Ordered.store c)) as [v|];
    [|done].
  done.
Qed.

(** On a collection that is not empty, [pop] resolves with the last
    element; one batch stores the decremented length and deletes the
    slot, and the collection holds the elements before the last. *)
Lemma pop_nonempty c xs x :
  Ordered.unlocked c → Ordered.holds db c (xs ++ [x]) →
  ∃ c', Ordered.exec db Ordered.pop c = (Resolved x, c')
    ∧ Ordered.store c'
      = (Ordered.perform db
           (Ordered.RBatch
              [Ordered.BPut META_KEY (VNum (Z.of_nat (length (xs ++ [x])) - 1));
               Ordered.BDel (Ordered.slot (Z.of_nat (length (xs ++ [x])) - 1))])
           (Ordered.store c)).2
    ∧ Ordered.holds db c' xs
    ∧ Engine.get db (Ordered.slot (Z.of_nat (length xs))) (Ordered.store c')
      = None
    ∧ Ordered.unlocked c'.
Proof.
  intros Hl [Hmeta Hslots]. rewrite (exec_pop c _ Hl Hmeta).
  rewrite length_app in *. simpl length in *.
  replace (Z.of_nat (length xs + 1) - 1) with (Z.of_nat (length xs)) by lia.
  rewrite (Hslots (length xs) x) by (by rewrite lookup_app_r, Nat.sub_diag).
  eexists. split; [done|]. split; [done|]. simpl.
  unfold Ordered.holds, Engine.get, Engine.del, Engine.put. simpl.
  split; [split|split; [|done]].
  - rewrite lookup_delete_ne, lookup_insert_eq; [done|].
    intros Heq%(inj (String.app db)). by apply slot_not_meta in Heq.
  - intros i y Hi. apply lookup_lt_Some in Hi as Hlt.
    rewrite lookup_delete_ne, lookup_insert_ne.
    + apply Hslots. by rewrite lookup_app_l.
    + intros Heq%(inj (String.app db)). symmetry in Heq.
      by apply slot_not_meta in Heq.
    + intros Heq%(inj (String.app db))%slot_inj. lia.
  - apply lookup_delete_eq.
Qed.

(** On the empty collection whose slot [-1] is missing, the read of
    slot [len - 1] throws inside the executor of the lock promise:
    [pop] never settles, nothing is written, and the lock stays
    unresolved, so that no later call gets past [await this.lock]. *)
Lemma pop_empty c :
  Ordered.unlocked c → Ordered.holds db c [] →
  Engine.get db (Ordered.slot (-1)) (Ordered.store c) = None →
  Ordered.exec db Ordered.pop c
  = (Pending,
     Ordered.mkColl (Ordered.store c) Ordered.LForever
       (Ordered.totalObservers c)).
Proof.
  intros Hl [Hmeta _] Hnone. rewrite (exec_pop c _ Hl Hmeta).
  change (Z.of_nat (length (@nil Val)) - 1) with (-1).
  by rewrite Hnone.
Qed.

Lemma wedged_forever {R} (p : Ordered.Prog R) c :
  Ordered.lock c = Ordered.LForever →
  Ordered.exec db (Ordered.bind Ordered.await_lock (λ _, p)) c = (Pending, c).
Proof. apply exec_locked. Qed.

End OrderedPop.

(** C3. On a collection that was just created, whose length is 0,
    [pop()] does not fail: its promise never settles. The stored length
    and the slots are as before, but the lock is left unresolved, and
    [length()], [push(1)] and [toArray()] issued afterwards never settle
    either. The event loop shows the same in whatever order the engine
    completes requests: it comes to rest with no promise settled, for
    [pop()] and for the [length()] issued after it. *)
Theorem pop_on_empty_never_settles (sched : nat → nat) :
  match AurumDB.createOrderedCollection Engine.root "test" ∅ with
  | inr (db, st) =>
      let c := Ordered.fresh st in
      let c' := (Ordered.exec db Ordered.pop c).2 in
      let l1 :=
        Ordered.loop db 20 20 sched
          (Ordered.call 1 (Ordered.answer Ordered.AVal Ordered.pop)
             (Ordered.start st)) in
      let l2 :=
        Ordered.loop db 20 20 sched
          (Ordered.call 2 (Ordered.answer Ordered.ANum Ordered.length) l1) in
      ((Ordered.exec db Ordered.length c).1 = Resolved 0
       ∧ (Ordered.exec db Ordered.pop c).1 = Pending
       ∧ Ordered.store c' = Ordered.store c
       ∧ Ordered.lock c' = Ordered.LForever
       ∧ (Ordered.exec db Ordered.length c').1 = Pending
       ∧ (Ordered.exec db (Ordered.push [VNum 1]) c').1 = Pending
       ∧ (Ordered.exec db Ordered.toArray c').1 = Pending)
      ∧ (Ordered.idle l1 = true ∧ Ordered.l_settled l1 = []
         ∧ Ordered.l_store l1 = st
         ∧ Ordered.idle l2 = true ∧ Ordered.l_settled l2 = [])
  | inl _ => False
  end.
Proof. vm_compute. repeat split. Qed.

(** The calls of the test "pop from ordered collection", awaited. *)
Example pop_from_ordered_collection :
  let db := Engine.sub Engine.root "testordered" in
  let c0 := Ordered.fresh {[ db +:+ META_KEY := VNum 0 ]} in
  let c1 := (Ordered.exec db (Ordered.push [VNum 1]) c0).2 in
  let c2 := (Ordered.exec db (Ordered.push [VNum 2]) c1).2 in
  let c3 := (Ordered.exec db (Ordered.push [VNum 3]) c2).2 in
  let c4 := (Ordered.exec db Ordered.pop c3).2 in
  let c5 := (Ordered.exec db Ordered.pop c4).2 in
  (Ordered.exec db Ordered.pop c3).1 = Resolved (VNum 3)
  ∧ (Ordered.exec db Ordered.pop c4).1 = Resolved (VNum 2)
  ∧ (Ordered.exec db Ordered.length c5).1 = Resolved 1
  ∧ Engine.get db "1" (Ordered.store c5) = None
  ∧ Engine.get db "2" (Ordered.store c5) = None.
Proof. vm_compute. repeat split. Qed.

(** ** Ordered collection: calls issued without awaiting *)

Section OrderedLoop.

Variable db : Engine.Handle.

Lemma pick_in_picks {A} (n : nat) (q : list A) x rest :
  Ordered.pick n q = Some (x, rest) → (x, rest) ∈ Ordered.picks q.
Proof.
  revert n x rest. induction q as [|y q IH]; intros n x rest; simpl; [done|].
  destruct q as [|z q].
  { intros [= <- <-]. by left. }
  destruct n as [|n].
  { intros [= <- <-]. by left. }
  destruct (Ordered.pick n (z :: q)) as [[x' rest']|] eqn:Hp; [|done].
  intros [= <- <-]. right.
  apply list_elem_of_fmap. exists (x', rest'). split; [done|]. by eapply IH.
Qed.

Lemma pick_None {A} (n : nat) (q : list A) :
  Ordered.pick n q = None → q = [].
Proof.
  revert n. induction q as [|y q IH]; intros n; simpl; [done|].
  destruct q as [|z q]; [done|]. destruct n as [|n]; [done|].
  destruct (Ordered.pick n (z :: q)) eqn:Hp; [done|].
  by apply IH in Hp.
Qed.

(** Whatever order the engine follows, the loop ends in one of the states
    [loop_all] lists. *)
Lemma loop_in_loop_all turns ticks sched l :
  Ordered.loop db turns ticks sched l ∈ Ordered.loop_all db turns ticks l.
Proof.
  revert l. induction turns as [|turns IH]; intros l; simpl.
  { by left. }
  destruct (Ordered.pick (sched turns) _) as [[pd rest]|] eqn:Hp.
  - destruct (Ordered.l_inflight (Ordered.drain ticks l)) as [|pd0 q] eqn:Hq;
      [done|].
    apply list_elem_of_join. eexists. split; [apply IH|].
    apply list_elem_of_fmap. exists (pd, rest). split; [done|].
    by eapply pick_in_picks.
  - apply pick_None in Hp. rewrite Hp. by left.
Qed.

(** When nothing is left to run, nothing ever happens again. *)
Lemma loop_quiescent turns ticks sched l :
  Ordered.quiescent l → Ordered.loop db turns ticks sched l = l.
Proof.
  intros [Hm Hq].
  assert (Ordered.drain ticks l = l) as Hd.
  { destruct ticks; simpl; [done|]. by rewrite Hm. }
  destruct turns; simpl; rewrite Hd; [done|]. by rewrite Hq.
Qed.

End OrderedLoop.

(** The run of the test "push into ordered collection": three [push]
    calls with the values 1, 2, 3 are issued without awaiting. In
    whatever order the engine completes requests, the three promises
    resolve, and [length()] and [toArray()] issued afterwards resolve
    with 3 and [1, 2, 3]. *)
Lemma three_unawaited_pushes (sched : nat → nat) :
  let db := Engine.sub Engine.root "testordered" in
  let push v := Ordered.answer Ordered.AVal (Ordered.push [VNum v]) in
  let l0 := Ordered.start {[ db +:+ META_KEY := VNum 0 ]} in
  let l1 := Ordered.loop db 20 20 sched
              (Ordered.call 3 (push 3)
                 (Ordered.call 2 (push 2) (Ordered.call 1 (push 1) l0))) in
  let l2 := Ordered.loop db 20 20 sched
              (Ordered.call 4 (Ordered.answer Ordered.ANum Ordered.length) l1) in
  let l3 := Ordered.loop db 20 20 sched
              (Ordered.call 5 (Ordered.answer Ordered.AList Ordered.toArray) l2) in
  Ordered.l_settled l3
  = [(1%nat, Resolved (Ordered.AVal VUndef));
     (2%nat, Resolved (Ordered.AVal VUndef));
     (3%nat, Resolved (Ordered.AVal VUndef));
     (4%nat, Resolved (Ordered.ANum 3));
     (5%nat, Resolved (Ordered.AList [VNum 1; VNum 2; VNum 3]))]
  ∧ Ordered.l_micro l3 = [] ∧ Ordered.l_inflight l3 = [].
Proof. vm_compute. repeat split. Qed.

Lemma idle_quiescent (l : Ordered.Loop) :
  Ordered.idle l = true → Ordered.quiescent l.
Proof.
  unfold Ordered.idle, Ordered.quiescent.
  by destruct (Ordered.l_micro l), (Ordered.l_inflight l).
Qed.

(** The same two calls over every order in which the engine may complete
    the requests in flight: what slot 0 and the length record hold when
    the loop has come to rest, and how many promises have settled. Of the
    five orders one leaves the collection [1]; it is the one in which the
    engine serves the rewrite of the length record before the read of the
    length that was issued earlier. *)
Lemma unawaited_clear_then_push_all_orders :
  let db := Engine.sub Engine.root "testordered" in
  let st : gmap string Val :=
    {[ db +:+ META_KEY := VNum 1; db +:+ "0" := VStr "a" ]} in
  let clear := Ordered.answer (λ _, Ordered.AUnit) Ordered.clear in
  let push := Ordered.answer Ordered.AVal (Ordered.push [VNum 1]) in
  let issued := Ordered.call 2 push (Ordered.call 1 clear (Ordered.start st)) in
  (λ l, (Ordered.idle l, Engine.get db "0" (Ordered.l_store l),
         Engine.get db META_KEY (Ordered.l_store l),
         length (Ordered.l_settled l)))
  <$> Ordered.loop_all db 20 20 issued
  = [(true, None, Some (VNum 0), 1%nat);
     (true, Some (VNum 1), Some (VNum 1), 2%nat);
     (true, None, Some (VNum 0), 2%nat);
     (true, None, Some (VNum 2), 2%nat);
     (true, None, Some (VNum 0), 2%nat)].
Proof. vm_compute. reflexivity. Qed.

(** C2. The collection holds one element; [clear()] and then [push(1)]
    are issued without awaiting. Run one after the other in the order of
    issue, they leave the collection [1], of length 1. Issued without
    awaiting, on an engine that serves requests in the order of their
    issue: [clear] does not install itself in the lock chain, so [push]
    reads the length while [clear] is under way, between the wipe and
    the rewrite of the length record; the read fails inside the executor
    of the lock promise, [push(1)] never settles, its element is never
    written, and a [length()] issued afterwards never settles either. *)
Theorem unawaited_clear_then_push :
  let db := Engine.sub Engine.root "testordered" in
  let st : gmap string Val :=
    {[ db +:+ META_KEY := VNum 1; db +:+ "0" := VStr "a" ]} in
  let clear := Ordered.answer (λ _, Ordered.AUnit) Ordered.clear in
  let push := Ordered.answer Ordered.AVal (Ordered.push [VNum 1]) in
  let length := Ordered.answer Ordered.ANum Ordered.length in
  let issued := Ordered.call 2 push (Ordered.call 1 clear (Ordered.start st)) in
  let c2 :=
    (Ordered.exec db (Ordered.push [VNum 1])
       (Ordered.exec db Ordered.clear (Ordered.fresh st)).2).2 in
  let l := Ordered.loop db 20 20 Ordered.fifo issued in
  let l' := Ordered.loop db 20 20 Ordered.fifo (Ordered.call 3 length l) in
  ((Ordered.exec db Ordered.toArray c2).1 = Resolved [VNum 1]
   ∧ (Ordered.exec db Ordered.length c2).1 = Resolved 1)
  ∧ Ordered.l_settled l = [(1%nat, Resolved Ordered.AUnit)]
  ∧ Ordered.l_store l = {[ db +:+ META_KEY := VNum 0 ]}
  ∧ Ordered.quiescent l
  ∧ Ordered.l_settled l' = [(1%nat, Resolved Ordered.AUnit)]
  ∧ Ordered.quiescent l'.
Proof. vm_compute. repeat split. Qed.

(** Single calls in the event loop, each awaited before the next is
    issued, end as [exec] says, in whatever order the engine completes
    requests: [pop] on the new collection never settles and blocks the
    [length] that follows; on [1, 2, 3], [get(3)] is refused by the
    engine and [set(3, 9)] resolves. *)
Example awaited_calls_in_the_loop (sched : nat → nat) :
  let db := Engine.sub Engine.root "testordered" in
  let l0 := Ordered.start {[ db +:+ META_KEY := VNum 0 ]} in
  let run id p l := Ordered.loop db 20 20 sched (Ordered.call id p l) in
  let l1 := run 1%nat (Ordered.answer Ordered.AVal Ordered.pop) l0 in
  let l2 := run 2%nat (Ordered.answer Ordered.ANum Ordered.length) l1 in
  let m1 := run 1%nat (Ordered.answer Ordered.AVal
                         (Ordered.push [VNum 1; VNum 2; VNum 3])) l0 in
  let m2 := run 2%nat (Ordered.answer Ordered.AVal (Ordered.get 3)) m1 in
  let m3 := run 3%nat (Ordered.answer (λ _, Ordered.AUnit)
                         (Ordered.set 3 (VNum 9))) m2 in
  let m4 := run 4%nat (Ordered.answer Ordered.AList Ordered.toArray) m3 in
  let m5 := run 5%nat (Ordered.answer Ordered.AVal Ordered.pop) m4 in
  let m6 := run 6%nat (Ordered.answer Ordered.AList (Ordered.slice 0 2)) m5 in
  Ordered.l_settled l2 = [] ∧ Ordered.idle l2 = true
  ∧ Ordered.l_store l2 = {[ db +:+ META_KEY := VNum 0 ]}
  ∧ Ordered.l_settled m6
    = [(1%nat, Resolved (Ordered.AVal VUndef));
       (2%nat, Rejected NotFound);
       (3%nat, Resolved Ordered.AUnit);
       (4%nat, Resolved (Ordered.AList [VNum 1; VNum 2; VNum 3]));
       (5%nat, Resolved (Ordered.AVal (VNum 3)));
       (6%nat, Resolved (Ordered.AList [VNum 1; VNum 2]))]
  ∧ Ordered.idle m6 = true.
Proof. vm_compute. repeat split. Qed.

Section OrderedPush.

Variable db : Engine.Handle.





End OrderedPush.
(** ** Namespace manager: creation, opening and deletion *)

Lemma create_unfold (k : Kind) db name now st :
  AurumDB.create k db name now st
  = if AurumDB.hasKind k db name st
    then inl (Thrown (AurumDB.already_exists k name))
    else inr (Engine.sub db (name +:+ suffix k),
              Engine.put db (makeSubDbId (name +:+ suffix k) META_KEY)
                (AurumDB.initial_meta k now) st).
Proof. by destruct k. Qed.

Lemma open_unfold (k : Kind) db name st :
  AurumDB.open k db name st
  = if AurumDB.hasKind k db name st
    then inr (Engine.sub db (name +:+ suffix k))
    else inl (Thrown (AurumDB.does_not_exist k name)).
Proof. by destruct k. Qed.

Lemma createOrGet_unfold (k : Kind) db name now st :
  AurumDB.createOrGet k db name now st
  = if AurumDB.hasKind k db name st
    then inr (Engine.sub db (name +:+ suffix k), st)
    else AurumDB.create k db name now st.
Proof. by destruct k. Qed.

Lemma delete_unfold (k : Kind) db name st :
  AurumDB.delete k db name st
  = if AurumDB.hasKind k db name st
    then inr (Engine.clear (Engine.sub db (name +:+ suffix k)) st)
    else inl (Thrown (AurumDB.does_not_exist k name)).
Proof.
  destruct k; simpl.
  - unfold AurumDB.deleteIndex, AurumDB.getIndex.
    by destruct (AurumDB.hasIndex db name st).
  - unfold AurumDB.deleteOrderedCollection, AurumDB.getOrderedCollection.
    by destruct (AurumDB.hasOrderedCollection db name st).
  - unfold AurumDB.deletedLinkedCollection, AurumDB.getLinkedCollection.
    by destruct (AurumDB.hasLinkedCollection db name st).
Qed.

Lemma hasKind_put_meta (k : Kind) db name v st :
  AurumDB.hasKind k db name
    (Engine.put db (makeSubDbId (name +:+ suffix k) META_KEY) v st) = true.
Proof.
  rewrite hasKind_unfold. unfold AurumDB.has, Engine.get, Engine.put.
  by rewrite lookup_insert_eq.
Qed.

Lemma hasKind_lookup (k : Kind) db name st :
  AurumDB.hasKind k db name st
  = bool_decide (is_Some (st !! (Engine.sub db (name +:+ suffix k) +:+ META_KEY))).
Proof.
  rewrite hasKind_unfold, <- meta_key_of_sub.
  unfold AurumDB.has, Engine.get.
  destruct (st !! _) eqn:E; symmetry.
  - by apply bool_decide_eq_true.
  - apply bool_decide_eq_false. by intros [? ?].
Qed.

Lemma engine_clear_inside h key st :
  String.prefix h key = true → Engine.clear h st !! key = None.
Proof.
  intros Hp. unfold Engine.clear. apply map_lookup_filter_None. right.
  intros v _. simpl. by rewrite Hp.
Qed.

Lemma engine_clear_outside h key st :
  String.prefix h key = false → Engine.clear h st !! key = st !! key.
Proof.
  intros Hp. unfold Engine.clear.
  destruct (st !! key) as [v|] eqn:E.
  - by apply map_lookup_filter_Some.
  - apply map_lookup_filter_None. by left.
Qed.

(** X1. Once a collection of kind [k] has been created under a name, a
    second creation of the same kind under the same name is rejected with
    the "already exists" error of that kind. *)
Theorem create_twice_rejected (k : Kind) (db : Engine.Handle)
    (name now now' : string) (st st' : gmap string Val) (h : Engine.Handle) :
  AurumDB.create k db name now st = inr (h, st') →
  AurumDB.create k db name now' st'
  = inl (Thrown (AurumDB.already_exists k name)).
Proof.
  rewrite !create_unfold.
  destruct (AurumDB.hasKind k db name st); [done|].
  intros [= <- <-]. by rewrite hasKind_put_meta.
Qed.

Lemma create_twice_rejected_witness :
  AurumDB.create KIndex Engine.root "test" "2020-01-02T00:00:00.000Z"
    {[ "!testindex!!!meta!!" := VStr "2020-01-01T00:00:00.000Z" ]}
  = inl (Thrown "Index test already exists").
Proof.
  apply (create_twice_rejected KIndex Engine.root "test"
           "2020-01-01T00:00:00.000Z" "2020-01-02T00:00:00.000Z" ∅
           {[ "!testindex!!!meta!!" := VStr "2020-01-01T00:00:00.000Z" ]}
           "!testindex!").
  reflexivity.
Defined.

(** X2. The handle [create] returns is the one the matching getter
    returns afterwards; through it the metadata record reads as the value
    the collection was created with (the creation time of an index, the
    length 0 of a collection), and no other key of the store changed. *)
Theorem create_then_open (k : Kind) (db : Engine.Handle) (name now : string)
    (st st' : gmap string Val) (h : Engine.Handle) :
  AurumDB.create k db name now st = inr (h, st') →
  AurumDB.open k db name st' = inr h
  ∧ Engine.get h META_KEY st' = Some (AurumDB.initial_meta k now)
  ∧ ∀ key, key ≠ h +:+ META_KEY → st' !! key = st !! key.
Proof.
  rewrite create_unfold.
  destruct (AurumDB.hasKind k db name st); [done|].
  intros [= <- <-]. split; [|split].
  - by rewrite open_unfold, hasKind_put_meta.
  - unfold Engine.get, Engine.put. rewrite meta_key_of_sub.
    by rewrite lookup_insert_eq.
  - intros key Hkey. unfold Engine.put. rewrite meta_key_of_sub.
    by rewrite lookup_insert_ne.
Qed.

Lemma create_then_open_witness :
  AurumDB.open KOrdered Engine.root "test" {[ "!testordered!!!meta!!" := VNum 0 ]}
  = inr "!testordered!"
  ∧ Engine.get "!testordered!" META_KEY
      ({[ "!testordered!!!meta!!" := VNum 0 ]} : gmap string Val)
    = Some (AurumDB.initial_meta KOrdered "")
  ∧ ∀ key, key ≠ "!testordered!" +:+ META_KEY →
      ({[ "!testordered!!!meta!!" := VNum 0 ]} : gmap string Val) !! key
      = (∅ : gmap string Val) !! key.
Proof.
  apply (create_then_open KOrdered Engine.root "test" "" ∅).
  reflexivity.
Defined.

(** X3. [createOrGet...] always succeeds with the handle of the
    partition of that name and kind, and the collection exists
    afterwards. On a collection that is already there it writes nothing,
    so the metadata record is never overwritten, and calling it again
    gives the same handle and the same store. *)
Theorem createOrGet_idempotent (k : Kind) (db : Engine.Handle)
    (name now now' : string) (st : gmap string Val) :
  ∃ st',
    AurumDB.createOrGet k db name now st
    = inr (Engine.sub db (name +:+ suffix k), st')
    ∧ AurumDB.hasKind k db name st' = true
    ∧ (AurumDB.hasKind k db name st = true → st' = st)
    ∧ AurumDB.createOrGet k db name now' st'
      = inr (Engine.sub db (name +:+ suffix k), st').
Proof.
  rewrite createOrGet_unfold, create_unfold.
  destruct (AurumDB.hasKind k db name st) eqn:Hhas.
  - exists st. rewrite createOrGet_unfold, Hhas. by repeat split.
  - eexists. split; [done|].
    rewrite createOrGet_unfold, hasKind_put_meta. by repeat split.
Qed.

(** X4. Deleting a collection that exists succeeds: afterwards the
    existence check is false, the getter is rejected, every key of the
    partition is gone, every key outside of it is as before, and the name
    can be created again. Deleting a collection that does not exist is
    rejected with the "does not exist" error. *)
Theorem delete_removes (k : Kind) (db : Engine.Handle) (name now : string)
    (st : gmap string Val) :
  (AurumDB.hasKind k db name st = true →
   ∃ st',
     AurumDB.delete k db name st = inr st'
     ∧ AurumDB.hasKind k db name st' = false
     ∧ AurumDB.open k db name st'
       = inl (Thrown (AurumDB.does_not_exist k name))
     ∧ (∀ key, Engine.get (Engine.sub db (name +:+ suffix k)) key st' = None)
     ∧ (∀ key, String.prefix (Engine.sub db (name +:+ suffix k)) key = false →
          st' !! key = st !! key)
     ∧ ∃ st'', AurumDB.create k db name now st'
               = inr (Engine.sub db (name +:+ suffix k), st''))
  ∧ (AurumDB.hasKind k db name st = false →
     AurumDB.delete k db name st
     = inl (Thrown (AurumDB.does_not_exist k name))).
Proof.
  rewrite delete_unfold. split; intros ->; [|done].
  eexists. split; [done|].
  assert (AurumDB.hasKind k db name
            (Engine.clear (Engine.sub db (name +:+ suffix k)) st) = false)
    as Hgone.
  { rewrite hasKind_lookup. apply bool_decide_eq_false.
    rewrite engine_clear_inside; [by intros [? ?]|apply prefix_app]. }
  split; [done|]. split; [by rewrite open_unfold, Hgone|].
  split; [|split].
  - intros key. unfold Engine.get. apply engine_clear_inside, prefix_app.
  - intros key Hkey. by apply engine_clear_outside.
  - rewrite create_unfold, Hgone. eauto.
Qed.

Lemma delete_removes_witness :
  let st : gmap string Val :=
    {[ "!testindex!!!meta!!" := VStr "2020-01-01T00:00:00.000Z";
       "!testindex!hello" := VStr "world" ]} in
  ∃ st',
    AurumDB.delete KIndex Engine.root "test" st = inr st'
    ∧ AurumDB.hasKind KIndex Engine.root "test" st' = false
    ∧ AurumDB.open KIndex Engine.root "test" st'
      = inl (Thrown (AurumDB.does_not_exist KIndex "test"))
    ∧ (∀ key, Engine.get (Engine.sub Engine.root ("test" +:+ suffix KIndex))
                key st' = None)
    ∧ (∀ key, String.prefix (Engine.sub Engine.root ("test" +:+ suffix KIndex))
                key = false →
         st' !! key = st !! key)
    ∧ ∃ st'', AurumDB.create KIndex Engine.root "test" "" st'
              = inr (Engine.sub Engine.root ("test" +:+ suffix KIndex), st'').
Proof.
  intros st.
  apply (proj1 (delete_removes KIndex Engine.root "test" "" st)).
  reflexivity.
Defined.

Lemma prefix_cons (c d : ascii) (a b : string) :
  String.prefix (String c a) (String d b)
  = if Ascii.ascii_dec c d then String.prefix a b else false.
Proof. done. Qed.

Lemma includes_bang_cons (c : ascii) (s : string) :
  includes_bang (String c s)
  = if decide (c = "!"%char) then true else includes_bang s.
Proof. done. Qed.

Lemma prefix_app_cancel (h a b : string) :
  String.prefix (h +:+ a) (h +:+ b) = String.prefix a b.
Proof.
  induction h as [|c h IH]; [done|].
  change (String.prefix (String c (h +:+ a)) (String c (h +:+ b))
          = String.prefix a b).
  simpl. destruct (Ascii.ascii_dec c c); [done|congruence].
Qed.

Lemma includes_bang_app (a b : string) :
  includes_bang (a +:+ b) = includes_bang a || includes_bang b.
Proof.
  induction a as [|c a IH]; [done|].
  change (includes_bang (String c (a +:+ b))
          = includes_bang (String c a) || includes_bang b).
  rewrite !includes_bang_cons. by case_decide.
Qed.

(** Two names without the delimiter, each followed by the delimiter:
    when one is a prefix of the other the names are the same. *)
Lemma prefix_delimited (a b x y : string) :
  includes_bang a = false → includes_bang b = false →
  String.prefix (a +:+ "!" +:+ x) (b +:+ "!" +:+ y) = true → a = b.
Proof.
  revert b. induction a as [|c a IH]; intros [|d b] Ha Hb Hp; [done|..].
  - change (String.prefix (String "!" x) (String d (b +:+ "!" +:+ y)) = true)
      in Hp.
    rewrite prefix_cons in Hp. rewrite includes_bang_cons in Hb.
    destruct (Ascii.ascii_dec "!" d) as [<-|]; [|done].
    by rewrite decide_True in Hb.
  - change (String.prefix (String c (a +:+ "!" +:+ x)) (String "!" y) = true)
      in Hp.
    rewrite prefix_cons in Hp. rewrite includes_bang_cons in Ha.
    destruct (Ascii.ascii_dec c "!") as [->|]; [|done].
    by rewrite decide_True in Ha.
  - change (String.prefix (String c (a +:+ "!" +:+ x))
              (String d (b +:+ "!" +:+ y)) = true) in Hp.
    rewrite prefix_cons in Hp. rewrite includes_bang_cons in Ha, Hb.
    destruct (Ascii.ascii_dec c d) as [->|]; [|done].
    destruct (decide (d = "!"%char)); [done|]. f_equal. by apply IH.
Qed.

Lemma list_ascii_of_string_app (a b : string) :
  String.list_ascii_of_string (a +:+ b)
  = String.list_ascii_of_string a ++ String.list_ascii_of_string b.
Proof.
  induction a as [|c a IH]; [done|].
  change (c :: String.list_ascii_of_string (a +:+ b)
          = c :: (String.list_ascii_of_string a ++ String.list_ascii_of_string b)).
  by rewrite IH.
Qed.

(** The name and the kind can be read back from the name of the
    partition. *)
Lemma partition_name_inj (k k' : Kind) (name name' : string) :
  name +:+ suffix k = name' +:+ suffix k' → name = name' ∧ k = k'.
Proof.
  intros H. apply (f_equal String.list_ascii_of_string) in H.
  rewrite !list_ascii_of_string_app in H.
  apply (f_equal reverse) in H. rewrite !reverse_app in H.
  assert (k = k') as <-.
  { destruct k, k'; try done; vm_compute in H; simplify_eq. }
  split; [|done].
  apply app_inv_head in H. apply (inj reverse) in H.
  rewrite <- (String.string_of_list_ascii_of_string name),
          <- (String.string_of_list_ascii_of_string name').
  by rewrite H.
Qed.

Lemma sub_prefix (db N N' key : string) :
  String.prefix (Engine.sub db N) (Engine.sub db N' +:+ key)
  = String.prefix (N +:+ "!" +:+ "") (N' +:+ "!" +:+ key).
Proof.
  unfold Engine.sub. rewrite (string_app_assoc db), prefix_app_cancel.
  rewrite (string_app_assoc "!"), (prefix_app_cancel "!").
  by rewrite string_app_assoc.
Qed.

(** X5. Deleting a collection leaves every other collection of the same
    database alone, whatever its kind: for names without the delimiter
    ["!"], a collection of another name or another kind exists afterwards
    exactly when it did before, and every record of its partition is as
    before. *)
Theorem delete_keeps_other_collections (k k' : Kind) (db : Engine.Handle)
    (name name' : string) (st st' : gmap string Val) :
  includes_bang name = false →
  includes_bang name' = false →
  (k', name') ≠ (k, name) →
  AurumDB.delete k db name st = inr st' →
  AurumDB.hasKind k' db name' st' = AurumDB.hasKind k' db name' st
  ∧ ∀ key,
      Engine.get (Engine.sub db (name' +:+ suffix k')) key st'
      = Engine.get (Engine.sub db (name' +:+ suffix k')) key st.
Proof.
  intros Hname Hname' Hne. rewrite delete_unfold.
  destruct (AurumDB.hasKind k db name st); [|done]. intros [= <-].
  assert (∀ key,
    Engine.get (Engine.sub db (name' +:+ suffix k')) key
      (Engine.clear (Engine.sub db (name +:+ suffix k)) st)
    = Engine.get (Engine.sub db (name' +:+ suffix k')) key st) as Hframe.
  { intros key. unfold Engine.get. apply engine_clear_outside.
    destruct (String.prefix _ _) eqn:Hp; [|done]. exfalso.
    rewrite sub_prefix in Hp. apply prefix_delimited in Hp.
    - apply partition_name_inj in Hp as [-> ->]. by apply Hne.
    - rewrite includes_bang_app, Hname. by destruct k.
    - rewrite includes_bang_app, Hname'. by destruct k'. }
  split; [|done].
  rewrite !hasKind_unfold. unfold AurumDB.has.
  unfold Engine.get in *. rewrite !meta_key_of_sub. by rewrite Hframe.
Qed.

Lemma delete_keeps_other_collections_witness :
  let st : gmap string Val :=
    {[ "!aindex!!!meta!!" := VStr "2020-01-01T00:00:00.000Z";
       "!aordered!!!meta!!" := VNum 1; "!aordered!0" := VStr "x" ]} in
  let st' : gmap string Val :=
    {[ "!aordered!!!meta!!" := VNum 1; "!aordered!0" := VStr "x" ]} in
  AurumDB.hasKind KOrdered Engine.root "a" st'
  = AurumDB.hasKind KOrdered Engine.root "a" st
  ∧ ∀ key,
      Engine.get (Engine.sub Engine.root ("a" +:+ suffix KOrdered)) key st'
      = Engine.get (Engine.sub Engine.root ("a" +:+ suffix KOrdered)) key st.
Proof.
  intros st st'.
  apply (delete_keeps_other_collections KIndex KOrdered Engine.root "a" "a").
  - reflexivity.
  - reflexivity.
  - discriminate.
  - vm_compute. reflexivity.
Defined.

(** X6. [clear()] of a linked collection empties the whole partition,
    the metadata record included: the collection does not exist any
    more, the keys outside of its partition are as before, and the name
    can be created again. *)
Theorem linked_clear_removes_collection (db : Engine.Handle) (name : string)
    (st st1 : gmap string Val) (h : Engine.Handle) :
  AurumDB.createLinkedCollection db name st = inr (h, st1) →
  AurumDB.hasLinkedCollection db name (Linked.clear h st1) = false
  ∧ (∀ key, Engine.get h key (Linked.clear h st1) = None)
  ∧ (∀ key, String.prefix h key = false →
       Linked.clear h st1 !! key = st1 !! key)
  ∧ ∃ st2, AurumDB.createLinkedCollection db name (Linked.clear h st1)
           = inr (h, st2).
Proof.
  intros Hc. pose proof (create_unfold KLinked db name "" st) as Hu.
  simpl in Hu. rewrite Hc in Hu.
  destruct (AurumDB.hasLinkedCollection db name st); [done|].
  injection Hu as -> _. unfold Linked.clear.
  assert (AurumDB.hasKind KLinked db name
            (Engine.clear (Engine.sub db (name +:+ suffix KLinked)) st1)
          = false) as Hgone.
  { rewrite hasKind_lookup. apply bool_decide_eq_false.
    rewrite engine_clear_inside; [by intros [? ?]|apply prefix_app]. }
  split; [done|]. split; [|split].
  - intros key. apply engine_clear_inside, prefix_app.
  - intros key. apply engine_clear_outside.
  - pose proof (create_unfold KLinked db name ""
                  (Engine.clear (Engine.sub db (name +:+ suffix KLinked)) st1))
      as Hu'.
    rewrite Hgone in Hu'. eauto.
Qed.

Lemma linked_clear_removes_collection_witness :
  let h := "!queuelinked!" in
  let st1 : gmap string Val := {[ "!queuelinked!!!meta!!" := VNum 0 ]} in
  AurumDB.hasLinkedCollection Engine.root "queue" (Linked.clear h st1) = false
  ∧ (∀ key, Engine.get h key (Linked.clear h st1) = None)
  ∧ (∀ key, String.prefix h key = false →
       Linked.clear h st1 !! key = st1 !! key)
  ∧ ∃ st2, AurumDB.createLinkedCollection Engine.root "queue"
             (Linked.clear h st1)
           = inr (h, st2).
Proof.
  intros h st1.
  apply (linked_clear_removes_collection Engine.root "queue" ∅).
  reflexivity.
Defined.

(** ** Index: reads after writes *)

Section IndexExtra.

Variable db : Engine.Handle.
Variable config : Config.

Lemma store_db_put k v s :
  Index.store (Index.db_put db k v s) = Engine.put db k v (Index.store s).
Proof. unfold Index.db_put. by rewrite store_handle. Qed.

Lemma store_db_del k s :
  Index.store (Index.db_del db k s) = Engine.del db k (Index.store s).
Proof. unfold Index.db_del. by rewrite store_handle. Qed.

Lemma engine_get_put k v key st :
  Engine.get db key (Engine.put db k v st)
  = if decide (k = key) then Some v else Engine.get db key st.
Proof.
  unfold Engine.get, Engine.put. case_decide as Hk.
  - subst. by rewrite lookup_insert_eq.
  - rewrite lookup_insert_ne; [done|]. by intros ?%(inj (String.app db)).
Qed.

Lemma engine_get_del k key st :
  Engine.get db key (Engine.del db k st)
  = if decide (k = key) then None else Engine.get db key st.
Proof.
  unfold Engine.get, Engine.del. case_decide as Hk.
  - subst. by rewrite lookup_delete_eq.
  - rewrite lookup_delete_ne; [done|]. by intros ?%(inj (String.app db)).
Qed.

Lemma index_get_unfold key s :
  Index.get db key s
  = match Engine.get db key (Index.store s) with
    | Some v => Resolved v
    | None => Rejected NotFound
    end.
Proof. done. Qed.

Lemma index_has_unfold key s :
  Index.has db key s
  = match Engine.get db key (Index.store s) with
    | Some _ => true
    | None => false
    end.
Proof. done. Qed.

End IndexExtra.

(** X7. What a write to an index leaves for the reads that follow.
    After [set(key, value)] the key reads back as [value] and [has] is
    true; with [autoDeleteOnSetUndefined] and a value that is [undefined]
    or [null] the key is deleted instead: [get] fails with NotFound and
    [has] is false. After [delete(key)], [get] fails with NotFound and
    [has] is false. Neither changes what any other key reads as. *)
Theorem index_write_then_read (db : Engine.Handle) (config : Config)
    (key : string) (value : Val) (s : Index.State) :
  let s1 := Index.set db config key value s in
  let s2 := Index.delete db key s in
  Index.get db key s1
  = (if autoDeleteOnSetUndefined config && Index.is_nullish value
     then Rejected NotFound else Resolved value)
  ∧ Index.has db key s1
    = negb (autoDeleteOnSetUndefined config && Index.is_nullish value)
  ∧ Index.get db key s2 = Rejected NotFound
  ∧ Index.has db key s2 = false
  ∧ ∀ k, k ≠ key →
      Index.get db k s1 = Index.get db k s
      ∧ Index.get db k s2 = Index.get db k s.
Proof.
  intros s1 s2. subst s1 s2.
  rewrite !index_get_unfold, !index_has_unfold.
  unfold Index.delete. rewrite store_set, store_db_del.
  split; [|split; [|split; [|split]]].
  - destruct (autoDeleteOnSetUndefined config && Index.is_nullish value).
    + by rewrite engine_get_del, decide_True.
    + by rewrite engine_get_put, decide_True.
  - destruct (autoDeleteOnSetUndefined config && Index.is_nullish value).
    + by rewrite engine_get_del, decide_True.
    + by rewrite engine_get_put, decide_True.
  - by rewrite engine_get_del, decide_True.
  - by rewrite engine_get_del, decide_True.
  - intros k Hk. rewrite !index_get_unfold, store_set, store_db_del.
    destruct (autoDeleteOnSetUndefined config && Index.is_nullish value).
    + by rewrite !engine_get_del, !decide_False.
    + by rewrite engine_get_put, engine_get_del, !decide_False.
Qed.

(** ** Index: a per-key observer follows the store *)

Section IndexTracking.

Variable db : Engine.Handle.
Variable config : Config.

Lemma update_all_const (v : Val) (ids : list nat) (heap : gmap nat Val) ds :
  ds ∈ ids →
  Index.update_all (λ _, v) ids heap !! ds = (λ _, v) <$> heap !! ds.
Proof.
  unfold Index.update_all. revert heap.
  induction ids as [|x ids IH]; intros heap Hin; simpl;
    [by apply elem_of_nil in Hin|].
  destruct (decide (ds ∈ ids)) as [Hds|Hds].
  - rewrite IH by done. destruct (decide (x = ds)) as [->|Hne].
    + rewrite lookup_alter_eq. by destruct (heap !! ds).
    + by rewrite lookup_alter_ne.
  - apply elem_of_cons in Hin as [->|Hin]; [|done].
    fold (Index.update_all (λ _, v) ids (alter (λ _, v) x heap)).
    rewrite update_all_notin by done. apply lookup_alter_eq.
Qed.

Lemma update_lists_stable (v : Val) (L : list (list nat))
    (heap : gmap nat Val) ds (x : option Val) :
  heap !! ds = (λ _, v) <$> x →
  foldl (λ h dss, Index.update_all (λ _, v) dss h) heap L !! ds
  = (λ _, v) <$> x.
Proof.
  revert heap. induction L as [|dss L IH]; intros heap Hx; simpl; [done|].
  apply IH. destruct (decide (ds ∈ dss)) as [Hds|Hds].
  - rewrite update_all_const, Hx by done. by destruct x.
  - by rewrite update_all_notin.
Qed.

Lemma update_lists_hit (v : Val) (L : list (list nat))
    (heap : gmap nat Val) ds dss :
  dss ∈ L → ds ∈ dss →
  foldl (λ h dss, Index.update_all (λ _, v) dss h) heap L !! ds
  = (λ _, v) <$> heap !! ds.
Proof.
  revert heap. induction L as [|dss' L IH]; intros heap HL Hds; simpl;
    [by apply elem_of_nil in HL|].
  destruct (decide (ds ∈ dss')) as [Hin|Hin].
  - apply update_lists_stable. by apply update_all_const.
  - apply elem_of_cons in HL as [->|HL]; [done|].
    rewrite IH by done. by rewrite update_all_notin.
Qed.

Lemma onKeyChange_tracked k v s key ds :
  Index.registered_under s key ds →
  Index.dataSources (Index.onKeyChange k v s) !! ds
  = if decide (k = key) then (λ _, v) <$> Index.dataSources s !! ds
    else Index.dataSources s !! ds.
Proof.
  intros (dss & Hkey & Hnd & Hin & Hother). simpl. case_decide as Hk.
  - subst. rewrite Hkey. by apply update_all_const.
  - destruct (Index.keyObservers s !! k) as [dss'|] eqn:Hk'; [|done].
    apply update_all_notin. by eapply Hother.
Qed.

Lemma onClear_tracked s key ds :
  Index.registered_under s key ds →
  Index.dataSources (Index.onClear s) !! ds
  = (λ _, VUndef) <$> Index.dataSources s !! ds.
Proof.
  intros (dss & Hkey & Hnd & Hin & Hother). simpl.
  apply (update_lists_hit VUndef _ _ ds dss); [|done].
  apply list_elem_of_fmap. exists (key, dss). split; [done|].
  by apply elem_of_map_to_list.
Qed.

Lemma tracks_db_put k v s key ds :
  Index.tracks db s key ds → Index.tracks db (Index.db_put db k v s) key ds.
Proof.
  intros [Hreg Hval]. split; [done|].
  rewrite store_db_put, engine_get_put. unfold Index.db_put. simpl Index.handle.
  rewrite (onKeyChange_tracked k v _ key ds) by done.
  case_decide; [|done]. simpl. by rewrite Hval.
Qed.

Lemma tracks_db_del k s key ds :
  Index.tracks db s key ds → Index.tracks db (Index.db_del db k s) key ds.
Proof.
  intros [Hreg Hval]. split; [done|].
  rewrite store_db_del, engine_get_del. unfold Index.db_del. simpl Index.handle.
  rewrite (onKeyChange_tracked k VUndef _ key ds) by done.
  case_decide; [|done]. simpl. by rewrite Hval.
Qed.

Lemma tracks_db_clear s key ds :
  Index.tracks db s key ds → Index.tracks db (Index.db_clear db s) key ds.
Proof.
  intros [Hreg Hval]. split; [done|].
  rewrite store_db_clear, engine_clear_get. unfold Index.db_clear.
  simpl Index.handle.
  rewrite (onClear_tracked _ key ds) by done. simpl. by rewrite Hval.
Qed.

Lemma tracks_set k v s key ds :
  Index.tracks db s key ds → Index.tracks db (Index.set db config k v s) key ds.
Proof.
  intros H. unfold Index.set.
  destruct (autoDeleteOnSetUndefined config && Index.is_nullish v);
    [by apply tracks_db_del|by apply tracks_db_put].
Qed.

Lemma tracks_mutation m s key ds :
  Index.tracks db s key ds →
  Index.tracks db (Index.apply_mutation db config s m) key ds.
Proof.
  intros H. destruct m as [k v|k|]; simpl.
  - by apply tracks_set.
  - by apply tracks_db_del.
  - unfold Index.clear. destruct (Index.get db META_KEY s); simpl; [|done..].
    by apply tracks_set, tracks_db_clear.
Qed.

Lemma tracks_mutations ms s key ds :
  Index.tracks db s key ds →
  Index.tracks db (Index.apply_mutations db config ms s) key ds.
Proof.
  unfold Index.apply_mutations. revert s.
  induction ms as [|m ms IH]; intros s H; simpl; [done|].
  by apply IH, tracks_mutation.
Qed.

Lemma tracks_observeKey key s :
  Index.wf s →
  Index.tracks db (Index.observeKey db key s).2 key
    (Index.observeKey db key s).1.
Proof.
  intros Hwf. split; [by apply observeKey_registers|].
  simpl. rewrite lookup_insert_eq. f_equal.
  unfold Index.has, AurumDB.has.
  by destruct (Engine.get db key (Index.store s)).
Qed.

End IndexTracking.

(** X8. A per-key observer follows the store. The [DataSource] that
    [observeKey(key)] returns starts with the value stored under the key,
    [undefined] when the key is missing, and after any sequence of [set],
    [delete] and [clear] calls on the index it holds the value stored
    under the key at that moment, [undefined] when the key is missing. *)
Theorem key_observer_tracks_store (db : Engine.Handle) (config : Config)
    (key : string) (s0 : Index.State) (ms : list Index.Mutation) :
  Index.wf s0 →
  let ds := (Index.observeKey db key s0).1 in
  let s := Index.apply_mutations db config ms (Index.observeKey db key s0).2 in
  Index.dataSources (Index.observeKey db key s0).2 !! ds
  = Some (default VUndef (Engine.get db key (Index.store s0)))
  ∧ Index.dataSources s !! ds
    = Some (default VUndef (Engine.get db key (Index.store s))).
Proof.
  intros Hwf ds s. split.
  - by destruct (tracks_observeKey db key s0 Hwf) as [_ ?].
  - by destruct (tracks_mutations db config ms _ key ds
                   (tracks_observeKey db key s0 Hwf)) as [_ ?].
Qed.

Lemma key_observer_tracks_store_witness :
  let db := Engine.sub Engine.root "testindex" in
  let config := {| autoDeleteOnSetUndefined := false |} in
  let s0 := Index.init {[ db +:+ "hello" := VStr "world" ]} in
  let ms := [Index.MSet "hello" (VStr "world2"); Index.MDelete "hello"] in
  let ds := (Index.observeKey db "hello" s0).1 in
  let s := Index.apply_mutations db config ms (Index.observeKey db "hello" s0).2 in
  Index.dataSources (Index.observeKey db "hello" s0).2 !! ds
  = Some (default VUndef (Engine.get db "hello" (Index.store s0)))
  ∧ Index.dataSources s !! ds
    = Some (default VUndef (Engine.get db "hello" (Index.store s))).
Proof.
  intros db config s0 ms.
  apply (key_observer_tracks_store db config "hello" s0 ms).
  unfold s0, Index.wf, Index.init. simpl. split; [constructor|].
  split; [intros id Hid; inversion Hid|].
  intros key dss Hk. rewrite lookup_empty in Hk. discriminate.
Defined.

(** ** Whole-index observers: when the scan completes *)

Section IndexScanCompletes.

Variable db : Engine.Handle.
Variable config : Config.

Lemma strip_prefix_Some (h p k : string) :
  strip_prefix h p = Some k → p = h +:+ k.
Proof.
  revert p. induction h as [|a h IH]; intros [|b p] H; simpl in H;
    try (by simplify_eq).
  case_decide; [|done]. subst.
  change (String b p = String b (h +:+ k)). f_equal. by apply IH.
Qed.

(** The cursor yields keys the store holds. *)
Lemma snapshot_present (st : gmap string Val) (k : string) :
  k ∈ Index.snapshot db st → is_Some (Engine.get db k st).
Proof.
  unfold Index.snapshot. intros (p & Hp & Hk)%list_elem_of_omap.
  rewrite merge_sort_Permutation in Hp.
  apply list_elem_of_fmap in Hp as ([p' v] & -> & Hin).
  apply elem_of_map_to_list in Hin. apply strip_prefix_Some in Hk.
  simpl in Hk. subst. unfold Engine.get. by rewrite Hin.
Qed.

Lemma scan_run_resolves result sched (x : Index.Scan * Index.State) :
  Forall (Index.keeps_keys config) sched →
  (Index.scanning x.1 = true
   ∧ (∀ k, k ∈ Index.pendingKeys x.1 →
        is_Some (Engine.get db k (Index.store x.2)))
   ∧ (length (Index.pendingKeys x.1) < Index.scan_turns sched)%nat)
  ∨ (Index.promise x.1 = Resolved result ∧ Index.scanning x.1 = false) →
  Index.promise (foldl (Index.step db config result) x sched).1
  = Resolved result.
Proof.
  revert x. induction sched as [|a sched IH]; intros [sc s] Hs Hx; simpl in *.
  { destruct Hx as [(_ & _ & ?)|[? _]]; [lia|done]. }
  apply Forall_cons in Hs as [Ha Hs]. apply IH; [done|].
  destruct Hx as [(Hscan & Hkeys & Hlen)|[Hres Hstop]].
  - destruct a as [|m]; simpl.
    + unfold Index.scan_step. rewrite Hscan.
      destruct (Index.pendingKeys sc) as [|key rest] eqn:Hpk; simpl.
      { by right. }
      simpl in Hlen. left.
      assert (∀ k, k ∈ rest → is_Some (Engine.get db k (Index.store s)))
        as Hrest.
      { intros k Hk. apply Hkeys. by right. }
      destruct (includes_bang key); simpl.
      { split; [done|]. split; [done|lia]. }
      destruct (Hkeys key) as [v Hv]; [by left|].
      unfold Index.get. rewrite Hv. simpl. split; [done|]. split; [done|lia].
    + left. split; [done|]. split; [|done].
      destruct m as [k v| |]; simpl in Ha; [|done..].
      intros k' Hk'. simpl. unfold Index.set. rewrite Ha.
      rewrite store_db_put, engine_get_put.
      case_decide; [done|]. by apply Hkeys.
  - right. destruct a as [|m]; simpl; [|done].
    unfold Index.scan_step. by rewrite Hstop.
Qed.

End IndexScanCompletes.

(** X9. The scan of [observeEntireIndex] completes when no key is
    removed while it runs: under any schedule in which the mutations are
    [set] calls that the configuration does not turn into deletions, and
    which gives the scan one callback more than the index had keys at the
    call, the returned promise is resolved with the observer. *)
Theorem scan_completes_without_removals (db : Engine.Handle)
    (config : Config) (sched : list Index.Action) (s : Index.State) :
  Forall (Index.keeps_keys config) sched →
  (length (Index.snapshot db (Index.store s)) < Index.scan_turns sched)%nat →
  Index.promise (Index.observeEntireIndex db config sched s).1.2
  = Resolved (Index.observeEntireIndex db config sched s).1.1.
Proof.
  intros Hs Hlen. unfold Index.observeEntireIndex.
  destruct (Index.observeEntireIndex_begin db s) as [[result keys] s1] eqn:Hb.
  pose proof (scan_run_resolves db config result sched
                (Index.mkScan keys Pending true, s1) Hs) as Hrun.
  destruct (foldl _ _ sched) as [sc s2]. simpl in *. apply Hrun. left.
  unfold Index.observeEntireIndex_begin in Hb. injection Hb as <- <- <-.
  split; [done|]. split; [|done]. intros k. apply snapshot_present.
Qed.

Lemma scan_completes_without_removals_witness :
  let db := Engine.sub Engine.root "testindex" in
  let config := {| autoDeleteOnSetUndefined := false |} in
  let s := Index.init {[ db +:+ "hello0" := VStr "world" ]} in
  let sched :=
    [Index.AScan; Index.AMutation (Index.MSet "hello1" (VStr "world"));
     Index.AScan] in
  Index.promise (Index.observeEntireIndex db config sched s).1.2
  = Resolved (Index.observeEntireIndex db config sched s).1.1.
Proof.
  intros db config s sched.
  apply (scan_completes_without_removals db config sched s).
  - repeat constructor.
  - vm_compute. lia.
Defined.

(** X10. Whenever the promise of [observeEntireIndex] is resolved, under
    any schedule of scan callbacks and of [set] calls with defined
    values, [delete] calls and [clear] calls, it is resolved with the
    observer the call created, and the observer and the store agree on
    every key without the delimiter: the key reads in the observer as it
    reads in the index, and is missing from both or from neither. *)
Theorem completed_scan_agrees_with_store (db : Engine.Handle)
    (config : Config) (sched : list Index.Action) (s : Index.State) :
  Index.wf s →
  Forall Index.defined_action sched →
  let result := (Index.observeEntireIndex db config sched s).1.1 in
  let sc := (Index.observeEntireIndex db config sched s).1.2 in
  let s' := (Index.observeEntireIndex db config sched s).2 in
  (∀ r, Index.promise sc = Resolved r → r = result)
  ∧ (Index.promise sc = Resolved result →
     ∀ k, includes_bang k = false →
       Index.view result s' !! k = Engine.get db k (Index.store s')).
Proof.
  intros Hwf Hs result sc s'.
  destruct (Index.observeEntireIndex db config sched s) as [[r0 sc0] s0] eqn:E.
  simpl in result, sc, s'. subst result sc s'.
  pose proof (scan_converges db config sched s r0 sc0 s0 Hwf Hs E) as H.
  split.
  - intros r Hr. by destruct (H r Hr).
  - intros Hr. by destruct (H r0 Hr).
Qed.

Lemma completed_scan_agrees_with_store_witness :
  let db := Engine.sub Engine.root "testindex" in
  let config := {| autoDeleteOnSetUndefined := false |} in
  let s := Index.init {[ db +:+ "hello0" := VStr "world" ]} in
  let sched :=
    [Index.AScan; Index.AMutation (Index.MDelete "hello0");
     Index.AMutation (Index.MSet "hello1" (VStr "world")); Index.AScan] in
  let result := (Index.observeEntireIndex db config sched s).1.1 in
  let sc := (Index.observeEntireIndex db config sched s).1.2 in
  let s' := (Index.observeEntireIndex db config sched s).2 in
  (∀ r, Index.promise sc = Resolved r → r = result)
  ∧ (Index.promise sc = Resolved result →
     ∀ k, includes_bang k = false →
       Index.view result s' !! k = Engine.get db k (Index.store s')).
Proof.
  intros db config s sched.
  apply (completed_scan_agrees_with_store db config sched s).
  - unfold s, Index.wf, Index.init. simpl. split; [constructor|].
    split; [intros id Hid; inversion Hid|].
    intros key dss Hk. rewrite lookup_empty in Hk. discriminate.
  - repeat constructor. simpl. discriminate.
Defined.

Lemma string_length_app (a b : string) :
  String.length (a +:+ b) = (String.length a + String.length b)%nat.
Proof.
  induction a as [|c a IH]; [done|].
  change (S (String.length (a +:+ b))
          = S (String.length a + String.length b)).
  by rewrite IH.
Qed.

(** The metadata key of a nested partition is not the metadata key of
    the partition it is nested in. *)
Lemma makeSubDbId_not_meta (N : string) : META_KEY ≠ makeSubDbId N META_KEY.
Proof.
  intros H. apply (f_equal String.length) in H. unfold makeSubDbId in H.
  rewrite !string_length_app in H.
  change (String.length META_KEY) with 8%nat in H.
  change (String.length "!") with 1%nat in H. lia.
Qed.

(** X11. An index is a namespace of its own, and [clear()] of the index
    takes the collections created inside it along: after a [clear()] that
    succeeded, no index and no collection of any name exists inside the
    index, and the getter is rejected. *)
Theorem index_clear_removes_nested (db : Engine.Handle) (config : Config)
    (s s' : Index.State) (k : Kind) (name : string) :
  Index.clear db config s = (Resolved tt, s') →
  AurumDB.hasKind k db name (Index.store s') = false
  ∧ AurumDB.open k db name (Index.store s')
    = inl (Thrown (AurumDB.does_not_exist k name)).
Proof.
  unfold Index.clear. destruct (Index.get db META_KEY s) as [val| |]; [|done..].
  intros [= <-].
  assert (AurumDB.hasKind k db name
            (Index.store (Index.set db config META_KEY val (Index.db_clear db s)))
          = false) as Hgone.
  { rewrite hasKind_unfold. unfold AurumDB.has.
    rewrite (set_other_keeps db config) by apply makeSubDbId_not_meta.
    by rewrite store_db_clear, engine_clear_get. }
  split; [done|]. by rewrite open_unfold, Hgone.
Qed.

Lemma index_clear_removes_nested_witness :
  let db := Engine.sub Engine.root "outerindex" in
  let config := {| autoDeleteOnSetUndefined := false |} in
  let s :=
    Index.init {[ db +:+ META_KEY := VStr "2020-01-01T00:00:00.000Z";
                  db +:+ makeSubDbId "innerordered" META_KEY := VNum 0 ]} in
  AurumDB.hasKind KOrdered db "inner" (Index.store (Index.clear db config s).2)
  = false
  ∧ AurumDB.open KOrdered db "inner" (Index.store (Index.clear db config s).2)
    = inl (Thrown (AurumDB.does_not_exist KOrdered "inner")).
Proof.
  intros db config s.
  apply (index_clear_removes_nested db config s).
  vm_compute. reflexivity.
Defined.

(** ** Ordered collection: the collection as an array *)

Section OrderedArray.

Variable db : Engine.Handle.







End OrderedArray.



(** X13. Inside the bounds, [set] then [get] is a round trip: after
    [set(i, item)] at an index of [0, length), [get(i)] resolves with
    [item], [get(j)] at any other index of the collection resolves with
    the element that was there, and the length is as before. *)
Theorem set_then_get (db : Engine.Handle) (c : Ordered.Coll)
    (xs : list Val) (i : nat) (item : Val) :
  Ordered.unlocked c →
  Ordered.holds db c xs →
  (i < length xs)%nat →
  let c' := (Ordered.exec db (Ordered.set (Z.of_nat i) item) c).2 in
  Ordered.exec db (Ordered.get (Z.of_nat i)) c' = (Resolved item, c')
  ∧ (∀ (j : nat) x, j ≠ i → xs !! j = Some x →
       Ordered.exec db (Ordered.get (Z.of_nat j)) c' = (Resolved x, c'))
  ∧ Ordered.exec db Ordered.length c' = (Resolved (Z.of_nat (length xs)), c').
Proof.
  intros Hl Hh Hi c'.
  destruct (set_in_range db c xs i item Hl Hh Hi) as (c1 & He & Hh1 & Hl1).
  subst c'. rewrite He. cbn [snd]. split; [|split].
  - apply (get_in_range db c1 _ i item Hl1 Hh1).
    by apply list_lookup_insert_eq.
  - intros j x Hj Hx. apply (get_in_range db c1 _ j x Hl1 Hh1).
    by rewrite list_lookup_insert_ne.
  - rewrite (exec_length db c1 _ Hl1 (proj1 Hh1)). by rewrite length_insert.
Qed.

Lemma set_then_get_witness :
  let db := Engine.sub Engine.root "testordered" in
  let c := Ordered.fresh {[ db +:+ META_KEY := VNum 2;
                            db +:+ "0" := VStr "a"; db +:+ "1" := VStr "b" ]} in
  let xs := [VStr "a"; VStr "b"] in
  let c' := (Ordered.exec db (Ordered.set (Z.of_nat 1) (VStr "z")) c).2 in
  Ordered.exec db (Ordered.get (Z.of_nat 1)) c' = (Resolved (VStr "z"), c')
  ∧ (∀ (j : nat) x, j ≠ 1%nat → xs !! j = Some x →
       Ordered.exec db (Ordered.get (Z.of_nat j)) c' = (Resolved x, c'))
  ∧ Ordered.exec db Ordered.length c' = (Resolved (Z.of_nat (length xs)), c').
Proof.
  intros db c xs.
  apply (set_then_get db c xs 1 (VStr "z")).
  - discriminate.
  - split; [reflexivity|].
    intros [|[|i]] x Hx; simpl in Hx; try discriminate;
      injection Hx as <-; reflexivity.
  - simpl. lia.
Defined.



(** X15. On a collection that is not empty, [pop()] resolves with the
    last element and removes it: the collection holds the elements
    before it, the slot the element was in is deleted, and the lock lets
    the next call through. *)
Theorem pop_returns_last (db : Engine.Handle) (c : Ordered.Coll)
    (xs : list Val) (x : Val) :
  Ordered.unlocked c →
  Ordered.holds db c (xs ++ [x]) →
  (Ordered.exec db Ordered.pop c).1 = Resolved x
  ∧ Ordered.holds db (Ordered.exec db Ordered.pop c).2 xs
  ∧ Engine.get db (Ordered.slot (Z.of_nat (length xs)))
      (Ordered.store (Ordered.exec db Ordered.pop c).2) = None
  ∧ Ordered.unlocked (Ordered.exec db Ordered.pop c).2.
Proof.
  intros Hl Hh.
  destruct (pop_nonempty db c xs x Hl Hh) as (c' & -> & _ & ? & ? & ?).
  done.
Qed.

Lemma pop_returns_last_witness :
  let db := Engine.sub Engine.root "testordered" in
  let c := Ordered.fresh {[ db +:+ META_KEY := VNum 2;
                            db +:+ "0" := VStr "a"; db +:+ "1" := VStr "b" ]} in
  (Ordered.exec db Ordered.pop c).1 = Resolved (VStr "b")
  ∧ Ordered.holds db (Ordered.exec db Ordered.pop c).2 [VStr "a"]
  ∧ Engine.get db (Ordered.slot (Z.of_nat (length [VStr "a"])))
      (Ordered.store (Ordered.exec db Ordered.pop c).2) = None
  ∧ Ordered.unlocked (Ordered.exec db Ordered.pop c).2.
Proof.
  intros db c.
  apply (pop_returns_last db c [VStr "a"] (VStr "b")).
  - discriminate.
  - split; [reflexivity|].
    intros [|[|i]] x Hx; simpl in Hx; try discriminate;
      injection Hx as <-; reflexivity.
Defined.

(** X16. Above the length, [get] and [set] are refused: an index
    greater than the length makes [get] fail with "cannot read outside of
    bounds of array" and [set] with "cannot write outside of bounds of
    array", and neither changes the store, the lock or the observers. *)
Theorem index_above_length_rejected (db : Engine.Handle) (c : Ordered.Coll)
    (xs : list Val) (index : Z) (item : Val) :
  Ordered.unlocked c →
  Ordered.holds db c xs →
  index > Z.of_nat (length xs) →
  Ordered.exec db (Ordered.get index) c
  = (Rejected (Thrown "cannot read outside of bounds of array"), c)
  ∧ Ordered.exec db (Ordered.set index item) c
    = (Rejected (Thrown "cannot write outside of bounds of array"), c).
Proof.
  intros Hl Hh Hi. split.
  - by apply (get_above_length db c xs).
  - by apply (set_above_length db c xs).
Qed.

Lemma index_above_length_rejected_witness :
  let db := Engine.sub Engine.root "testordered" in
  let c := Ordered.fresh {[ db +:+ META_KEY := VNum 1; db +:+ "0" := VStr "a" ]} in
  Ordered.exec db (Ordered.get 2) c
  = (Rejected (Thrown "cannot read outside of bounds of array"), c)
  ∧ Ordered.exec db (Ordered.set 2 (VStr "z")) c
    = (Rejected (Thrown "cannot write outside of bounds of array"), c).
Proof.
  intros db c.
  apply (index_above_length_rejected db c [VStr "a"] 2 (VStr "z")).
  - discriminate.
  - split; [reflexivity|].
    intros [|i] x Hx; simpl in Hx; try discriminate;
      injection Hx as <-; reflexivity.
  - simpl. lia.
Defined.

(** X17. Every public method starts with [await this.lock]: on a
    collection whose lock promise will never settle (the executor of a
    [push] or [pop] threw), no call of any method ever settles, and none
    changes the store, the lock or the observers. *)
Theorem wedged_collection_never_answers (db : Engine.Handle)
    (c : Ordered.Coll) (index startIndex endIndex : Z) (item : Val)
    (items : list Val) (A : Type) (cb : Val → Z → A → A) (acc : A) :
  Ordered.lock c = Ordered.LForever →
  Ordered.exec db Ordered.length c = (Pending, c)
  ∧ Ordered.exec db (Ordered.get index) c = (Pending, c)
  ∧ Ordered.exec db (Ordered.set index item) c = (Pending, c)
  ∧ Ordered.exec db (Ordered.push items) c = (Pending, c)
  ∧ Ordered.exec db Ordered.pop c = (Pending, c)
  ∧ Ordered.exec db (Ordered.slice startIndex endIndex) c = (Pending, c)
  ∧ Ordered.exec db Ordered.clear c = (Pending, c)
  ∧ Ordered.exec db Ordered.toArray c = (Pending, c)
  ∧ Ordered.exec db (Ordered.forEach cb acc) c = (Pending, c)
  ∧ Ordered.observeEntireCollection db c = (Pending, c).
Proof.
  intros Hl. repeat split; try (by apply exec_locked).
  unfold Ordered.observeEntireCollection. by rewrite exec_locked.
Qed.

Lemma wedged_collection_never_answers_witness :
  let db := Engine.sub Engine.root "testordered" in
  let c := (Ordered.exec db Ordered.pop
              (Ordered.fresh {[ db +:+ META_KEY := VNum 0 ]})).2 in
  Ordered.exec db Ordered.length c = (Pending, c)
  ∧ Ordered.exec db (Ordered.get 0) c = (Pending, c)
  ∧ Ordered.exec db (Ordered.set 0 (VNum 1)) c = (Pending, c)
  ∧ Ordered.exec db (Ordered.push [VNum 1]) c = (Pending, c)
  ∧ Ordered.exec db Ordered.pop c = (Pending, c)
  ∧ Ordered.exec db (Ordered.slice 0 0) c = (Pending, c)
  ∧ Ordered.exec db Ordered.clear c = (Pending, c)
  ∧ Ordered.exec db Ordered.toArray c = (Pending, c)
  ∧ Ordered.exec db (Ordered.forEach (λ v _ (acc : list Val), acc ++ [v]) []) c
    = (Pending, c)
  ∧ Ordered.observeEntireCollection db c = (Pending, c).
Proof.
  intros db c.
  apply (wedged_collection_never_answers db c 0 0 0 (VNum 1) [VNum 1]
           (list Val) (λ v _ acc, acc ++ [v]) []).
  reflexivity.
Defined.





Section OrderedForEach.

Variable db : Engine.Handle.

Lemma each_from_S {A} (cb : Val → Z → A → A) (i : Z) (turns : nat) (acc : A) :
  Ordered.each_from cb i (S turns) acc
  = Ordered.bind (Ordered.db_get (Ordered.slot i))
      (λ v, Ordered.each_from cb (i + 1) turns (cb v i acc)).
Proof. done. Qed.

Lemma exec_each_from {A} (cb : Val → Z → A → A) c (ys : list Val) (a : nat)
    (acc : A) :
  (∀ (i : nat) y, ys !! i = Some y →
     Engine.get db (Ordered.slot (Z.of_nat (a + i))) (Ordered.store c) = Some y) →
  Ordered.exec db (Ordered.each_from cb (Z.of_nat a) (length ys) acc) c
  = (Resolved
       (foldl (λ acc p, cb p.2 (Z.of_nat p.1) acc) acc
          (imap (λ i y, ((a + i)%nat, y)) ys)),
     c).
Proof.
  revert a acc. induction ys as [|y ys IH]; intros a acc Hys; [done|].
  cbn [length]. rewrite each_from_S, exec_bind, exec_db_get.
  rewrite <- (Nat.add_0_r a) at 1. rewrite (Hys 0%nat y) by done.
  replace (Z.of_nat a + 1) with (Z.of_nat (S a)) by lia.
  rewrite IH.
  - simpl. rewrite Nat.add_0_r. do 3 f_equal.
    apply imap_ext. intros i z _. simpl. f_equal. lia.
  - intros i z Hi. replace (S a + i)%nat with (a + S i)%nat by lia.
    by apply Hys.
Qed.

End OrderedForEach.

(** X20. [forEach(cb)] on a collection that holds [xs] calls the
    callback once for every element, in the order of the indices, with
    the element and its index, and changes nothing in the collection:
    what the callbacks leave behind is the fold of [cb] over the elements
    paired with their indices. *)
Theorem forEach_visits_in_order (db : Engine.Handle) (A : Type)
    (cb : Val → Z → A → A) (acc : A) (c : Ordered.Coll) (xs : list Val) :
  Ordered.unlocked c →
  Ordered.holds db c xs →
  Ordered.exec db (Ordered.forEach cb acc) c
  = (Resolved
       (foldl (λ acc p, cb p.2 (Z.of_nat p.1) acc) acc
          (imap (λ i x, (i, x)) xs)),
     c).
Proof.
  intros Hl [Hmeta Hslots]. unfold Ordered.forEach. rewrite exec_bind.
  destruct (exec_await_lock db c Hl) as [v0 ->].
  rewrite exec_bind, (exec_length db c _ Hl Hmeta). rewrite Nat2Z.id.
  change 0 with (Z.of_nat 0).
  by rewrite (exec_each_from db cb c xs 0 acc).
Qed.

Lemma forEach_visits_in_order_witness :
  let db := Engine.sub Engine.root "testordered" in
  let c := Ordered.fresh {[ db +:+ META_KEY := VNum 2;
                            db +:+ "0" := VStr "a"; db +:+ "1" := VStr "b" ]} in
  let cb := λ (v : Val) (i : Z) (acc : list (Z * Val)), acc ++ [(i, v)] in
  Ordered.exec db (Ordered.forEach cb []) c
  = (Resolved
       (foldl (λ acc p, cb p.2 (Z.of_nat p.1) acc) []
          (imap (λ i x, (i, x)) [VStr "a"; VStr "b"])),
     c).
Proof.
  intros db c cb.
  apply (forEach_visits_in_order db (list (Z * Val)) cb [] c
           [VStr "a"; VStr "b"]).
  - discriminate.
  - split; [reflexivity|].
    intros [|[|i]] x Hx; simpl in Hx; try discriminate;
      injection Hx as <-; reflexivity.
Defined.

(** ** Ordered collection: an awaited call in the event loop *)

Section OrderedAdequacy.

Variable db : Engine.Handle.

Lemma loop_engine_turn turns ticks sched l :
  Ordered.loop db turns ticks sched l
  = Ordered.engine_turn db turns ticks sched (Ordered.drain ticks l).
Proof. by destruct turns. Qed.

Lemma drain_no_micro k l : Ordered.l_micro l = [] → Ordered.drain k l = l.
Proof. intros Hm. destruct k; simpl; [done|]. by rewrite Hm. Qed.

(** At rest the loop stays where it is. *)
Lemma runs_to_rest l : Ordered.quiescent l → Ordered.runs_to db l l.
Proof.
  intros [Hm Hq]. exists 0%nat. intros turns ticks k sched _ _ _.
  rewrite drain_no_micro by done.
  destruct turns; simpl; [done|]. by rewrite Hq.
Qed.

(** The oldest microtask runs first. *)
Lemma runs_to_micro l l' t rest :
  Ordered.l_micro l = t :: rest →
  Ordered.runs_to db
    (Ordered.run_thread t
       (Ordered.mkLoop (Ordered.l_store l) (Ordered.l_observers l)
          (Ordered.l_lock l) (Ordered.l_promises l) rest
          (Ordered.l_inflight l) (Ordered.l_settled l))) l' →
  Ordered.runs_to db l l'.
Proof.
  intros Hm [n Hn]. exists (S n). intros turns ticks k sched Ht Hk Hkk.
  destruct k as [|k]; [lia|]. simpl. rewrite Hm. apply Hn; lia.
Qed.

(** With no microtask left, the engine completes the only request in
    flight, whatever its choice. *)
Lemma runs_to_complete l l' pd :
  Ordered.l_micro l = [] → Ordered.l_inflight l = [pd] →
  Ordered.runs_to db (Ordered.complete db pd [] l) l' →
  Ordered.runs_to db l l'.
Proof.
  intros Hm Hq [n Hn]. exists (S n). intros turns ticks k sched Ht Hk Hkk.
  rewrite drain_no_micro by done.
  destruct turns as [|turns]; [lia|]. simpl. rewrite Hq. simpl.
  rewrite loop_engine_turn. apply Hn; lia.
Qed.

Lemma runs_to_reaches l l' : Ordered.runs_to db l l' → Ordered.reaches db l l'.
Proof.
  intros [n Hn]. exists n. intros turns ticks sched Ht Hk.
  rewrite loop_engine_turn. by apply Hn.
Qed.

Lemma with_coll_of l : Ordered.with_coll (Ordered.coll_of l) l = l.
Proof. by destruct l. Qed.

(** A body that does not await the lock does not depend on it. *)
Lemma exec_lock_free {R} (p : Ordered.Prog R) c lk :
  Ordered.LockFree p →
  Ordered.exec db p
    (Ordered.mkColl (Ordered.store c) lk (Ordered.totalObservers c))
  = ((Ordered.exec db p c).1,
     Ordered.mkColl (Ordered.store (Ordered.exec db p c).2) lk
       (Ordered.totalObservers (Ordered.exec db p c).2)).
Proof.
  intros Hp. revert c.
  induction Hp as [r|e|rq k _ IH|f k _ IH]; intros c; simpl.
  - done.
  - done.
  - destruct (Ordered.perform db rq (Ordered.store c)) as [r st].
    exact (IH r (Ordered.mkColl st (Ordered.lock c) (Ordered.totalObservers c))).
  - exact (IH (Ordered.mkColl (Ordered.store c) (Ordered.lock c)
                 (f <$> Ordered.totalObservers c))).
Qed.

(** A body that only talks to the engine and the observers, alone in
    the loop, takes the loop to where its end, as [exec] gives it, takes
    it. *)
Lemma lock_free_runs {R} (wrap : Ordered.Prog R → Ordered.Thread)
    (finish : Outcome R → Ordered.Loop → Ordered.Loop) (p : Ordered.Prog R) :
  (∀ q l, Ordered.run_thread (wrap q) l = Ordered.drive wrap finish q l) →
  Ordered.LockFree p →
  ∀ l l', Ordered.l_micro l = [] → Ordered.l_inflight l = [] →
    Ordered.runs_to db
      (finish (Ordered.exec db p (Ordered.coll_of l)).1
         (Ordered.with_coll (Ordered.exec db p (Ordered.coll_of l)).2 l)) l' →
    Ordered.runs_to db (Ordered.drive wrap finish p l) l'.
Proof.
  intros Hrun Hp.
  induction Hp as [r|e|rq k _ IH|f k _ IH]; intros l l' Hm Hq Hl'.
  - simpl in *. by rewrite with_coll_of in Hl'.
  - simpl in *. by rewrite with_coll_of in Hl'.
  - cbn [Ordered.drive].
    apply (runs_to_complete _ _
             (Ordered.mkPend rq (Some (λ r, wrap (k r)))));
      [done|by simpl; rewrite Hq|].
    unfold Ordered.complete. cbn [Ordered.request Ordered.resume Ordered.issue
      Ordered.l_store Ordered.l_micro Ordered.l_observers Ordered.l_lock
      Ordered.l_promises Ordered.l_settled].
    cbn [Ordered.exec Ordered.coll_of Ordered.store] in Hl'.
    destruct (Ordered.perform db rq (Ordered.l_store l)) as [r st] eqn:Hrq.
    rewrite Hm. eapply runs_to_micro; [done|].
    cbn [Ordered.l_store Ordered.l_micro Ordered.l_observers Ordered.l_lock
      Ordered.l_promises Ordered.l_settled Ordered.l_inflight app].
    rewrite Hrun. apply IH; [done..|].
    unfold Ordered.coll_of, Ordered.lock_of, Ordered.with_coll in *.
    cbn [Ordered.l_store Ordered.l_micro Ordered.l_observers Ordered.l_lock
      Ordered.l_promises Ordered.l_settled Ordered.l_inflight
      Ordered.lock Ordered.totalObservers] in *.
    by rewrite Hm, Hq in Hl'.
  - cbn [Ordered.drive]. apply IH; [done..|].
    unfold Ordered.coll_of, Ordered.lock_of, Ordered.with_coll in *.
    by cbn [Ordered.exec Ordered.l_store Ordered.l_micro Ordered.l_observers
      Ordered.l_lock Ordered.l_promises Ordered.l_settled Ordered.l_inflight
      Ordered.store Ordered.lock Ordered.totalObservers] in *.
Qed.

Lemma lock_of_frame l st obs micro inflight settled :
  Ordered.lock_of
    (Ordered.mkLoop st obs (Ordered.l_lock l) (Ordered.l_promises l)
       micro inflight settled)
  = Ordered.lock_of l.
Proof. done. Qed.

(** [await this.lock] in the loop and in [exec]. *)
Lemma exec_AwaitLock {R} (k : Val → Ordered.Prog R) l :
  Ordered.exec db (Ordered.AwaitLock k) (Ordered.coll_of l)
  = match Ordered.lock_of l with
    | Ordered.LUndefined => Ordered.exec db (k VUndef) (Ordered.coll_of l)
    | Ordered.LResolved v => Ordered.exec db (k v) (Ordered.coll_of l)
    | Ordered.LForever => (Pending, Ordered.coll_of l)
    end.
Proof. done. Qed.

(** A call whose body installs no lock, issued in a loop at rest: the
    loop comes to rest again, whatever the engine's choices, and it then
    stands for the collection, and has recorded the outcome, that [exec]
    computes. *)
Lemma plain_runs (id : nat) (p : Ordered.Prog Ordered.Answer) :
  Ordered.Plain p →
  ∀ l, Ordered.l_micro l = [] → Ordered.l_inflight l = [] →
  ∃ l',
    Ordered.runs_to db
      (Ordered.drive (Ordered.TCall id) (Ordered.settle id) p l) l'
    ∧ Ordered.quiescent l'
    ∧ Ordered.coll_of l' = (Ordered.exec db p (Ordered.coll_of l)).2
    ∧ Ordered.l_settled l'
      = Ordered.l_settled l
        ++ Ordered.report id (Ordered.exec db p (Ordered.coll_of l)).1.
Proof.
  intros Hp.
  induction Hp as [r|e|k _ IH|rq k _ IH|f k _ IH|rq r]; intros l Hm Hq.
  - eexists. split; [by apply runs_to_rest|]. by repeat split.
  - eexists. split; [by apply runs_to_rest|]. by repeat split.
  - rewrite exec_AwaitLock. cbn [Ordered.drive]. unfold Ordered.lock_of.
    destruct (Ordered.l_lock l) as [p0|] eqn:Hlock.
    + destruct (Ordered.l_promises l !! p0) as [[ws|v]|] eqn:Hp0.
      * eexists. split; [by apply runs_to_rest|].
        split; [done|]. split; [|by rewrite app_nil_r].
        unfold Ordered.coll_of, Ordered.lock_of. simpl. rewrite Hlock.
        rewrite list_lookup_insert_eq by (by apply lookup_lt_Some in Hp0).
        by rewrite Hp0.
      * destruct (IH v (Ordered.mkLoop (Ordered.l_store l)
                          (Ordered.l_observers l) (Ordered.l_lock l)
                          (Ordered.l_promises l) [] (Ordered.l_inflight l)
                          (Ordered.l_settled l)) eq_refl Hq)
          as (l' & Hrun & Hidle & Hcoll & Hset).
        exists l'. split; [|done].
        eapply runs_to_micro; [by unfold Ordered.enqueue; simpl; rewrite Hm|].
        apply Hrun.
      * eexists. split; [by apply runs_to_rest|].
        split; [done|]. split; [done|by rewrite app_nil_r].
    + destruct (IH VUndef (Ordered.mkLoop (Ordered.l_store l)
                             (Ordered.l_observers l) (Ordered.l_lock l)
                             (Ordered.l_promises l) [] (Ordered.l_inflight l)
                             (Ordered.l_settled l)) eq_refl Hq)
        as (l' & Hrun & Hidle & Hcoll & Hset).
      exists l'. split; [|done].
      eapply runs_to_micro; [by unfold Ordered.enqueue; simpl; rewrite Hm|].
      apply Hrun.
  - cbn [Ordered.drive Ordered.exec Ordered.coll_of Ordered.store].
    destruct (Ordered.perform db rq (Ordered.l_store l)) as [r st] eqn:Hrq.
    destruct (IH r
                (Ordered.mkLoop st (Ordered.l_observers l) (Ordered.l_lock l)
                   (Ordered.l_promises l) [] [] (Ordered.l_settled l))
                eq_refl eq_refl) as (l' & Hrun & Hidle & Hcoll & Hset).
    exists l'. split; [|done].
    apply (runs_to_complete _ _
             (Ordered.mkPend rq (Some (λ r, Ordered.TCall id (k r)))));
      [done|by simpl; rewrite Hq|].
    unfold Ordered.complete. simpl. rewrite Hrq, Hm.
    eapply runs_to_micro; [done|]. apply Hrun.
  - destruct (IH (Ordered.mkLoop (Ordered.l_store l)
                    (f <$> Ordered.l_observers l) (Ordered.l_lock l)
                    (Ordered.l_promises l) (Ordered.l_micro l)
                    (Ordered.l_inflight l) (Ordered.l_settled l))
                Hm Hq) as (l' & Hrun & Hidle & Hcoll & Hset).
    exists l'. by split.
  - cbn [Ordered.drive Ordered.exec Ordered.coll_of Ordered.store].
    destruct (Ordered.perform db rq (Ordered.l_store l)) as [r0 st] eqn:Hrq.
    eexists. split.
    + apply (runs_to_complete _ _ (Ordered.mkPend rq None));
        [done|by simpl; rewrite Hq|].
      unfold Ordered.complete. simpl. rewrite Hrq, Hm.
      by apply runs_to_rest.
    + by repeat split.
Qed.

Lemma drive_NewLock {R} (wrap : Ordered.Prog R → Ordered.Thread)
    (finish : Outcome R → Ordered.Loop → Ordered.Loop)
    (executor : Ordered.Prog Val) (k : Ordered.Prog R) l :
  Ordered.drive wrap finish (Ordered.NewLock executor k) l
  = Ordered.drive wrap finish k
      (Ordered.mkLoop
         (Ordered.l_store
            (Ordered.drive (Ordered.TExec (length (Ordered.l_promises l)))
               (Ordered.resolve_lock (length (Ordered.l_promises l))) executor
               (Ordered.with_promises
                  (Ordered.l_promises l ++ [Ordered.PPending []]) l)))
         (Ordered.l_observers
            (Ordered.drive (Ordered.TExec (length (Ordered.l_promises l)))
               (Ordered.resolve_lock (length (Ordered.l_promises l))) executor
               (Ordered.with_promises
                  (Ordered.l_promises l ++ [Ordered.PPending []]) l)))
         (Some (length (Ordered.l_promises l)))
         (Ordered.l_promises
            (Ordered.drive (Ordered.TExec (length (Ordered.l_promises l)))
               (Ordered.resolve_lock (length (Ordered.l_promises l))) executor
               (Ordered.with_promises
                  (Ordered.l_promises l ++ [Ordered.PPending []]) l)))
         (Ordered.l_micro
            (Ordered.drive (Ordered.TExec (length (Ordered.l_promises l)))
               (Ordered.resolve_lock (length (Ordered.l_promises l))) executor
               (Ordered.with_promises
                  (Ordered.l_promises l ++ [Ordered.PPending []]) l)))
         (Ordered.l_inflight
            (Ordered.drive (Ordered.TExec (length (Ordered.l_promises l)))
               (Ordered.resolve_lock (length (Ordered.l_promises l))) executor
               (Ordered.with_promises
                  (Ordered.l_promises l ++ [Ordered.PPending []]) l)))
         (Ordered.l_settled
            (Ordered.drive (Ordered.TExec (length (Ordered.l_promises l)))
               (Ordered.resolve_lock (length (Ordered.l_promises l))) executor
               (Ordered.with_promises
                  (Ordered.l_promises l ++ [Ordered.PPending []]) l)))).
Proof. done. Qed.

Lemma drive_AwaitLock {R} (wrap : Ordered.Prog R → Ordered.Thread)
    (finish : Outcome R → Ordered.Loop → Ordered.Loop)
    (k : Val → Ordered.Prog R) l :
  Ordered.drive wrap finish (Ordered.AwaitLock k) l
  = match Ordered.l_lock l with
    | None => Ordered.enqueue (wrap (k VUndef)) l
    | Some p =>
        match Ordered.l_promises l !! p with
        | Some (Ordered.PResolved v) => Ordered.enqueue (wrap (k v)) l
        | Some (Ordered.PPending waiters) =>
            Ordered.with_promises
              (<[p:=Ordered.PPending (waiters ++ [λ v, wrap (k v)])]>
                 (Ordered.l_promises l)) l
        | None => l
        end
    end.
Proof. done. Qed.

Lemma exec_NewLock {R} (executor : Ordered.Prog Val) (k : Ordered.Prog R) c :
  Ordered.exec db (Ordered.NewLock executor k) c
  = Ordered.exec db k
      (Ordered.mkColl (Ordered.store (Ordered.exec db executor c).2)
         match (Ordered.exec db executor c).1 with
         | Resolved v => Ordered.LResolved v
         | _ => Ordered.LForever
         end
         (Ordered.totalObservers (Ordered.exec db executor c).2)).
Proof. simpl. by destruct (Ordered.exec db executor c). Qed.

Lemma insert_snoc {A} (ps : list A) (x y : A) :
  <[length ps:=y]> (ps ++ [x]) = ps ++ [y].
Proof. by rewrite insert_app_r_alt, Nat.sub_diag. Qed.

(** The body of [push] and [pop] after the first [await this.lock],
    which found the lock usable and resolved with [v0]: the executor runs
    to its end; when it resolved, the new lock resolves and the call with
    it; when it threw, the new lock stays pending and the call never
    settles. *)
Lemma locking_body_runs (id : nat) (rest : Val → Ordered.Prog Val)
    (ret : Val → Ordered.Answer) (v0 : Val) l :
  (∀ v, Ordered.LockFree (rest v)) →
  Ordered.l_micro l = [] → Ordered.l_inflight l = [] →
  (Ordered.l_lock l = None ∧ v0 = VUndef)
  ∨ (∃ q, Ordered.l_lock l = Some q
          ∧ Ordered.l_promises l !! q = Some (Ordered.PResolved v0)) →
  let code :=
    Ordered.NewLock (Ordered.AwaitLock rest)
      (Ordered.AwaitLock (λ v, Ordered.Ret (ret v))) in
  ∃ l',
    Ordered.runs_to db (Ordered.run_thread (Ordered.TCall id code) l) l'
    ∧ Ordered.quiescent l'
    ∧ Ordered.coll_of l' = (Ordered.exec db code (Ordered.coll_of l)).2
    ∧ Ordered.l_settled l'
      = Ordered.l_settled l
        ++ Ordered.report id (Ordered.exec db code (Ordered.coll_of l)).1.
Proof.
  intros Hrest Hm Hq Hlk code. subst code.
  set (p := length (Ordered.l_promises l)).
  set (w := λ v : Val, Ordered.TCall id (Ordered.Ret (ret v))).
  assert (Ordered.exec db (Ordered.AwaitLock rest) (Ordered.coll_of l)
          = Ordered.exec db (rest v0) (Ordered.coll_of l)) as Hawait.
  { rewrite exec_AwaitLock. unfold Ordered.lock_of.
    destruct Hlk as [[-> ->]|(q & -> & ->)]; done. }
  assert (Ordered.run_thread
            (Ordered.TCall id
               (Ordered.NewLock (Ordered.AwaitLock rest)
                  (Ordered.AwaitLock (λ v, Ordered.Ret (ret v))))) l
          = Ordered.mkLoop (Ordered.l_store l) (Ordered.l_observers l)
              (Some p) (Ordered.l_promises l ++ [Ordered.PPending [w]])
              [Ordered.TExec p (rest v0)] [] (Ordered.l_settled l)) as ->.
  { cbn [Ordered.run_thread]. rewrite drive_NewLock. fold p.
    assert (Ordered.drive (Ordered.TExec p) (Ordered.resolve_lock p)
              (Ordered.AwaitLock rest)
              (Ordered.with_promises
                 (Ordered.l_promises l ++ [Ordered.PPending []]) l)
            = Ordered.enqueue (Ordered.TExec p (rest v0))
                (Ordered.with_promises
                   (Ordered.l_promises l ++ [Ordered.PPending []]) l)) as ->.
    { rewrite drive_AwaitLock.
      cbn [Ordered.with_promises Ordered.l_lock Ordered.l_promises].
      destruct Hlk as [[-> ->]|(q & -> & Hq0)]; [done|].
      rewrite lookup_app_l by (by apply lookup_lt_Some in Hq0).
      by rewrite Hq0. }
    rewrite drive_AwaitLock.
    cbn [Ordered.enqueue Ordered.with_promises Ordered.l_store
         Ordered.l_observers Ordered.l_lock Ordered.l_promises
         Ordered.l_micro Ordered.l_inflight Ordered.l_settled].
    rewrite list_lookup_middle by done.
    cbn [Ordered.with_promises Ordered.l_store
         Ordered.l_observers Ordered.l_lock Ordered.l_promises
         Ordered.l_micro Ordered.l_inflight Ordered.l_settled app].
    unfold p. rewrite insert_snoc. by rewrite Hm, Hq. }
  set (l3 := Ordered.mkLoop (Ordered.l_store l) (Ordered.l_observers l)
               (Some p) (Ordered.l_promises l ++ [Ordered.PPending [w]])
               [] [] (Ordered.l_settled l)).
  assert (Ordered.lock_of l3 = Ordered.LForever) as Hl3.
  { unfold Ordered.lock_of, l3. simpl.
    by rewrite list_lookup_middle. }
  pose proof (exec_lock_free (rest v0) (Ordered.coll_of l)
                Ordered.LForever (Hrest v0)) as Hfree.
  rewrite exec_NewLock, Hawait.
  destruct (Ordered.exec db (rest v0) (Ordered.coll_of l)) as [o c1] eqn:He.
  cbn [fst snd] in Hfree.
  assert (Ordered.exec db (rest v0) (Ordered.coll_of l3)
          = (o, Ordered.mkColl (Ordered.store c1) Ordered.LForever
                  (Ordered.totalObservers c1))) as He3.
  { unfold Ordered.coll_of at 1. by rewrite Hl3. }
  destruct o as [v|e|].
  - eexists. split.
    + eapply runs_to_micro; [done|].
      cbn [Ordered.l_store Ordered.l_observers Ordered.l_lock
           Ordered.l_promises Ordered.l_inflight Ordered.l_settled].
      fold l3.
      change (Ordered.run_thread (Ordered.TExec p (rest v0)) l3)
        with (Ordered.drive (Ordered.TExec p) (Ordered.resolve_lock p)
                (rest v0) l3).
      apply lock_free_runs; [done|done|done|done|].
      rewrite He3. cbn [fst snd Ordered.resolve_lock Ordered.with_coll
        Ordered.l_promises Ordered.store Ordered.totalObservers].
      unfold l3 at 1. cbn [Ordered.l_promises].
      rewrite list_lookup_middle by done.
      cbn [Ordered.l_store Ordered.l_observers Ordered.l_lock
           Ordered.l_promises Ordered.l_micro Ordered.l_inflight
           Ordered.l_settled l3 app fmap list_fmap].
      eapply runs_to_micro; [done|].
      cbn [Ordered.run_thread Ordered.drive w].
      apply runs_to_rest. done.
    + split; [done|]. split; [|done].
      unfold Ordered.coll_of, Ordered.lock_of. simpl. fold p.
      unfold p. by rewrite insert_snoc, list_lookup_middle.
  - eexists. split.
    + eapply runs_to_micro; [done|].
      cbn [Ordered.l_store Ordered.l_observers Ordered.l_lock
           Ordered.l_promises Ordered.l_inflight Ordered.l_settled].
      fold l3.
      change (Ordered.run_thread (Ordered.TExec p (rest v0)) l3)
        with (Ordered.drive (Ordered.TExec p) (Ordered.resolve_lock p)
                (rest v0) l3).
      apply lock_free_runs; [done|done|done|done|].
      rewrite He3. cbn [fst snd Ordered.resolve_lock].
      by apply runs_to_rest.
    + split; [done|]. split; [|by rewrite app_nil_r].
      unfold Ordered.coll_of, Ordered.lock_of. simpl.
      by rewrite list_lookup_middle.
  - eexists. split.
    + eapply runs_to_micro; [done|].
      cbn [Ordered.l_store Ordered.l_observers Ordered.l_lock
           Ordered.l_promises Ordered.l_inflight Ordered.l_settled].
      fold l3.
      change (Ordered.run_thread (Ordered.TExec p (rest v0)) l3)
        with (Ordered.drive (Ordered.TExec p) (Ordered.resolve_lock p)
                (rest v0) l3).
      apply lock_free_runs; [done|done|done|done|].
      rewrite He3. cbn [fst snd Ordered.resolve_lock].
      by apply runs_to_rest.
    + split; [done|]. split; [|by rewrite app_nil_r].
      unfold Ordered.coll_of, Ordered.lock_of. simpl.
      by rewrite list_lookup_middle.
Qed.

(** A call of the shape of [push] and [pop], issued in a loop at
    rest. *)
Lemma locking_runs (id : nat) (p : Ordered.Prog Ordered.Answer) :
  Ordered.Locking p →
  ∀ l, Ordered.l_micro l = [] → Ordered.l_inflight l = [] →
  ∃ l',
    Ordered.runs_to db
      (Ordered.drive (Ordered.TCall id) (Ordered.settle id) p l) l'
    ∧ Ordered.quiescent l'
    ∧ Ordered.coll_of l' = (Ordered.exec db p (Ordered.coll_of l)).2
    ∧ Ordered.l_settled l'
      = Ordered.l_settled l
        ++ Ordered.report id (Ordered.exec db p (Ordered.coll_of l)).1.
Proof.
  intros [rest ret Hrest] l Hm Hq.
  rewrite exec_AwaitLock, drive_AwaitLock. unfold Ordered.lock_of.
  destruct (Ordered.l_lock l) as [p0|] eqn:Hlock.
  - destruct (Ordered.l_promises l !! p0) as [[ws|v]|] eqn:Hp0.
    + eexists. split; [by apply runs_to_rest|].
      split; [done|]. split; [|by rewrite app_nil_r].
      unfold Ordered.coll_of, Ordered.lock_of. simpl. rewrite Hlock.
      rewrite list_lookup_insert_eq by (by apply lookup_lt_Some in Hp0).
      by rewrite Hp0.
    + destruct (locking_body_runs id rest ret v l Hrest Hm Hq)
        as (l' & Hrun & Hrest'); [right; eauto|].
      exists l'. split; [|done].
      eapply runs_to_micro; [by unfold Ordered.enqueue; simpl; rewrite Hm|].
      cbn [Ordered.enqueue Ordered.l_store Ordered.l_observers Ordered.l_lock
           Ordered.l_promises Ordered.l_inflight Ordered.l_settled].
      rewrite <- Hm. by destruct l.
    + eexists. split; [by apply runs_to_rest|].
      split; [done|]. split; [done|by rewrite app_nil_r].
  - destruct (locking_body_runs id rest ret VUndef l Hrest Hm Hq)
      as (l' & Hrun & Hrest'); [by left|].
    exists l'. split; [|done].
    eapply runs_to_micro; [by unfold Ordered.enqueue; simpl; rewrite Hm|].
    cbn [Ordered.enqueue Ordered.l_store Ordered.l_observers Ordered.l_lock
         Ordered.l_promises Ordered.l_inflight Ordered.l_settled].
    rewrite <- Hm. by destruct l.
Qed.

Lemma awaited_bind {A B} (p : Ordered.Prog A) (f : A → Ordered.Prog B) :
  Ordered.Awaited p → (∀ r, Ordered.Awaited (f r)) →
  Ordered.Awaited (Ordered.bind p f).
Proof.
  intros Hp Hf. induction Hp; simpl; try (by constructor); done.
Qed.

Lemma plain_bind {A B} (p : Ordered.Prog A) (f : A → Ordered.Prog B) :
  Ordered.Awaited p → (∀ r, Ordered.Plain (f r)) →
  Ordered.Plain (Ordered.bind p f).
Proof.
  intros Hp Hf. induction Hp; simpl; try (by constructor); done.
Qed.

Lemma awaited_await_lock : Ordered.Awaited Ordered.await_lock.
Proof. repeat constructor. Qed.

Lemma awaited_db_get key : Ordered.Awaited (Ordered.db_get key).
Proof. constructor. intros [v|]; constructor. Qed.

Lemma awaited_length : Ordered.Awaited Ordered.length.
Proof.
  unfold Ordered.length.
  apply awaited_bind; [apply awaited_await_lock|]. intros _.
  apply awaited_bind; [apply awaited_db_get|]. intros [| |n|s]; constructor.
Qed.

Lemma awaited_read_from (i : Z) (turns : nat) :
  Ordered.Awaited (Ordered.read_from i turns).
Proof.
  revert i. induction turns as [|turns IH]; intros i; [constructor|].
  rewrite read_from_S.
  apply awaited_bind; [apply awaited_db_get|]. intros v.
  apply awaited_bind; [apply IH|]. intros rest. constructor.
Qed.

Lemma awaited_get index : Ordered.Awaited (Ordered.get index).
Proof.
  unfold Ordered.get.
  apply awaited_bind; [apply awaited_await_lock|]. intros _.
  apply awaited_bind; [apply awaited_length|]. intros len.
  destruct (index >? len); [constructor|apply awaited_db_get].
Qed.

Lemma awaited_set index item : Ordered.Awaited (Ordered.set index item).
Proof.
  unfold Ordered.set.
  apply awaited_bind; [apply awaited_await_lock|]. intros _.
  apply awaited_bind; [apply awaited_length|]. intros len.
  destruct (index >? len); [constructor|]. repeat constructor.
Qed.

Lemma awaited_slice a b : Ordered.Awaited (Ordered.slice a b).
Proof.
  unfold Ordered.slice.
  apply awaited_bind; [apply awaited_await_lock|]. intros _.
  apply awaited_bind; [apply awaited_length|]. intros len.
  destruct (_ || _); [constructor|apply awaited_read_from].
Qed.

Lemma awaited_toArray : Ordered.Awaited Ordered.toArray.
Proof.
  unfold Ordered.toArray.
  apply awaited_bind; [apply awaited_await_lock|]. intros _.
  apply awaited_bind; [apply awaited_length|]. intros len.
  apply awaited_read_from.
Qed.

(** The bodies of the methods are of the two shapes. *)
Lemma body_shape (m : Ordered.Method) :
  Ordered.Plain (Ordered.body m) ∨ Ordered.Locking (Ordered.body m).
Proof.
  destruct m as [|index|index item|items|a b| | |];
    unfold Ordered.body, Ordered.answer.
  - left. apply plain_bind; [apply awaited_length|]. intros; constructor.
  - left. apply plain_bind; [apply awaited_get|]. intros; constructor.
  - left. apply plain_bind; [apply awaited_set|]. intros; constructor.
  - right. simpl. apply Ordered.Locking_intro. intros _.
    constructor. intros [[| |n|s]|]; simpl; repeat constructor.
  - left. apply plain_bind; [apply awaited_slice|]. intros; constructor.
  - right. simpl. apply Ordered.Locking_intro. intros _.
    constructor. intros [[| |n|s]|]; simpl; try constructor.
    intros [v|]; simpl; repeat constructor.
  - left. repeat constructor.
  - left. apply plain_bind; [apply awaited_toArray|]. intros; constructor.
Qed.

End OrderedAdequacy.

(** X21. An awaited call in the event loop ends as the sequential
    reading says. For each of [length], [get], [set], [push], [slice],
    [pop], [clear] and [toArray], issued in a loop at rest: whatever the
    order in which the engine completes requests, the loop comes to rest
    again; the store, the lock and the observers are then those the
    sequential run of the call leaves, and the promise of the call has
    settled with the sequential outcome, or not settled when the
    sequential outcome is that it never does. *)
Theorem awaited_call_adequate (db : Engine.Handle) (id : nat)
    (m : Ordered.Method) (l : Ordered.Loop) :
  Ordered.quiescent l →
  ∃ l',
    Ordered.reaches db (Ordered.call id (Ordered.body m) l) l'
    ∧ Ordered.quiescent l'
    ∧ Ordered.coll_of l'
      = (Ordered.exec db (Ordered.body m) (Ordered.coll_of l)).2
    ∧ Ordered.l_settled l'
      = Ordered.l_settled l
        ++ Ordered.report id
             (Ordered.exec db (Ordered.body m) (Ordered.coll_of l)).1.
Proof.
  intros [Hm Hq].
  destruct (body_shape m) as [Hp|Hp].
  - destruct (plain_runs db id _ Hp l Hm Hq) as (l' & Hrun & Hrest).
    exists l'. split; [by apply runs_to_reaches|done].
  - destruct (locking_runs db id _ Hp l Hm Hq) as (l' & Hrun & Hrest).
    exists l'. split; [by apply runs_to_reaches|done].
Qed.

Lemma awaited_call_adequate_witness :
  let db := Engine.sub Engine.root "testordered" in
  let l := Ordered.start {[ db +:+ META_KEY := VNum 0 ]} in
  let m := Ordered.MPush [VNum 1] in
  ∃ l',
    Ordered.reaches db (Ordered.call 1 (Ordered.body m) l) l'
    ∧ Ordered.quiescent l'
    ∧ Ordered.coll_of l'
      = (Ordered.exec db (Ordered.body m) (Ordered.coll_of l)).2
    ∧ Ordered.l_settled l'
      = Ordered.l_settled l
        ++ Ordered.report 1
             (Ordered.exec db (Ordered.body m) (Ordered.coll_of l)).1.
Proof.
  intros db l m.
  apply (awaited_call_adequate db 1 m l).
  split; reflexivity.
Defined.

(** ** Cursor wrapper *)

Lemma nexts_app (n m : nat) (s : Iterator.State) :
  Iterator.nexts (n + m) s
  = ((Iterator.nexts n s).1 ++ (Iterator.nexts m (Iterator.nexts n s).2).1,
     (Iterator.nexts m (Iterator.nexts n s).2).2).
Proof.
  revert s. induction n as [|n IH]; intros s; simpl.
  - by destruct (Iterator.nexts m s).
  - destruct (Iterator.next s) as [o s1]. rewrite IH.
    destruct (Iterator.nexts n s1) as [os s2]. simpl.
    by destruct (Iterator.nexts m s2).
Qed.

Lemma nexts_entries (es : list (string * Val)) (more : list Iterator.Reply)
    (s : Iterator.State) :
  Forall (λ kv, kv.1 ≠ "") es →
  Iterator.replies (Iterator.iterator s)
  = ((λ kv, Iterator.REntry kv.1 kv.2) <$> es) ++ more →
  Iterator.nexts (length es) s
  = ((λ kv, Resolved (Some kv)) <$> es,
     Iterator.mkState
       (Iterator.mkCursor more (Iterator.end_error (Iterator.iterator s))
          (Iterator.ends (Iterator.iterator s)))
       (match last es with
        | Some kv => Some kv
        | None => Iterator.current s
        end)).
Proof.
  revert s. induction es as [|[key value] es IH]; intros s Hes Hs; simpl.
  - destruct s as [[rs ee n] cur]. simpl in *. by subst.
  - apply Forall_cons in Hes as [Hkey Hes]. simpl in Hkey.
    unfold Iterator.next. rewrite Hs. simpl.
    rewrite decide_False by done.
    rewrite IH by done. simpl. do 2 f_equal.
    rewrite last_cons. by destruct (last es).
Qed.

(** X22. The cursor wrapper hands the entries on in order and releases
    the cursor when the iteration is left. When the engine's cursor
    yields the entries [es], all with a key that is not empty, and then a
    reply that leaves the iteration (the end of the range, an error, or
    an empty key): the first [length es] calls of [next] resolve with the
    entries in order, [current] is then the last of them, and the cursor
    has not been ended by the wrapper; the call after them resolves with
    [undefined], or is rejected with the error, [current] is reset, and
    the wrapper has called the cursor's [end] exactly once. The wrapper
    keeps no record of that release: an [end()] called afterwards calls
    the cursor's [end] a second time. *)
Theorem iterator_yields_then_releases (es : list (string * Val))
    (r : Iterator.Reply) (more : list Iterator.Reply) (s : Iterator.State) :
  Forall (λ kv, kv.1 ≠ "") es →
  Iterator.leaves r →
  Iterator.replies (Iterator.iterator s)
  = ((λ kv, Iterator.REntry kv.1 kv.2) <$> es) ++ r :: more →
  let s1 := (Iterator.nexts (length es) s).2 in
  let s2 := (Iterator.next s1).2 in
  (Iterator.nexts (length es) s).1 = (λ kv, Resolved (Some kv)) <$> es
  ∧ Iterator.current s1
    = match last es with Some kv => Some kv | None => Iterator.current s end
  ∧ Iterator.ends (Iterator.iterator s1) = Iterator.ends (Iterator.iterator s)
  ∧ (Iterator.next s1).1 = Iterator.exit_outcome r
  ∧ Iterator.current s2 = None
  ∧ Iterator.ends (Iterator.iterator s2)
    = S (Iterator.ends (Iterator.iterator s))
  ∧ Iterator.replies (Iterator.iterator s2) = more
  ∧ Iterator.ends (Iterator.iterator (Iterator.end_ s2).2)
    = S (S (Iterator.ends (Iterator.iterator s))).
Proof.
  intros Hes Hr Hs s1 s2. subst s2 s1.
  rewrite (nexts_entries es (r :: more) s Hes Hs). cbn [fst snd].
  split; [done|]. split; [done|]. split; [done|].
  unfold Iterator.next. cbn [Iterator.iterator Iterator.replies].
  destruct r as [e|key value|]; simpl in *; [done| |done].
  subst. by rewrite decide_True.
Qed.

Lemma iterator_yields_then_releases_witness :
  let es := [("a", VNum 1); ("b", VNum 2)] in
  let s :=
    Iterator.mkState
      (Iterator.mkCursor
         [Iterator.REntry "a" (VNum 1); Iterator.REntry "b" (VNum 2);
          Iterator.REnd] None 0) None in
  let s1 := (Iterator.nexts (length es) s).2 in
  let s2 := (Iterator.next s1).2 in
  (Iterator.nexts (length es) s).1 = (λ kv, Resolved (Some kv)) <$> es
  ∧ Iterator.current s1
    = match last es with Some kv => Some kv | None => Iterator.current s end
  ∧ Iterator.ends (Iterator.iterator s1) = Iterator.ends (Iterator.iterator s)
  ∧ (Iterator.next s1).1 = Iterator.exit_outcome Iterator.REnd
  ∧ Iterator.current s2 = None
  ∧ Iterator.ends (Iterator.iterator s2)
    = S (Iterator.ends (Iterator.iterator s))
  ∧ Iterator.replies (Iterator.iterator s2) = []
  ∧ Iterator.ends (Iterator.iterator (Iterator.end_ s2).2)
    = S (S (Iterator.ends (Iterator.iterator s))).
Proof.
  intros es s.
  apply (iterator_yields_then_releases es Iterator.REnd [] s).
  - repeat constructor; discriminate.
  - exact I.
  - reflexivity.
Defined.

(** ** Ordered collection: calls that install a lock, issued together *)

Section OrderedChain.

Variable db : Engine.Handle.

Lemma chain_length q xs : length (Ordered.chain q xs) = length xs.
Proof.
  revert q. induction xs as [|x xs IH]; intros q; simpl; [done|].
  by rewrite IH.
Qed.

(** The promise of the last call of a chain has one waiter, the call
    itself; a call that is added waits on a promise of its own and puts
    its executor on the promise of the call before it. *)
Lemma chain_snoc q (d : list Ordered.Link) (z x : Ordered.Link) :
  Ordered.chain q ((d ++ [z]) ++ [x])
  = <[length d :=
        Ordered.PPending
          [λ v, Ordered.TCall z.1.1 (Ordered.Ret (z.2 v));
           λ v, Ordered.TExec (S (length d) + q) (x.1.2 v)]]>
      (Ordered.chain q (d ++ [z]))
    ++ [Ordered.PPending [λ v, Ordered.TCall x.1.1 (Ordered.Ret (x.2 v))]].
Proof.
  revert q. induction d as [|a d IH]; intros q; [done|].
  change ((((a :: d) ++ [z]) ++ [x])) with (a :: ((d ++ [z]) ++ [x])).
  change ((a :: d) ++ [z]) with (a :: (d ++ [z])).
  cbn [Ordered.chain length]. rewrite IH.
  replace (S (length d) + S q)%nat with (S (S (length d)) + q)%nat by lia.
  cbn [insert list_insert app]. f_equal.
  by destruct d.
Qed.

Lemma chain_last q (d : list Ordered.Link) (z : Ordered.Link) :
  Ordered.chain q (d ++ [z]) !! length d
  = Some (Ordered.PPending [λ v, Ordered.TCall z.1.1 (Ordered.Ret (z.2 v))]).
Proof.
  revert q. induction d as [|a d IH]; intros q; [done|].
  change ((a :: d) ++ [z]) with (a :: (d ++ [z])).
  cbn [Ordered.chain length]. by rewrite lookup_cons.
Qed.

Lemma call_link_usable (x : Ordered.Link) l v0 :
  Ordered.usable l v0 →
  Ordered.call x.1.1 (Ordered.link_call x) l
  = Ordered.enqueue (Ordered.link_thread x) l.
Proof.
  intros Hu. unfold Ordered.call, Ordered.link_call.
  cbn [Ordered.run_thread]. rewrite drive_AwaitLock.
  destruct Hu as [[-> ->]|(q & -> & ->)]; done.
Qed.

(** Calls of the shape of [push] and [pop] that are issued together
    on a usable lock all get past their first [await this.lock]. *)
Lemma issue_calls_usable (xs : list Ordered.Link) l v0 :
  Ordered.usable l v0 →
  Ordered.issue_calls (Ordered.link_calls xs) l
  = Ordered.mkLoop (Ordered.l_store l) (Ordered.l_observers l)
      (Ordered.l_lock l) (Ordered.l_promises l)
      (Ordered.l_micro l ++ (Ordered.link_thread <$> xs))
      (Ordered.l_inflight l) (Ordered.l_settled l).
Proof.
  revert l. induction xs as [|x xs IH]; intros l Hu.
  - simpl. rewrite app_nil_r. by destruct l.
  - cbn [Ordered.link_calls fmap list_fmap Ordered.issue_calls].
    fold (Ordered.link_calls xs).
    rewrite (call_link_usable x l v0 Hu), IH by done.
    cbn [Ordered.enqueue Ordered.l_store Ordered.l_observers Ordered.l_lock
         Ordered.l_promises Ordered.l_micro Ordered.l_inflight
         Ordered.l_settled].
    by rewrite <- app_assoc.
Qed.

(** The first call installs its lock and puts its executor behind the
    calls that were issued with it. *)
Lemma installing_first l0 v0 (x : Ordered.Link) (todo : list Ordered.Link) :
  Ordered.usable l0 v0 → Ordered.l_inflight l0 = [] →
  Ordered.run_thread (Ordered.link_thread x)
    (Ordered.mkLoop (Ordered.l_store l0) (Ordered.l_observers l0)
       (Ordered.l_lock l0) (Ordered.l_promises l0)
       (Ordered.link_thread <$> todo) (Ordered.l_inflight l0)
       (Ordered.l_settled l0))
  = Ordered.installing l0 v0 x [x] todo.
Proof.
  intros Hu Hq. unfold Ordered.link_thread at 1, Ordered.link_code.
  cbn [Ordered.run_thread]. rewrite drive_NewLock.
  cbn [Ordered.l_promises].
  set (p := length (Ordered.l_promises l0)).
  set (l1 := Ordered.with_promises _ _).
  assert (Ordered.drive (Ordered.TExec p) (Ordered.resolve_lock p)
            (Ordered.AwaitLock x.1.2) l1
          = Ordered.enqueue (Ordered.TExec p (x.1.2 v0)) l1) as ->.
  { rewrite drive_AwaitLock. unfold l1.
    cbn [Ordered.with_promises Ordered.l_lock Ordered.l_promises].
    destruct Hu as [[-> ->]|(q & -> & Hq0)]; [done|].
    rewrite lookup_app_l by (by apply lookup_lt_Some in Hq0).
    by rewrite Hq0. }
  rewrite drive_AwaitLock. unfold l1.
  cbn [Ordered.enqueue Ordered.with_promises Ordered.l_store
       Ordered.l_observers Ordered.l_lock Ordered.l_promises
       Ordered.l_micro Ordered.l_inflight Ordered.l_settled].
  rewrite list_lookup_middle by done.
  cbn [Ordered.with_promises Ordered.l_store
       Ordered.l_observers Ordered.l_lock Ordered.l_promises
       Ordered.l_micro Ordered.l_inflight Ordered.l_settled app].
  unfold p. rewrite insert_snoc, Hq. unfold Ordered.installing.
  cbn [length Ordered.chain].
  by replace (length (Ordered.l_promises l0) + 1 - 1)%nat
    with (length (Ordered.l_promises l0)) by lia.
Qed.

(** A later call installs its lock and puts its executor on the lock
    of the call before it. *)
Lemma installing_next l0 v0 (first : Ordered.Link) (d : list Ordered.Link)
    (z x : Ordered.Link) (todo : list Ordered.Link) :
  Ordered.run_thread (Ordered.link_thread x)
    (Ordered.installing l0 v0 first (d ++ [z]) todo)
  = Ordered.installing l0 v0 first ((d ++ [z]) ++ [x]) todo.
Proof.
  unfold Ordered.installing, Ordered.link_thread at 1, Ordered.link_code.
  cbn [Ordered.run_thread]. rewrite drive_NewLock.
  cbn [Ordered.l_promises].
  set (ps0 := Ordered.l_promises l0).
  assert (length (ps0 ++ Ordered.chain (length ps0) (d ++ [z]))
          = (S (length d) + length ps0)%nat) as Hp.
  { rewrite length_app, chain_length, length_app. simpl. lia. }
  rewrite Hp.
  replace (length ps0 + length (d ++ [z]) - 1)%nat
    with (length d + length ps0)%nat
    by (rewrite length_app; simpl; lia).
  replace (length ps0 + length ((d ++ [z]) ++ [x]) - 1)%nat
    with (S (length d) + length ps0)%nat
    by (rewrite !length_app; simpl; lia).
  set (p := (S (length d) + length ps0)%nat).
  set (l1 := Ordered.with_promises _ _).
  assert (Ordered.l_promises l1 !! (length d + length ps0)%nat
          = Some (Ordered.PPending
                    [λ v, Ordered.TCall z.1.1 (Ordered.Ret (z.2 v))])) as Hz.
  { unfold l1. cbn [Ordered.with_promises Ordered.l_promises].
    rewrite lookup_app_l by (rewrite Hp; lia).
    rewrite lookup_app_r by lia.
    replace (length d + length ps0 - length ps0)%nat with (length d) by lia.
    apply chain_last. }
  assert (Ordered.drive (Ordered.TExec p) (Ordered.resolve_lock p)
            (Ordered.AwaitLock x.1.2) l1
          = Ordered.with_promises
              (<[(length d + length ps0)%nat :=
                   Ordered.PPending
                     [λ v, Ordered.TCall z.1.1 (Ordered.Ret (z.2 v));
                      λ v, Ordered.TExec p (x.1.2 v)]]>
                 (Ordered.l_promises l1)) l1) as ->.
  { rewrite drive_AwaitLock.
    assert (Ordered.l_lock l1 = Some (length d + length ps0)%nat) as ->
      by done.
    by rewrite Hz. }
  rewrite drive_AwaitLock.
  cbn [Ordered.with_promises Ordered.l_store Ordered.l_observers
       Ordered.l_lock Ordered.l_promises Ordered.l_micro Ordered.l_inflight
       Ordered.l_settled].
  assert ((<[(length d + length ps0)%nat :=
               Ordered.PPending
                 [λ v, Ordered.TCall z.1.1 (Ordered.Ret (z.2 v));
                  λ v, Ordered.TExec p (x.1.2 v)]]>
             (Ordered.l_promises l1)) !! p
          = Some (Ordered.PPending [])) as ->.
  { rewrite list_lookup_insert_ne by (unfold p; lia).
    unfold l1. cbn [Ordered.with_promises Ordered.l_promises].
    by rewrite list_lookup_middle. }
  unfold l1.
  cbn [Ordered.with_promises Ordered.l_store Ordered.l_observers
       Ordered.l_lock Ordered.l_promises Ordered.l_micro Ordered.l_inflight
       Ordered.l_settled app].
  f_equal.
  rewrite chain_snoc. fold p.
  rewrite (insert_app_l (ps0 ++ _)) by (rewrite Hp; lia).
  rewrite (insert_app_r_alt (<[_:=_]> _))
    by (rewrite length_insert, Hp; unfold p; lia).
  replace (p - length (<[(length d + length ps0)%nat:=
                           Ordered.PPending
                             [λ v, Ordered.TCall z.1.1 (Ordered.Ret (z.2 v));
                              λ v, Ordered.TExec p (x.1.2 v)]]>
                         (ps0 ++ Ordered.chain (length ps0) (d ++ [z]))))%nat
    with 0%nat by (rewrite length_insert, Hp; unfold p; lia).
  cbn [insert list_insert].
  rewrite (insert_app_r_alt ps0) by lia.
  replace (length d + length ps0 - length ps0)%nat with (length d) by lia.
  by rewrite <- app_assoc.
Qed.

(** The microtasks of the calls run one after the other and each
    installs its lock. *)
Lemma installing_all l0 v0 (first : Ordered.Link) (todo d : list Ordered.Link)
    (z : Ordered.Link) l' :
  Ordered.runs_to db
    (Ordered.installing l0 v0 first ((d ++ [z]) ++ todo) []) l' →
  Ordered.runs_to db (Ordered.installing l0 v0 first (d ++ [z]) todo) l'.
Proof.
  revert d z. induction todo as [|x todo IH]; intros d z Hrun.
  - by rewrite app_nil_r in Hrun.
  - eapply runs_to_micro; [done|].
    change (Ordered.runs_to db
              (Ordered.run_thread (Ordered.link_thread x)
                 (Ordered.installing l0 v0 first (d ++ [z]) todo)) l').
    rewrite installing_next. apply IH.
    by rewrite <- (app_assoc (d ++ [z]) [x] todo).
Qed.

Lemma chain_pending q (xs : list Ordered.Link) (i : nat) :
  (i < length xs)%nat → ∃ ws, Ordered.chain q xs !! i = Some (Ordered.PPending ws).
Proof.
  revert q i. induction xs as [|x xs IH]; intros q i Hi; simpl in Hi; [lia|].
  destruct i as [|i]; simpl; [eauto|]. apply IH. lia.
Qed.

(** While a chain waits, the lock is the promise of its last call,
    which is pending. *)
Lemma lock_of_chain st obs pre (x : Ordered.Link) (xs : list Ordered.Link)
    micro inflight settled :
  Ordered.lock_of
    (Ordered.mkLoop st obs (Some (length pre + length (x :: xs) - 1)%nat)
       (pre ++ Ordered.chain (length pre) (x :: xs)) micro inflight settled)
  = Ordered.LForever.
Proof.
  unfold Ordered.lock_of. cbn [Ordered.l_lock Ordered.l_promises].
  rewrite lookup_app_r by (cbn [length]; lia).
  destruct (chain_pending (length pre) (x :: xs)
              (length pre + length (x :: xs) - 1 - length pre)) as [ws ->];
    [simpl; lia|done].
Qed.

(** On a lock that will never resolve, calls do nothing. *)
Lemma exec_calls_wedged (xs : list Ordered.Link) c :
  Ordered.lock c = Ordered.LForever →
  Ordered.exec_calls db (Ordered.link_calls xs) c = ([], c).
Proof.
  intros Hl. induction xs as [|x xs IH]; [done|].
  cbn [Ordered.link_calls fmap list_fmap Ordered.exec_calls].
  fold (Ordered.link_calls xs).
  unfold Ordered.link_call at 1. cbn [Ordered.exec]. rewrite Hl.
  by rewrite IH.
Qed.

(** A call of the chain, run from start to end on a usable lock. *)
Lemma exec_link_call (x : Ordered.Link) st lk obs v :
  lk = Ordered.LResolved v ∨ (lk = Ordered.LUndefined ∧ v = VUndef) →
  Ordered.exec db (Ordered.link_call x) (Ordered.mkColl st lk obs)
  = match (Ordered.exec db (x.1.2 v) (Ordered.mkColl st lk obs)).1 with
    | Resolved v' =>
        (Resolved (x.2 v'),
         Ordered.mkColl
           (Ordered.store (Ordered.exec db (x.1.2 v) (Ordered.mkColl st lk obs)).2)
           (Ordered.LResolved v')
           (Ordered.totalObservers
              (Ordered.exec db (x.1.2 v) (Ordered.mkColl st lk obs)).2))
    | _ =>
        (Pending,
         Ordered.mkColl
           (Ordered.store (Ordered.exec db (x.1.2 v) (Ordered.mkColl st lk obs)).2)
           Ordered.LForever
           (Ordered.totalObservers
              (Ordered.exec db (x.1.2 v) (Ordered.mkColl st lk obs)).2))
    end.
Proof.
  intros Hlk.
  assert (Ordered.exec db (Ordered.link_call x) (Ordered.mkColl st lk obs)
          = Ordered.exec db (Ordered.link_code x) (Ordered.mkColl st lk obs))
    as ->.
  { unfold Ordered.link_call. cbn [Ordered.exec Ordered.lock].
    by destruct Hlk as [->|[-> _]]. }
  unfold Ordered.link_code. rewrite exec_NewLock.
  assert (Ordered.exec db (Ordered.AwaitLock x.1.2) (Ordered.mkColl st lk obs)
          = Ordered.exec db (x.1.2 v) (Ordered.mkColl st lk obs)) as ->.
  { cbn [Ordered.exec Ordered.lock]. by destruct Hlk as [->|[-> ->]]. }
  by destruct (Ordered.exec db (x.1.2 v) (Ordered.mkColl st lk obs))
    as [[v'|e|] c1].
Qed.

(** The executor at the head of a chain runs to its end, alone. When
    it resolved, its lock resolves, its call settles and the executor of
    the next call is the microtask; when it threw, everything stops. *)
Lemma executing_head (xs : list Ordered.Link) (x : Ordered.Link) st obs pre v
    settled lk l' :
  (∀ v, Ordered.LockFree (x.1.2 v)) →
  Ordered.runs_to db
    match (Ordered.exec db (x.1.2 v) (Ordered.mkColl st lk obs)).1 with
    | Resolved v' =>
        Ordered.mkLoop
          (Ordered.store (Ordered.exec db (x.1.2 v) (Ordered.mkColl st lk obs)).2)
          (Ordered.totalObservers
             (Ordered.exec db (x.1.2 v) (Ordered.mkColl st lk obs)).2)
          (Some (length pre + length (x :: xs) - 1)%nat)
          (pre ++ Ordered.PResolved v' :: Ordered.chain (S (length pre)) xs)
          match xs with
          | y :: _ => [Ordered.TExec (S (length pre)) (y.1.2 v')]
          | [] => []
          end
          [] (settled ++ [(x.1.1, Resolved (x.2 v'))])
    | _ =>
        Ordered.mkLoop
          (Ordered.store (Ordered.exec db (x.1.2 v) (Ordered.mkColl st lk obs)).2)
          (Ordered.totalObservers
             (Ordered.exec db (x.1.2 v) (Ordered.mkColl st lk obs)).2)
          (Some (length pre + length (x :: xs) - 1)%nat)
          (pre ++ Ordered.chain (length pre) (x :: xs))
          [] [] settled
    end l' →
  Ordered.runs_to db (Ordered.executing st obs pre x xs v settled) l'.
Proof.
  intros Hx Hrun.
  pose proof (exec_lock_free db (x.1.2 v) (Ordered.mkColl st lk obs)
                Ordered.LForever (Hx v)) as Hfree.
  cbn [Ordered.store Ordered.totalObservers] in Hfree.
  destruct (Ordered.exec db (x.1.2 v) (Ordered.mkColl st lk obs))
    as [o c1] eqn:He.
  cbn [fst snd] in Hfree, Hrun.
  unfold Ordered.executing. eapply runs_to_micro; [done|].
  cbn [Ordered.l_store Ordered.l_observers Ordered.l_lock
       Ordered.l_promises Ordered.l_inflight Ordered.l_settled].
  set (l3 := Ordered.mkLoop _ _ _ _ _ _ _).
  assert (Ordered.exec db (x.1.2 v) (Ordered.coll_of l3)
          = (o, Ordered.mkColl (Ordered.store c1) Ordered.LForever
                  (Ordered.totalObservers c1))) as He3.
  { unfold Ordered.coll_of. unfold l3 at 2. rewrite lock_of_chain.
    exact Hfree. }
  change (Ordered.runs_to db
            (Ordered.drive (Ordered.TExec (length pre))
               (Ordered.resolve_lock (length pre)) (x.1.2 v) l3) l').
  apply lock_free_runs; [done|done|done|done|].
  rewrite He3. cbn [fst snd Ordered.with_coll Ordered.store
    Ordered.totalObservers].
  unfold l3. cbn [Ordered.with_coll Ordered.store Ordered.totalObservers
       Ordered.l_store Ordered.l_observers Ordered.l_lock
       Ordered.l_promises Ordered.l_micro Ordered.l_inflight
       Ordered.l_settled].
  destruct o as [v'|e|];
    cbn [Ordered.resolve_lock Ordered.with_coll Ordered.store
         Ordered.totalObservers Ordered.l_store Ordered.l_observers
         Ordered.l_lock Ordered.l_promises Ordered.l_micro
         Ordered.l_inflight Ordered.l_settled]; [|done..].
  cbn [Ordered.l_promises Ordered.chain].
  rewrite list_lookup_middle by done.
  cbn [Ordered.l_store Ordered.l_observers Ordered.l_lock
       Ordered.l_promises Ordered.l_micro Ordered.l_inflight
       Ordered.l_settled app fmap list_fmap].
  eapply runs_to_micro; [done|].
  cbn [Ordered.run_thread Ordered.drive Ordered.settle
       Ordered.l_store Ordered.l_observers Ordered.l_lock
       Ordered.l_promises Ordered.l_micro Ordered.l_inflight
       Ordered.l_settled].
  rewrite (insert_app_r_alt pre) by lia.
  rewrite Nat.sub_diag. cbn [insert list_insert].
  by destruct xs.
Qed.

(** The executors of a chain run one after the other, each to its end
    before the next one starts, whatever the engine's choices; the loop
    ends where the calls, awaited one after the other, end. *)
Lemma executing_runs (xs : list Ordered.Link) (x : Ordered.Link) st obs pre v
    settled lk :
  (∀ v, Ordered.LockFree (x.1.2 v)) →
  Forall (λ y : Ordered.Link, ∀ v, Ordered.LockFree (y.1.2 v)) xs →
  lk = Ordered.LResolved v ∨ (lk = Ordered.LUndefined ∧ v = VUndef) →
  ∃ l',
    Ordered.runs_to db (Ordered.executing st obs pre x xs v settled) l'
    ∧ Ordered.quiescent l'
    ∧ Ordered.coll_of l'
      = (Ordered.exec_calls db (Ordered.link_calls (x :: xs))
           (Ordered.mkColl st lk obs)).2
    ∧ Ordered.l_settled l'
      = settled
        ++ (Ordered.exec_calls db (Ordered.link_calls (x :: xs))
              (Ordered.mkColl st lk obs)).1.
Proof.
  revert x st obs pre v settled lk.
  induction xs as [|y ys IH]; intros x st obs pre v settled lk Hx Hxs Hlk.
  - cbn [Ordered.link_calls fmap list_fmap Ordered.exec_calls].
    rewrite (exec_link_call x st lk obs v Hlk).
    destruct (Ordered.exec db (x.1.2 v) (Ordered.mkColl st lk obs))
      as [[v'|e|] c1] eqn:He; cbn [fst snd].
    + eexists. split.
      { apply (executing_head [] x st obs pre v settled lk); [done|].
        rewrite He. cbn [fst snd]. by apply runs_to_rest. }
      split; [done|]. split; [|done].
      unfold Ordered.coll_of, Ordered.lock_of. simpl.
      replace (length pre + 1 - 1)%nat with (length pre) by lia.
      by rewrite list_lookup_middle.
    + eexists. split.
      { apply (executing_head [] x st obs pre v settled lk); [done|].
        rewrite He. cbn [fst snd]. by apply runs_to_rest. }
      split; [done|]. split; [|by rewrite app_nil_r].
      unfold Ordered.coll_of. by rewrite lock_of_chain.
    + eexists. split.
      { apply (executing_head [] x st obs pre v settled lk); [done|].
        rewrite He. cbn [fst snd]. by apply runs_to_rest. }
      split; [done|]. split; [|by rewrite app_nil_r].
      unfold Ordered.coll_of. by rewrite lock_of_chain.
  - apply Forall_cons in Hxs as [Hy Hys].
    cbn [Ordered.link_calls fmap list_fmap Ordered.exec_calls].
    fold (Ordered.link_calls ys).
    rewrite (exec_link_call x st lk obs v Hlk).
    destruct (Ordered.exec db (x.1.2 v) (Ordered.mkColl st lk obs))
      as [o c1] eqn:He.
    destruct o as [v'|e|]; cbn [fst snd].
    + destruct (IH y (Ordered.store c1) (Ordered.totalObservers c1)
                  (pre ++ [Ordered.PResolved v']) v'
                  (settled ++ [(x.1.1, Resolved (x.2 v'))])
                  (Ordered.LResolved v') Hy Hys (or_introl eq_refl))
        as (l' & Hrun & Hidle & Hcoll & Hset).
      cbn [Ordered.link_calls fmap list_fmap Ordered.exec_calls] in Hcoll, Hset.
      fold (Ordered.link_calls ys) in Hcoll, Hset.
      exists l'. split; [|split; [done|split]].
      * apply (executing_head (y :: ys) x st obs pre v settled lk); [done|].
        rewrite He. cbn [fst snd].
        unfold Ordered.executing in Hrun.
        rewrite length_app in Hrun. cbn [length] in Hrun |- *.
        replace (length pre + 1 + S (length ys) - 1)%nat
          with (length pre + S (S (length ys)) - 1)%nat in Hrun by lia.
        replace (length pre + 1)%nat with (S (length pre)) in Hrun by lia.
        rewrite <- app_assoc in Hrun. exact Hrun.
      * rewrite Hcoll.
        by destruct (Ordered.exec db (Ordered.link_call y) _) as [o2 c2];
          destruct (Ordered.exec_calls db (Ordered.link_calls ys) _).
      * rewrite Hset, <- app_assoc.
        by destruct (Ordered.exec db (Ordered.link_call y) _) as [o2 c2];
          destruct (Ordered.exec_calls db (Ordered.link_calls ys) _).
    + change (let '(o0, c2) := Ordered.exec db (Ordered.link_call y) ?c in _)
        with (Ordered.exec_calls db (Ordered.link_calls (y :: ys)) c).
      rewrite (exec_calls_wedged (y :: ys)) by done.
      eexists. split.
      { apply (executing_head (y :: ys) x st obs pre v settled lk); [done|].
        rewrite He. cbn [fst snd]. by apply runs_to_rest. }
      split; [done|]. split; [|by rewrite app_nil_r].
      unfold Ordered.coll_of. by rewrite lock_of_chain.
    + change (let '(o0, c2) := Ordered.exec db (Ordered.link_call y) ?c in _)
        with (Ordered.exec_calls db (Ordered.link_calls (y :: ys)) c).
      rewrite (exec_calls_wedged (y :: ys)) by done.
      eexists. split.
      { apply (executing_head (y :: ys) x st obs pre v settled lk); [done|].
        rewrite He. cbn [fst snd]. by apply runs_to_rest. }
      split; [done|]. split; [|by rewrite app_nil_r].
      unfold Ordered.coll_of. by rewrite lock_of_chain.
Qed.

(** On a lock that will never resolve, the calls that are issued wait
    on it and nothing else changes. *)
Lemma issue_calls_wedged (xs : list Ordered.Link) l :
  Ordered.lock_of l = Ordered.LForever → Ordered.quiescent l →
  Ordered.quiescent (Ordered.issue_calls (Ordered.link_calls xs) l)
  ∧ Ordered.coll_of (Ordered.issue_calls (Ordered.link_calls xs) l)
    = Ordered.coll_of l
  ∧ Ordered.l_settled (Ordered.issue_calls (Ordered.link_calls xs) l)
    = Ordered.l_settled l.
Proof.
  revert l. induction xs as [|x xs IH]; intros l Hl Hrest; [done|].
  cbn [Ordered.link_calls fmap list_fmap Ordered.issue_calls].
  fold (Ordered.link_calls xs).
  assert (Ordered.lock_of (Ordered.call x.1.1 (Ordered.link_call x) l)
          = Ordered.LForever
          ∧ Ordered.quiescent (Ordered.call x.1.1 (Ordered.link_call x) l)
          ∧ Ordered.coll_of (Ordered.call x.1.1 (Ordered.link_call x) l)
            = Ordered.coll_of l
          ∧ Ordered.l_settled (Ordered.call x.1.1 (Ordered.link_call x) l)
            = Ordered.l_settled l) as (Hl1 & Hrest1 & Hcoll1 & Hset1).
  { unfold Ordered.call, Ordered.link_call. cbn [Ordered.run_thread].
    rewrite drive_AwaitLock. unfold Ordered.coll_of, Ordered.lock_of in *.
    destruct (Ordered.l_lock l) as [p|] eqn:Hlock; [|done].
    destruct (Ordered.l_promises l !! p) as [[ws|v]|] eqn:Hp; [|done|].
    - unfold Ordered.with_promises, Ordered.quiescent in *.
      cbn [Ordered.l_store Ordered.l_observers Ordered.l_lock
           Ordered.l_promises Ordered.l_settled Ordered.l_micro
           Ordered.l_inflight].
      rewrite Hlock.
      rewrite list_lookup_insert_eq by (by apply lookup_lt_Some in Hp).
      done.
    - rewrite Hlock, Hp. done. }
  destruct (IH _ Hl1 Hrest1) as (? & ? & ?).
  split; [done|]. split; congruence.
Qed.

(** Calls of the shape of [push] and [pop], issued together in a loop
    at rest. *)
Lemma link_calls_serialise (xs : list Ordered.Link) l :
  Ordered.quiescent l →
  Forall (λ y : Ordered.Link, ∀ v, Ordered.LockFree (y.1.2 v)) xs →
  ∃ l',
    Ordered.runs_to db (Ordered.issue_calls (Ordered.link_calls xs) l) l'
    ∧ Ordered.quiescent l'
    ∧ Ordered.coll_of l'
      = (Ordered.exec_calls db (Ordered.link_calls xs) (Ordered.coll_of l)).2
    ∧ Ordered.l_settled l'
      = Ordered.l_settled l
        ++ (Ordered.exec_calls db (Ordered.link_calls xs)
              (Ordered.coll_of l)).1.
Proof.
  intros Hrest Hxs.
  destruct xs as [|x xs].
  { exists l. split; [by apply runs_to_rest|].
    split; [done|]. split; [done|by rewrite app_nil_r]. }
  assert ((∃ v0, Ordered.usable l v0
                 ∧ (Ordered.lock_of l = Ordered.LResolved v0
                    ∨ (Ordered.lock_of l = Ordered.LUndefined ∧ v0 = VUndef)))
          ∨ Ordered.lock_of l = Ordered.LForever) as [(v0 & Hu & Hlk)|Hl].
  { unfold Ordered.usable, Ordered.lock_of.
    destruct (Ordered.l_lock l) as [p|] eqn:Hlock.
    - destruct (Ordered.l_promises l !! p) as [[ws|v]|] eqn:Hp;
        [by right| |by right].
      left. exists v. split; [right; eauto|by left].
    - left. exists VUndef. split; [by left|by right]. }
  - apply Forall_cons in Hxs as [Hx Hxs]. destruct Hrest as [Hm Hq].
    destruct (executing_runs xs x (Ordered.l_store l) (Ordered.l_observers l)
                (Ordered.l_promises l) v0 (Ordered.l_settled l)
                (Ordered.lock_of l) Hx Hxs Hlk)
      as (l' & Hrun & Hrest').
    exists l'. split; [|done].
    rewrite (issue_calls_usable (x :: xs) l v0 Hu), Hm.
    eapply runs_to_micro; [done|].
    change (Ordered.runs_to db
              (Ordered.run_thread (Ordered.link_thread x)
                 (Ordered.mkLoop (Ordered.l_store l) (Ordered.l_observers l)
                    (Ordered.l_lock l) (Ordered.l_promises l)
                    (Ordered.link_thread <$> xs) (Ordered.l_inflight l)
                    (Ordered.l_settled l))) l').
    rewrite (installing_first l v0 x xs Hu Hq).
    apply (installing_all l v0 x xs [] x). exact Hrun.
  - destruct (issue_calls_wedged (x :: xs) l Hl Hrest) as (Hq' & Hcoll & Hset).
    eexists. split; [by apply runs_to_rest|]. split; [done|].
    rewrite exec_calls_wedged by done. split; [done|].
    by rewrite app_nil_r.
Qed.

(** The two methods that install a lock are calls of a chain. *)
Lemma body_link (m : Ordered.Method) :
  Ordered.installs_lock m →
  ∃ rest : Val → Ordered.Prog Val,
    (∀ v, Ordered.LockFree (rest v))
    ∧ ∀ id, Ordered.body m = Ordered.link_call (id, rest, Ordered.AVal).
Proof.
  destruct m as [|index|index item|items|a b| | |]; try done; intros _.
  - eexists. split; [|intros id; reflexivity]. intros v. cbv beta.
    constructor. intros [[| |n|s]|]; simpl; repeat constructor.
  - eexists. split; [|intros id; reflexivity]. intros v. cbv beta.
    constructor. intros [[| |n|s]|]; simpl; try constructor.
    intros [v1|]; simpl; repeat constructor.
Qed.

End OrderedChain.

(** X23. The lock chain puts [push] and [pop] calls in the order of
    their issue. Any number of [push] and [pop] calls, issued one after
    the other without awaiting any, on a collection with nothing else
    under way: whatever the order in which the engine completes requests,
    the loop comes to rest; the store, the lock and the observers are then
    those the same calls leave when each is awaited before the next is
    issued, and the promises have settled in the order of issue with the
    same outcomes. *)
Theorem lock_chain_serialises (db : Engine.Handle)
    (calls : list (nat * Ordered.Method)) (l : Ordered.Loop) :
  Ordered.quiescent l →
  Forall (λ c, Ordered.installs_lock c.2) calls →
  let progs := (λ c, (c.1, Ordered.body c.2)) <$> calls in
  ∃ l',
    Ordered.reaches db (Ordered.issue_calls progs l) l'
    ∧ Ordered.quiescent l'
    ∧ Ordered.coll_of l'
      = (Ordered.exec_calls db progs (Ordered.coll_of l)).2
    ∧ Ordered.l_settled l'
      = Ordered.l_settled l
        ++ (Ordered.exec_calls db progs (Ordered.coll_of l)).1.
Proof.
  intros Hrest Hcalls progs.
  assert (∃ xs : list Ordered.Link,
            progs = Ordered.link_calls xs
            ∧ Forall (λ y : Ordered.Link, ∀ v, Ordered.LockFree (y.1.2 v)) xs)
    as (xs & -> & Hxs).
  { subst progs. clear Hrest. induction calls as [|[id m] calls IH].
    - by exists [].
    - apply Forall_cons in Hcalls as [Hm Hcalls].
      destruct (IH Hcalls) as (xs & Hxs & Hfree).
      destruct (body_link m Hm) as (rest & Hrest & Hbody).
      exists ((id, rest, Ordered.AVal) :: xs). split.
      + change (Ordered.link_calls ((id, rest, Ordered.AVal) :: xs))
          with ((id, Ordered.link_call (id, rest, Ordered.AVal))
                :: Ordered.link_calls xs).
        rewrite <- Hxs, <- (Hbody id). reflexivity.
      + by constructor. }
  destruct (link_calls_serialise db xs l Hrest Hxs) as (l' & Hrun & Hrest').
  exists l'. split; [by apply runs_to_reaches|done].
Qed.

Lemma lock_chain_serialises_witness :
  let db := Engine.sub Engine.root "testordered" in
  let l := Ordered.start {[ db +:+ META_KEY := VNum 0 ]} in
  let calls := [(1%nat, Ordered.MPush [VNum 1]); (2%nat, Ordered.MPush [VNum 2]);
                (3%nat, Ordered.MPop)] in
  let progs := (λ c, (c.1, Ordered.body c.2)) <$> calls in
  ∃ l',
    Ordered.reaches db (Ordered.issue_calls progs l) l'
    ∧ Ordered.quiescent l'
    ∧ Ordered.coll_of l'
      = (Ordered.exec_calls db progs (Ordered.coll_of l)).2
    ∧ Ordered.l_settled l'
      = Ordered.l_settled l
        ++ (Ordered.exec_calls db progs (Ordered.coll_of l)).1.
Proof.
  intros db l calls.
  apply (lock_chain_serialises db calls l).
  - split; reflexivity.
  - repeat constructor.
Defined.
